(** * my-mind-map: the outline parser and layout engine

    A shallow embedding of the two [parseMarkdown] functions of the
    repository and the properties of the trees they return:

    - [MarkdownParser.parseMarkdown] (src/utils/markdownParser.ts): nodes are
      folded into a tree with a stack of open ancestors and laid out by
      [convertToMindMap];
    - [App.parseMarkdown] (the component file): nodes are attached to the
      last node seen one level up ([lastNodeAtLevel]) and laid out while
      they are created;
    - the component [App] that shows the tree ([Component]): looking up a
      node, what a click changes in [expandedNodes], and the nodes and
      edges the effect puts on display.

    Modelling conventions.
    - A JavaScript string is a list of code units; the development covers
      code units below 256, so a code unit is an [ascii].  White space,
      line terminators and lower-casing are those of ECMAScript restricted
      to that range.
    - Both parsers build their tree by mutating objects that are reachable
      through several references (the stack, [lastNodeAtLevel], the
      [children] arrays).  The objects live in a store, a list of cells
      addressed by allocation order; a [children] array holds addresses.
      The value handed to the caller is read back from the store by
      [reify].  The store outlives a call: [MarkdownParserCall] and
      [AppCall] run the parsers in a store that earlier calls have filled.
    - Coordinates are integer-valued doubles far below 2^53; they are
      modelled in [Z], and [num] adds the value [NaN] that arithmetic on
      [undefined] produces.
    - A run ends in [Ok v], in [TypeError] (the exception JavaScript raises
      when a property of [undefined] is read) or in [Stuck] (a dangling
      address or an exhausted read-back budget; shown unreachable).
    - [expandedNodes], a [Map] from identifiers to levels, is the list of
      its entries in insertion order, which is the order [forEach] visits
      them in; the state hooks of the component are explicit arguments and
      results. *)

From Stdlib Require Import ZArith Lia Ascii String.
From stdpp Require Import base option list sorting gmap strings pretty.

Local Open Scope nat_scope.

(** ** Strings as lists of code units *)

Abbreviation str := (list ascii).

Definition lit (s : string) : str := list_ascii_of_string s.

Module JS.

(** [\s] and [String.prototype.trim]: WhiteSpace and LineTerminator. *)
Definition isWhiteSpace (c : ascii) : bool :=
  bool_decide (nat_of_ascii c ∈ [9; 10; 11; 12; 13; 32; 160]).

(** The characters the regular expression [.] does not match. *)
Definition isLineTerminator (c : ascii) : bool :=
  bool_decide (nat_of_ascii c ∈ [10; 13]).

Definition isHash (c : ascii) : bool := bool_decide (c = "#"%char).

(** [[A-Fa-f0-9]] *)
Definition isHexDigit (c : ascii) : bool :=
  let n := nat_of_ascii c in
  ((48 <=? n) && (n <=? 57)) || ((65 <=? n) && (n <=? 70))
  || ((97 <=? n) && (n <=? 102)).

Fixpoint dropWhile (p : ascii → bool) (s : str) : str :=
  match s with
  | c :: t => if p c then dropWhile p t else s
  | [] => []
  end.

Fixpoint takeWhile (p : ascii → bool) (s : str) : str :=
  match s with
  | c :: t => if p c then c :: takeWhile p t else []
  | [] => []
  end.

Definition trimStart (s : str) : str := dropWhile isWhiteSpace s.
Definition trimEnd (s : str) : str :=
  reverse (dropWhile isWhiteSpace (reverse s)).
Definition trim (s : str) : str := trimEnd (trimStart s).

(** [s.split('\n')]: always at least one piece. *)
Fixpoint split (s : str) : list str :=
  match s with
  | [] => [[]]
  | c :: t =>
      if bool_decide (c = "010"%char) then [] :: split t
      else match split t with
           | l :: ls => (c :: l) :: ls
           | [] => [[c]]
           end
  end.

(** [toLowerCase] on code units below 256. *)
Definition lowerChar (c : ascii) : ascii :=
  let n := nat_of_ascii c in
  if ((65 <=? n) && (n <=? 90))
     || ((192 <=? n) && (n <=? 222) && negb (n =? 215))
  then ascii_of_nat (n + 32) else c.
Definition toLowerCase (s : str) : str := lowerChar <$> s.

(** A non-negative integer inside a template literal. *)
Definition ofNat (n : nat) : str := lit (pretty n).

(** ['#'.repeat(n)] *)
Definition hashes (n : nat) : str := replicate n "#"%char.

(** The length of the match of [/^#+/], 0 without a match. *)
Definition headingLevel (line : str) : nat := length (takeWhile isHash line).

(** [line.replace(/^#+\s*/, '')] *)
Definition stripHeading (line : str) : str :=
  match line with
  | c :: _ => if isHash c then dropWhile isWhiteSpace (dropWhile isHash line)
              else line
  | [] => []
  end.

(** [s.replace(/\s+/g, '-')]; [inRun] tells that the previous code unit
    was white space already replaced. *)
Fixpoint hyphenate (inRun : bool) (s : str) : str :=
  match s with
  | [] => []
  | c :: t =>
      if isWhiteSpace c
      then (if inRun then hyphenate true t else "-"%char :: hyphenate true t)
      else c :: hyphenate false t
  end.

(** *** [/\[(#[A-Fa-f0-9]{6})\]/] *)

(** The match anchored at the start of [s]: the captured group. *)
Definition colorAt (s : str) : option str :=
  match s with
  | o :: hash :: h1 :: h2 :: h3 :: h4 :: h5 :: h6 :: c :: _ =>
      if bool_decide (o = "["%char) && bool_decide (hash = "#"%char)
         && forallb isHexDigit [h1; h2; h3; h4; h5; h6]
         && bool_decide (c = "]"%char)
      then Some (hash :: [h1; h2; h3; h4; h5; h6]) else None
  | _ => None
  end.

(** [line.match(...)]: the group of the leftmost match. *)
Fixpoint colorMatch (s : str) : option str :=
  match colorAt s with
  | Some c => Some c
  | None => match s with
            | [] => None
            | _ :: t => colorMatch t
            end
  end.

(** *** [/\((.*?)\)$/] *)

(** [body] is what follows an opening parenthesis: it matches [.*?\)$]
    when it ends in [)] and has no line terminator before that. *)
Definition closesAtEnd (body : str) : bool :=
  match reverse body with
  | c :: rt => bool_decide (c = ")"%char)
               && forallb (λ d, negb (isLineTerminator d)) rt
  | [] => false
  end.

(** The group of the leftmost match: all that lies between the opening
    parenthesis and the final one. *)
Fixpoint edgeLabelMatch (s : str) : option str :=
  match s with
  | [] => None
  | c :: t =>
      if bool_decide (c = "("%char) && closesAtEnd t
      then Some (removelast t) else edgeLabelMatch t
  end.

(** *** [s.replace(/\s*\[.*?\]/g, '')] *)

(** What follows the first [close], when no line terminator comes
    before it. *)
Fixpoint afterClose (close : ascii) (s : str) : option str :=
  match s with
  | [] => None
  | c :: t =>
      if bool_decide (c = close) then Some t
      else if isLineTerminator c then None
      else afterClose close t
  end.

(** The match anchored at the start of [s]: what follows it. *)
Definition bracketedAt (s : str) : option str :=
  match dropWhile isWhiteSpace s with
  | c :: body => if bool_decide (c = "["%char) then afterClose "]"%char body
                 else None
  | [] => None
  end.

(** Every match is cut out, left to right; a match has at least two code
    units, so a budget of [length s] steps reaches the end of [s]. *)
Fixpoint removeBracketedFrom (budget : nat) (s : str) : str :=
  match budget with
  | 0 => s
  | S b =>
      match bracketedAt s with
      | Some rest => removeBracketedFrom b rest
      | None => match s with
                | [] => []
                | c :: t => c :: removeBracketedFrom b t
                end
      end
  end.
Definition removeBracketed (s : str) : str :=
  removeBracketedFrom (length s) s.

(** *** [s.replace(/\s*\(.*?\)$/g, '')] *)

Definition parenthesizedToEnd (s : str) : bool :=
  match dropWhile isWhiteSpace s with
  | c :: body => bool_decide (c = "("%char) && closesAtEnd body
  | [] => false
  end.

(** The leftmost match runs to the end of the string, so there is at most
    one. *)
Fixpoint removeTrailingParen (s : str) : str :=
  if parenthesizedToEnd s then []
  else match s with
       | [] => []
       | c :: t => c :: removeTrailingParen t
       end.

End JS.

(** ** Outcomes of a run *)

Inductive outcome (A : Type) : Type :=
| Ok (a : A)
| TypeError
| Stuck.
Arguments Ok {A} a.
Arguments TypeError {A}.
Arguments Stuck {A}.

Global Instance outcome_ret : MRet outcome := λ A, Ok.
Global Instance outcome_bind : MBind outcome := λ A B f m,
  match m with
  | Ok a => f a
  | TypeError => TypeError
  | Stuck => Stuck
  end.
Global Instance outcome_fmap : FMap outcome := λ A B f m,
  match m with
  | Ok a => Ok (f a)
  | TypeError => TypeError
  | Stuck => Stuck
  end.

(** A read from the store that cannot go wrong in JavaScript. *)
Definition fetch {A} (o : option A) : outcome A :=
  match o with
  | Some a => Ok a
  | None => Stuck
  end.

(** ** Numbers: an integer or NaN *)

Inductive num : Type :=
| NaN
| Fin (z : Z).

Global Instance num_eq_dec : EqDecision num.
Proof. solve_decision. Defined.

Definition numAdd (a b : num) : num :=
  match a, b with
  | Fin x, Fin y => Fin (x + y)
  | _, _ => NaN
  end.

Definition numSub (a b : num) : num :=
  match a, b with
  | Fin x, Fin y => Fin (x - y)
  | _, _ => NaN
  end.

(** [ToNumber] of a number that may be [undefined]. *)
Definition toNumber (o : option num) : num :=
  match o with
  | Some n => n
  | None => NaN
  end.

(** ** Trees with ordered children *)

Local Unset Elimination Schemes.
Inductive rose (A : Type) : Type :=
  Rose { item : A; children : list (rose A) }.
Local Set Elimination Schemes.
Arguments Rose {A} item children.
Arguments item {A} r.
Arguments children {A} r.

Section rose.
Context {A : Type}.

Fixpoint rose_ind' (P : rose A → Prop)
    (step : ∀ x ts, Forall P ts → P (Rose x ts)) (t : rose A) : P t :=
  match t with
  | Rose x ts =>
      step x ts
        ((fix go (l : list (rose A)) : Forall P l :=
            match l with
            | [] => Forall_nil_2 P
            | t' :: l' => Forall_cons_2 P t' l' (rose_ind' P step t') (go l')
            end) ts)
  end.

(** All the nodes (as subtrees), parents before children. *)
Fixpoint nodes (t : rose A) : list (rose A) :=
  match t with
  | Rose _ ts => t :: (ts ≫= nodes)
  end.

Definition size (t : rose A) : nat := length (nodes t).

(** The nodes with their depth below the root of [t], which is at [d]. *)
Fixpoint walk (d : nat) (t : rose A) : list (nat * rose A) :=
  match t with
  | Rose _ ts => (d, t) :: (ts ≫= walk (S d))
  end.

Fixpoint rose_map {B} (f : A → B) (t : rose A) : rose B :=
  match t with
  | Rose x ts => Rose (f x) (rose_map f <$> ts)
  end.

(** A property of every node and the items of its children. *)
Definition everywhere (Q : A → list A → Prop) (t : rose A) : Prop :=
  Forall (λ n, Q (item n) (item <$> children n)) (nodes t).

End rose.

(** ** The store *)

Record cell (A : Type) : Type := Cell { payload : A; kids : list nat }.
Arguments Cell {A} payload kids.
Arguments payload {A} c.
Arguments kids {A} c.

Section store.
Context {A : Type}.
Implicit Types (h : list (cell A)) (a p n : nat).

(** [new] yields address [length h]. *)
Definition alloc (x : A) h : list (cell A) := h ++ [Cell x []].

(** [c.children.push(n)] *)
Definition adopt n (c : cell A) : cell A := Cell (payload c) (kids c ++ [n]).
Definition push p n h : list (cell A) := alter (adopt n) p h.

(** The tree below address [a], every node with its address. *)
Fixpoint reify (budget : nat) h a : option (rose (nat * A)) :=
  match budget with
  | 0 => None
  | S b =>
      c ← h !! a;
      ts ← mapM (reify b h) (kids c);
      Some (Rose (a, payload c) ts)
  end.

Definition readBack h a : outcome (rose (nat * A)) :=
  fetch (reify (length h) h a).

(** Children are allocated after their parent and inside the store. *)
Definition wf h : Prop :=
  ∀ a c, h !! a = Some c → Forall (λ b, a < b < length h) (kids c).

(** A leaf is hung below every node with address [p]. *)
Fixpoint graft p (l : rose (nat * A)) (t : rose (nat * A)) : rose (nat * A) :=
  match t with
  | Rose x ts =>
      Rose x ((graft p l <$> ts) ++ (if decide (x.1 = p) then [l] else []))
  end.

Definition addrs (t : rose (nat * A)) : list nat := (λ r, (item r).1) <$> nodes t.

(** How often address [a] occurs in [t]. *)
Definition count a (t : rose (nat * A)) : nat := length (filter (a =.) (addrs t)).

(** Every object and the objects in its [children] array satisfy [Q]. *)
Definition stored (Q : A → list A → Prop) h : Prop :=
  ∀ a c, h !! a = Some c →
    ∃ xs, Forall2 (λ k x, payload <$> h !! k = Some x) (kids c) xs
          ∧ Q (payload c) xs.


(** The addresses on the last branch of [t], from its root down. *)
Fixpoint spine (t : rose (nat * A)) : list nat :=
  match t with
  | Rose x ts =>
      x.1 :: (fix go (l : list (rose (nat * A))) : list nat :=
                match l with
                | [] => []
                | c :: l' => match l' with
                             | [] => spine c
                             | _ :: _ => go l'
                             end
                end) ts
  end.

(** The object [c] with its references moved up by [k]. *)
Definition moved (k : nat) (c : cell A) : cell A :=
  Cell (payload c) ((λ a, k + a) <$> kids c).

(** The objects of [h] allocated in a store that holds [h0] already. *)
Definition relocated (h0 h : list (cell A)) : list (cell A) :=
  h0 ++ (moved (length h0) <$> h).

End store.

(** [l.map((child, idx) => f(child, idx))], the indices counted from [idx]. *)
Definition mapFrom {A B : Type} (f : A → nat → B) : nat → list A → list B :=
  fix go (idx : nat) (l : list A) : list B :=
    match l with
    | [] => []
    | child :: l' => f child idx :: go (S idx) l'
    end.

(** [lines.forEach(f)], the state threaded through the calls. *)
Fixpoint forEach {S : Type} (f : S → str → outcome S) (st : S)
    (lines : list str) : outcome S :=
  match lines with
  | [] => Ok st
  | line :: rest => st' ← f st line; forEach f st' rest
  end.

(** ** src/utils/markdownParser.ts *)

Module MarkdownParser.

(** [MarkdownNode] without its [children]. *)
Record MarkdownItem : Type := { level : Z; content : str }.
Abbreviation MarkdownNode := (rose MarkdownItem).

Record Position : Type := { x : Z; y : Z }.

(** [MindMapNode] without its [children]. *)
Record MindMapItem : Type := { id : str; label : str; position : Position }.
Abbreviation MindMapNode := (rose MindMapItem).

Definition xSpacing : Z := 200.
Definition ySpacing : Z := 100.

(** [markdown.split('\n').filter(line => line.trim())] *)
Definition lines (markdown : str) : list str :=
  filter (λ line, JS.trim line ≠ []) (JS.split markdown).

(** [line.match(/^#+/)?.[0].length || 0] *)
Definition lineLevel (line : str) : Z := Z.of_nat (JS.headingLevel line).

(** [line.replace(/^#+\s*/, '').trim()] *)
Definition lineContent (line : str) : str := JS.trim (JS.stripHeading line).

(** The objects created so far and the stack of open ancestors, its top
    ([stack[stack.length - 1]]) first. *)
Record state : Type := { heap : list (cell MarkdownItem); stack : list nat }.

(** The address of [root]. *)
Definition root : nat := 0.

Definition init : state :=
  {| heap := [Cell {| level := -1; content := lit "Root" |} []];
     stack := [root] |}.

(** [while (stack.length > 1 && stack[stack.length - 1].level >= level)
      stack.pop()] *)
Fixpoint unwind (h : list (cell MarkdownItem)) (lv : Z) (stack : list nat)
    : outcome (list nat) :=
  match stack with
  | top :: (_ :: _) as rest =>
      c ← fetch (h !! top);
      if bool_decide (lv ≤ level (payload c))%Z then unwind h lv rest
      else Ok stack
  | _ => Ok stack
  end.

(** The body of [lines.forEach]. *)
Definition step (st : state) (line : str) : outcome state :=
  let node := {| level := lineLevel line; content := lineContent line |} in
  let n := length (heap st) in
  let h := alloc node (heap st) in
  stack' ← unwind h (level node) (stack st);
  top ← match stack' with
        | top :: _ => Ok top
        | [] => TypeError
        end;
  Ok {| heap := push top n h; stack := n :: stack' |}.

Fixpoint convertToMindMap (node : MarkdownNode) (level index : nat)
    : MindMapNode :=
  match node with
  | Rose it cs =>
      let yOffset := (Z.of_nat index * ySpacing)%Z in
      Rose {| id := lit "node-" ++ JS.ofNat level ++ lit "-" ++ JS.ofNat index;
              label := content it;
              position := {| x := (Z.of_nat level * xSpacing)%Z; y := yOffset |} |}
           (mapFrom (λ child idx, convertToMindMap child (S level) idx) 0 cs)
  end.

(** The loop and [return convertToMindMap(root.children[0])];
    [root.children[0]] is [undefined] when nothing was attached to
    [root], and reading its [content] raises. *)
Definition parseLines (ls : list str) : outcome MindMapNode :=
  st ← forEach step init ls;
  c ← fetch (heap st !! root);
  match kids c with
  | [] => TypeError
  | a :: _ =>
      t ← readBack (heap st) a;
      Ok (convertToMindMap (rose_map snd t) 0 0)
  end.

Definition parseMarkdown (markdown : str) : outcome MindMapNode :=
  parseLines (lines markdown).

End MarkdownParser.

(** ** The component file: [parseMarkdown] of the application *)

Module App.

Record Position : Type := { x : Z; y : num }.

(** [NodeDataType] without its [children]; an absent [edgeLabel] is
    [None]. *)
Record NodeDataItem : Type :=
  { id : str; label : str; color : str; edgeLabel : option str;
    position : Position }.
Abbreviation NodeDataType := (rose NodeDataItem).

Definition xSpacing : Z := 250.
Definition ySpacing : Z := 80.

(** [markdown.trim().split('\n')] *)
Definition lines (markdown : str) : list str := JS.split (JS.trim markdown).

Definition parseLine (line : str) : str * str * option str :=
  let colorMatch := JS.colorMatch line in
  let edgeLabelMatch := JS.edgeLabelMatch line in
  let color := default (lit "#212529") colorMatch in
  let edgeLabel := edgeLabelMatch in
  let label :=
    JS.trim (JS.stripHeading (JS.removeTrailingParen (JS.removeBracketed line))) in
  (label, color, edgeLabel).

(** [`${'#'.repeat(parentLevel)}-${parent?.label}`] *)
Definition parentKeyOf (parentLevel : nat) (parent : option (cell NodeDataItem))
    : str :=
  JS.hashes parentLevel ++ lit "-"
  ++ match parent with
     | Some p => label (payload p)
     | None => lit "undefined"
     end.

(** The body of the first [forEach].  [lastNodeAtLevel] is empty during
    the whole first pass, so the parent it looks up is [undefined]. *)
Definition countChildren (childCountByParent : gmap str nat) (line : str)
    : gmap str nat :=
  let level := JS.headingLevel line in
  if decide (level = 0) then childCountByParent
  else
    let parentLevel := level - 1 in
    if decide (0 < parentLevel) then
      let parentKey := parentKeyOf parentLevel None in
      <[parentKey := default 0 (childCountByParent !! parentKey) + 1]>
        childCountByParent
    else childCountByParent.

(** The objects created so far, [root] and [lastNodeAtLevel]. *)
Record state : Type :=
  { heap : list (cell NodeDataItem);
    root : option nat;
    lastNodeAtLevel : gmap nat nat }.

Definition init : state :=
  {| heap := []; root := None; lastNodeAtLevel := ∅ |}.

(** [lastNodeAtLevel[parentLevel]], read through to the object. *)
Definition parentAt (st : state) (parentLevel : nat)
    : outcome (option (cell NodeDataItem)) :=
  match lastNodeAtLevel st !! parentLevel with
  | None => Ok None
  | Some a => c ← fetch (heap st !! a); Ok (Some c)
  end.

(** [parent?.position.y] as a number *)
Definition parentY (parent : option (cell NodeDataItem)) : num :=
  toNumber ((λ p, y (position (payload p))) <$> parent).

(** [childCountByParent[parentKey] || 1] *)
Definition countOr1 (count : option nat) : nat :=
  match count with
  | Some (S c) => S c
  | _ => 1
  end.

Definition yPositionOf (childCountByParent : gmap str nat) (st : state)
    (level : nat) : outcome num :=
  if decide (level = 1) then Ok (Fin (ySpacing * 2))
  else
    let parentLevel := level - 1 in
    parent ← parentAt st parentLevel;
    let parentKey := parentKeyOf parentLevel parent in
    let totalChildren := countOr1 (childCountByParent !! parentKey) in
    let childIndex := default 0 ((λ p, length (kids p)) <$> parent) in
    if decide (childIndex = 0) then Ok (numSub (parentY parent) (Fin ySpacing))
    else
      let totalHeight := ((Z.of_nat totalChildren - 1) * ySpacing)%Z in
      let startY := parentY parent in
      Ok (numAdd startY (Fin (Z.of_nat childIndex * ySpacing))).

(** The body of the second [forEach]. *)
Definition step (childCountByParent : gmap str nat) (st : state) (line : str)
    : outcome state :=
  let level := JS.headingLevel line in
  if decide (level = 0) then Ok st
  else
    let '(label, color, edgeLabel) := parseLine line in
    let id := JS.hyphenate false (JS.toLowerCase label) in
    yPosition ← yPositionOf childCountByParent st level;
    let node :=
      {| id := id; label := label; color := color; edgeLabel := edgeLabel;
         position := {| x := (Z.of_nat level * xSpacing)%Z; y := yPosition |} |} in
    let n := length (heap st) in
    let h := alloc node (heap st) in
    if decide (level = 1) then
      Ok {| heap := h; root := Some n;
            lastNodeAtLevel := <[1 := n]> (lastNodeAtLevel st) |}
    else
      let parentLevel := level - 1 in
      let h' := match lastNodeAtLevel st !! parentLevel with
                | Some parent => push parent n h
                | None => h
                end in
      Ok {| heap := h'; root := root st;
            lastNodeAtLevel := <[level := n]> (lastNodeAtLevel st) |}.

(** The value of [root || {...}]. *)
Definition fallback : NodeDataType :=
  Rose {| id := lit "nyc"; label := lit "NYC"; color := lit "#4169e1";
          edgeLabel := None; position := {| x := 250; y := Fin 250 |} |} [].

(** Both passes; what [root] refers to at the end, every node with the
    address of its object (the number of heading lines before its
    own). *)
Definition rootTree (ls : list str) : outcome (option (rose (nat * NodeDataItem))) :=
  let childCountByParent := foldl countChildren ∅ ls in
  st ← forEach (step childCountByParent) init ls;
  match root st with
  | Some a => t ← readBack (heap st) a; Ok (Some t)
  | None => Ok None
  end.

Definition parseLines (ls : list str) : outcome NodeDataType :=
  o ← rootTree ls;
  Ok (match o with
      | Some t => rose_map snd t
      | None => fallback
      end).

Definition parseMarkdown (markdown : str) : outcome NodeDataType :=
  parseLines (lines markdown).

End App.

(** ** A call in a store that is not empty *)

(** The JavaScript heap outlives a call: a second call of a parser runs in
    the store that the first one left.  Below, each parser is given the
    store [h0] it starts in; its local variables ([root], [stack],
    [lastNodeAtLevel], [childCountByParent]) are new in every call, as
    they are declared in the body of the function.  A call returns the
    store it leaves and the tree it returns. *)

Module MarkdownParserCall.
Import MarkdownParser.

(** [const root = {...}; const stack = [root]], [root] being allocated
    after the objects of [h0]. *)
Definition init (h0 : list (cell MarkdownItem)) : state :=
  {| heap := alloc {| level := -1; content := lit "Root" |} h0;
     stack := [length h0] |}.

Definition parseLines (h0 : list (cell MarkdownItem)) (ls : list str)
    : outcome (list (cell MarkdownItem) * MindMapNode) :=
  st ← forEach step (init h0) ls;
  c ← fetch (heap st !! length h0);
  match kids c with
  | [] => TypeError
  | a :: _ =>
      t ← readBack (heap st) a;
      Ok (heap st, convertToMindMap (rose_map snd t) 0 0)
  end.

Definition parseMarkdown (h0 : list (cell MarkdownItem)) (markdown : str)
    : outcome (list (cell MarkdownItem) * MindMapNode) :=
  parseLines h0 (lines markdown).

End MarkdownParserCall.

Module AppCall.
Import App.

(** [let root = null; let lastNodeAtLevel = {}] *)
Definition init (h0 : list (cell NodeDataItem)) : state :=
  {| heap := h0; root := None; lastNodeAtLevel := ∅ |}.

Definition parseLines (h0 : list (cell NodeDataItem)) (ls : list str)
    : outcome (list (cell NodeDataItem) * NodeDataType) :=
  let childCountByParent := foldl countChildren ∅ ls in
  st ← forEach (step childCountByParent) (init h0) ls;
  match root st with
  | Some a => t ← readBack (heap st) a; Ok (heap st, rose_map snd t)
  | None => Ok (heap st, fallback)
  end.

Definition parseMarkdown (h0 : list (cell NodeDataItem)) (markdown : str)
    : outcome (list (cell NodeDataItem) * NodeDataType) :=
  parseLines h0 (lines markdown).

End AppCall.

(** A line feed, to write inputs of several lines. *)
Definition nl : str := ["010"%char].

(** ** Well-formed outlines *)

(** The levels of the heading lines, in order. *)
Definition headingLevels (ls : list str) : list nat :=
  filter (λ L, L ≠ 0) (JS.headingLevel <$> ls).

(** Every heading is at least at level 2 and at most one level below the
    heading before it, which is at [prev]. *)
Fixpoint nestedFrom (prev : nat) (levels : list nat) : bool :=
  match levels with
  | [] => true
  | L :: rest => (2 <=? L) && (L <=? S prev) && nestedFrom L rest
  end.

(** One heading of level 1, the first, and the others nested below it. *)
Definition wellFormed (levels : list nat) : bool :=
  match levels with
  | 1 :: rest => nestedFrom 1 rest
  | _ => false
  end.

(** [lastNodeAtLevel[L]] once the lines [pre] have gone through the second
    pass. *)
Definition lastRecorded (childCountByParent : gmap str nat) (pre : list str)
    (L : nat) : option nat :=
  match forEach (App.step childCountByParent) App.init pre with
  | Ok st => App.lastNodeAtLevel st !! L
  | _ => None
  end.

(** ** The annotations of a line, in the words of the specification *)

(** A hexadecimal digit, in either case. *)
Definition hexDigit (c : ascii) : Prop := c ∈ lit "0123456789abcdefABCDEF".

(** [#RRGGBB] *)
Definition colorValue (c : str) : Prop :=
  ∃ h, c = "#"%char :: h ∧ length h = 6 ∧ Forall hexDigit h.

(** After [pre], the line has the tag [[c]]. *)
Definition tagAt (line pre c : str) : Prop :=
  colorValue c ∧ ∃ post, line = pre ++ "["%char :: c ++ "]"%char :: post.

(** [c] is the value of the first tag of the line. *)
Definition firstTag (line c : str) : Prop :=
  ∃ pre, tagAt line pre c
         ∧ ∀ pre' c', tagAt line pre' c' → length pre ≤ length pre'.

(** The line has no tag. *)
Definition noTag (line : str) : Prop := ∀ pre c, ¬ tagAt line pre c.

(** The colour of a line: its tag or the default. *)
Definition colorOf (line c : str) : Prop :=
  firstTag line c ∨ (noTag line ∧ c = lit "#212529").

(** An opening or closing parenthesis. *)
Definition parenthesis (c : ascii) : Prop := c = "("%char ∨ c = ")"%char.

(** The line ends in a group in parentheses that holds [text]: its last
    characters are an opening parenthesis, [text] without a parenthesis in
    it, and a closing parenthesis. *)
Definition trailingGroup (line text : str) : Prop :=
  (∃ pre, line = pre ++ "("%char :: text ++ [")"%char])
  ∧ Forall (λ d, ¬ parenthesis d) text.

(** The line does not end in a group in parentheses. *)
Definition noTrailingGroup (line : str) : Prop := ∀ text, ¬ trailingGroup line text.

(** The edge label of a line: the text of its trailing group when there
    is one, and otherwise unset. *)
Definition annotationOf (line : str) (o : option str) : Prop :=
  (∀ text, trailingGroup line text → o = Some text)
  ∧ (noTrailingGroup line → o = None).

(** ** What the regular expression of [edgeLabel] matches *)

(** Line feed and carriage return. *)
Definition lineBreak (c : ascii) : Prop := c = "010"%char ∨ c = "013"%char.

(** [/\((.*?)\)$/] matches after [pre], with [text] as its group: an opening
    parenthesis, [text] without a line break, a closing parenthesis, the
    end of the line. *)
Definition matchAt (line pre text : str) : Prop :=
  line = pre ++ "("%char :: text ++ [")"%char] ∧ Forall (λ d, ¬ lineBreak d) text.

(** [text] is the group of the match that [line.match] returns, the
    leftmost one. *)
Definition leftmostMatch (line text : str) : Prop :=
  ∃ pre, matchAt line pre text
         ∧ ∀ pre' text', matchAt line pre' text' → length pre ≤ length pre'.

(** The regular expression matches nowhere in the line. *)
Definition noMatchAt (line : str) : Prop := ∀ pre text, ¬ matchAt line pre text.

(** What [edgeLabelMatch] is: the group of the leftmost match, or
    [null]. *)
Definition edgeLabelRegex (line : str) (o : option str) : Prop :=
  match o with
  | Some text => leftmostMatch line text
  | None => noMatchAt line
  end.

(** A line without a carriage return or line feed that has at most one
    opening and at most one closing parenthesis. *)
Definition plainLine (line : str) : Prop :=
  Forall (λ d, ¬ lineBreak d) line
  ∧ length (filter (λ d, d = "("%char) line) ≤ 1
  ∧ length (filter (λ d, d = ")"%char) line) ≤ 1.

(** ** Labels and identifiers *)

(** White space, as [trim] and [\s] have it. *)
Definition whiteSpace (c : ascii) : Prop := JS.isWhiteSpace c = true.

(** A capital letter, A to Z. *)
Definition capital (c : ascii) : Prop := c ∈ lit "ABCDEFGHIJKLMNOPQRSTUVWXYZ".

(** No white space at either end. *)
Definition trimmed (s : str) : Prop :=
  (∀ c, head s = Some c → ¬ whiteSpace c) ∧ (∀ c, last s = Some c → ¬ whiteSpace c).


(** ** What the states of the stack-based parser satisfy *)

Section markdown_parser_invariants.
Import MarkdownParser.
Implicit Types (st : state) (h : list (cell MarkdownItem)).

(** The virtual root: [{ level: -1, content: 'Root', children: [] }]. *)
Definition rootItem : MarkdownItem := {| level := -1; content := lit "Root" |}.

(** What every state of the loop satisfies. *)
Definition inv st : Prop :=
  wf (heap st)
  ∧ (∃ ks, heap st !! root = Some (Cell rootItem ks))
  ∧ (∃ s, stack st = s ++ [root])
  ∧ Forall (λ a, a < length (heap st)) (stack st).

(** The object created for a line. *)
Definition nodeOf (line : str) : MarkdownItem :=
  {| level := lineLevel line; content := lineContent line |}.

(** The [level] of the object at address [a]. *)
Definition levelAt h (a : nat) : option Z := (λ c, level (payload c)) <$> h !! a.

(** The state a step leads to, as [step_spec] gives it. *)
Definition after st line (parent : nat) (rest : list nat) : state :=
  {| heap := push parent (length (heap st)) (alloc (nodeOf line) (heap st));
     stack := length (heap st) :: parent :: rest |}.

(** From the first line on, the first child of [root] is the object of
    that line. *)
Definition inv1 (l0 : str) st : Prop :=
  inv st
  ∧ (∃ ks, heap st !! root = Some (Cell rootItem (1 :: ks)))
  ∧ payload <$> heap st !! 1 = Some (nodeOf l0).

(** The object at [a] is at level [v] or deeper. *)
Definition atLeast h (v : Z) (a : nat) : Prop :=
  ∃ w, levelAt h a = Some w ∧ (v ≤ w)%Z.

(** While every line is deeper than the first one, the object of the
    first line stays on the stack and every object hangs below it. *)
Definition deep (l0 : str) st : Prop :=
  inv1 l0 st
  ∧ heap st !! root = Some (Cell rootItem [1])
  ∧ (∃ s, stack st = s ++ [1; root]
          ∧ Forall (atLeast (heap st) (lineLevel l0)) (s ++ [1]))
  ∧ (∃ T1, reify (length (heap st)) (heap st) 1 = Some T1
           ∧ S (size T1) = length (heap st)
           ∧ ∀ a, 1 ≤ a < length (heap st) → count a T1 = 1).

(** The tree below the first line's object has been closed: no object
    on the stack belongs to it. *)
Definition keep (T1 : rose (nat * MarkdownItem)) st : Prop :=
  inv st
  ∧ (∃ ks, heap st !! root = Some (Cell rootItem (1 :: ks)))
  ∧ reify (length (heap st)) (heap st) 1 = Some T1
  ∧ Forall (λ a, count a T1 = 0) (stack st)
  ∧ (∀ a, length (heap st) ≤ a → count a T1 = 0).


(** The level of the object at address [a] when the lines are [ls]: [root]
    is at address 0 and the object of the line number [i] at [i + 1]. *)
Definition levelOf (ls : list str) (a : nat) : Z :=
  match a with
  | 0 => -1
  | S i => default 0%Z (lineLevel <$> ls !! i)
  end.

(** [p] is the nearest address before [b] with a level below that of [b]. *)
Definition nearestBelow (ls : list str) (p b : nat) : Prop :=
  p < b
  ∧ (levelOf ls p < levelOf ls b)%Z
  ∧ ∀ q, p < q < b → (levelOf ls b ≤ levelOf ls q)%Z.

(** Every entry of the stack but the bottom one has the entry below it as
    its nearest address with a smaller level. *)
Fixpoint chained (ls : list str) (stack : list nat) : Prop :=
  match stack with
  | a :: rest => match rest with
                 | b :: _ => nearestBelow ls b a ∧ chained ls rest
                 | [] => True
                 end
  | [] => True
  end.

(** Once the lines [pre] of [ls] have gone through the loop: the objects
    are [root] and those of [pre], the tree below [root] holds them in the
    order of their addresses, the stack is its last branch, and every
    object is a child of the nearest one before it with a smaller
    level. *)
Definition folded (ls pre : list str) st : Prop :=
  inv st
  ∧ payload <$> heap st = rootItem :: (nodeOf <$> pre)
  ∧ head (stack st) = Some (length pre)
  ∧ chained ls (stack st)
  ∧ (∀ p c b, heap st !! p = Some c → b ∈ kids c → nearestBelow ls p b)
  ∧ ∃ T0, reify (length (heap st)) (heap st) root = Some T0
          ∧ addrs T0 = seq 0 (length (heap st))
          ∧ spine T0 = reverse (stack st).

(** The lines that follow a line of level [v], up to the first one that is
    at most as deep. *)
Fixpoint below (v : Z) (rest : list str) : list str :=
  match rest with
  | l :: rest' =>
      if bool_decide (v < lineLevel l)%Z then l :: below v rest' else []
  | [] => []
  end.

End markdown_parser_invariants.

(** ** What the states of the application's parser satisfy *)

Section app_invariants.
Import App.
Implicit Types (st : state) (h : list (cell NodeDataItem))
  (counts : gmap str nat).

(** [label.toLowerCase().replace(/\s+/g, '-')] *)
Definition slug (label : str) : str := JS.hyphenate false (JS.toLowerCase label).

(** The object created for a heading line, given its [yPosition]. *)
Definition entry (line : str) (yPos : num) : NodeDataItem :=
  {| id := slug (parseLine line).1.1;
     label := (parseLine line).1.1;
     color := (parseLine line).1.2;
     edgeLabel := (parseLine line).2;
     position := {| x := (Z.of_nat (JS.headingLevel line) * xSpacing)%Z;
                    y := yPos |} |}.

(** The [yPosition] of the child with index [i] of a parent at [py]. *)
Definition yrel (py : num) (i : nat) : num :=
  if decide (i = 0) then numSub py (Fin ySpacing)
  else numAdd py (Fin (Z.of_nat i * ySpacing)).

(** What every state of the second pass satisfies: the references held by
    [lastNodeAtLevel] and [root] are objects of the store. *)
Definition ainv st : Prop :=
  wf (heap st)
  ∧ (∀ L a, lastNodeAtLevel st !! L = Some a → a < length (heap st))
  ∧ (∀ a, root st = Some a → a < length (heap st)).

(** The four ways a line is handled. *)
Inductive handled counts st (line : str) : state → Prop :=
| Skipped :
    JS.headingLevel line = 0 →
    handled counts st line st
| NewRoot :
    JS.headingLevel line = 1 →
    handled counts st line
      {| heap := alloc (entry line (Fin (ySpacing * 2))) (heap st);
         root := Some (length (heap st));
         lastNodeAtLevel := <[1 := length (heap st)]> (lastNodeAtLevel st) |}
| Orphan :
    2 ≤ JS.headingLevel line →
    lastNodeAtLevel st !! (JS.headingLevel line - 1) = None →
    handled counts st line
      {| heap := alloc (entry line NaN) (heap st);
         root := root st;
         lastNodeAtLevel :=
           <[JS.headingLevel line := length (heap st)]> (lastNodeAtLevel st) |}
| Child p c :
    2 ≤ JS.headingLevel line →
    lastNodeAtLevel st !! (JS.headingLevel line - 1) = Some p →
    heap st !! p = Some c →
    handled counts st line
      {| heap := push p (length (heap st))
                   (alloc (entry line (yrel (y (position (payload c)))
                                            (length (kids c))))
                          (heap st));
         root := root st;
         lastNodeAtLevel :=
           <[JS.headingLevel line := length (heap st)]> (lastNodeAtLevel st) |}.

(** The object was created for a heading line of [ls]. *)
Definition lined (ls : list str) (it : NodeDataItem) : Prop :=
  ∃ line yPos, line ∈ ls ∧ JS.headingLevel line ≠ 0 ∧ it = entry line yPos.

(** The children of an object are one [xSpacing] to its right. *)
Definition childrenRight (it : NodeDataItem) (ks : list NodeDataItem) : Prop :=
  Forall (λ k, x (position k) = (x (position it) + xSpacing)%Z) ks.

(** The child with index [i] got its [y] from the [y] of its parent. *)
Definition childrenSpread (it : NodeDataItem) (ks : list NodeDataItem) : Prop :=
  ∀ i k, ks !! i = Some k → y (position k) = yrel (y (position it)) i.

(** All three, of an object and the objects in its [children] array. *)
Definition laidOut (ls : list str) (it : NodeDataItem)
    (ks : list NodeDataItem) : Prop :=
  lined ls it ∧ childrenRight it ks ∧ childrenSpread it ks.

(** The fields of the object at address [a]. *)
Definition itemAt h (a : nat) : option NodeDataItem := payload <$> h !! a.

(** Every object is laid out; the one recorded at level [L] is at
    [x = L * xSpacing]; the one [root] refers to is at [(250, 160)]. *)
Definition rinv (ls : list str) st : Prop :=
  ainv st
  ∧ stored (laidOut ls) (heap st)
  ∧ (∀ L a, lastNodeAtLevel st !! L = Some a →
       ∃ it, itemAt (heap st) a = Some it
             ∧ x (position it) = (Z.of_nat L * xSpacing)%Z)
  ∧ (∀ a, root st = Some a →
       ∃ it, itemAt (heap st) a = Some it
             ∧ x (position it) = xSpacing ∧ y (position it) = Fin (ySpacing * 2)).

(** In a well-formed outline whose last heading is at level [m]: [root] is
    the first object, a node is recorded at every level up to [m], and the
    tree below [root] holds every object once. *)
Definition span (m : nat) st : Prop :=
  ainv st
  ∧ root st = Some 0
  ∧ 1 ≤ m
  ∧ (∀ L, 1 ≤ L ≤ m → is_Some (lastNodeAtLevel st !! L))
  ∧ ∃ T, reify (length (heap st)) (heap st) 0 = Some T
         ∧ size T = length (heap st)
         ∧ ∀ a, a < length (heap st) → count a T = 1.

(** The objects of [S] are referred to neither by [root] nor by an
    object outside [S]. *)
Definition hidden (S : nat → Prop) st : Prop :=
  ainv st
  ∧ (∀ a, root st = Some a → ¬ S a)
  ∧ (∀ a c, heap st !! a = Some c → ¬ S a → Forall (λ k, ¬ S k) (kids c))
  ∧ (∀ a, S a → a < length (heap st)).


(** The heading lines, in order. *)
Definition headings (ls : list str) : list str :=
  filter (λ l, JS.headingLevel l ≠ 0) ls.

(** The last line of heading level 1. *)
Definition lastTop (ls : list str) : option str :=
  last (filter (λ l, JS.headingLevel l = 1) ls).

(** Once the lines [pre] have gone through the second pass, [root] is the
    object of the last of them that has level 1. *)
Definition rootIs (pre : list str) st : Prop :=
  ainv st
  ∧ match lastTop pre with
    | Some l =>
        ∃ a, root st = Some a
             ∧ itemAt (heap st) a = Some (entry l (Fin (ySpacing * 2)))
    | None => root st = None
    end.

(** The objects are those of the heading lines, in their order, and the
    [children] array of each holds addresses in increasing order. *)
Definition ordered (pre : list str) st : Prop :=
  ainv st
  ∧ length (heap st) = length (headings pre)
  ∧ ∀ a c, heap st !! a = Some c →
      (∃ l yPos, headings pre !! a = Some l ∧ payload c = entry l yPos)
      ∧ StronglySorted lt (kids c).


(** The object [c] with the addresses of its children moved up by [k]. *)
Definition shifted (k : nat) (c : cell NodeDataItem) : cell NodeDataItem :=
  Cell (payload c) ((λ b, b + k) <$> kids c).

(** Two states of the second pass, the first with [k] objects more, agree
    on the objects of [G]: the one [root] refers to is among them, the
    children of an object of [G] are in [G], an object of [G] is found
    [k] addresses later in the first state, and [lastNodeAtLevel] holds it
    at the same levels in both. *)
Definition agree (k : nat) (G : gset nat) (st1 st2 : state) : Prop :=
  ainv st1 ∧ ainv st2
  ∧ length (heap st1) = length (heap st2) + k
  ∧ (∀ a, a ∈ G → a < length (heap st2))
  ∧ (∃ r, root st2 = Some r ∧ root st1 = Some (r + k) ∧ r ∈ G)
  ∧ (∀ a c, a ∈ G → heap st2 !! a = Some c →
       heap st1 !! (a + k) = Some (shifted k c) ∧ Forall (λ b, b ∈ G) (kids c))
  ∧ (∀ L a, a ∈ G →
       lastNodeAtLevel st2 !! L = Some a ↔ lastNodeAtLevel st1 !! L = Some (a + k)).

(** The store after [lastNodeAtLevel[parentLevel]], when there is one, got
    the new object [n] as a child. *)
Definition attached (parent : option nat) (n : nat)
    (h : list (cell NodeDataItem)) : list (cell NodeDataItem) :=
  match parent with
  | Some p => push p n h
  | None => h
  end.


(** The tree below [root] holds no object twice. *)
Definition once st : Prop :=
  ainv st
  ∧ ∀ r, root st = Some r →
      ∃ t, reify (length (heap st)) (heap st) r = Some t ∧ ∀ a, count a t ≤ 1.

End app_invariants.

(** ** The two parsers side by side *)

Section twin_invariants.

(** The addresses of a tree, moved by [f], without the payloads. *)
Definition bare {A : Type} (f : nat → nat) (t : rose (nat * A))
    : rose (nat * unit) :=
  rose_map (λ x, (f x.1, tt)) t.

(** The shape of a tree. *)
Definition shape {A : Type} (t : rose A) : rose unit := rose_map (λ _, tt) t.

(** Both loops after the same lines of a well-formed outline whose last
    heading is at level [m]: the application has the objects of the
    stack-based parser but [root], one address lower; the stack holds,
    above [root], one object for each level up to [m], the one that
    [lastNodeAtLevel] has for that level; the two trees have the same
    addresses in the same places. *)
Definition twin (m : nat) (stS : MarkdownParser.state) (stA : App.state)
    : Prop :=
  inv stS ∧ ainv stA
  ∧ length (MarkdownParser.heap stS) = S (length (App.heap stA))
  ∧ App.root stA = Some 0
  ∧ (∃ sp, MarkdownParser.stack stS = reverse sp ++ [MarkdownParser.root]
           ∧ length sp = m ∧ 1 ≤ m
           ∧ ∀ i a, sp !! i = Some a →
               levelAt (MarkdownParser.heap stS) a = Some (Z.of_nat (S i))
               ∧ App.lastNodeAtLevel stA !! (S i) = Some (pred a)
               ∧ 1 ≤ a)
  ∧ ∃ T1 TA,
      reify (length (MarkdownParser.heap stS)) (MarkdownParser.heap stS) 1 = Some T1
      ∧ reify (length (App.heap stA)) (App.heap stA) 0 = Some TA
      ∧ bare id T1 = bare S TA.

End twin_invariants.

(** ** The states of a call in a store that is not empty *)

(** The state [st] of a call in the empty store, as it is when the call
    runs in the store [h0]: every reference is [length h0] higher. *)
Definition relocatedS (h0 : list (cell MarkdownParser.MarkdownItem))
    (st : MarkdownParser.state) : MarkdownParser.state :=
  {| MarkdownParser.heap := relocated h0 (MarkdownParser.heap st);
     MarkdownParser.stack := (λ a, length h0 + a) <$> MarkdownParser.stack st |}.

Definition relocatedA (h0 : list (cell App.NodeDataItem))
    (st : App.state) : App.state :=
  {| App.heap := relocated h0 (App.heap st);
     App.root := (λ a, length h0 + a) <$> App.root st;
     App.lastNodeAtLevel := (λ a, length h0 + a) <$> App.lastNodeAtLevel st |}.

(** ** The component: the nodes and edges on display, and what a click changes *)

(** The two enumerations of the rendering library that the component names. *)
Module ReactFlow.

Inductive Position : Type := Left | Top | Right | Bottom.

Inductive MarkerType : Type := Arrow | ArrowClosed.

End ReactFlow.

(** [Map<string, number>]: the entries in the order of their insertion,
    which is the order in which [forEach] visits them. *)
Module JSMap.

Abbreviation t := (list (str * nat)).

Definition has (k : str) (m : t) : bool := bool_decide (k ∈ m.*1).

Fixpoint get (k : str) (m : t) : option nat :=
  match m with
  | [] => None
  | (k', v) :: m' => if decide (k' = k) then Some v else get k m'
  end.

(** The value of a key that is there is replaced in place; a new key goes
    to the end. *)
Fixpoint set (k : str) (v : nat) (m : t) : t :=
  match m with
  | [] => [(k, v)]
  | (k', v') :: m' => if decide (k' = k) then (k, v) :: m' else (k', v') :: set k v m'
  end.

Fixpoint delete (k : str) (m : t) : t :=
  match m with
  | [] => []
  | (k', v') :: m' => if decide (k' = k) then m' else (k', v') :: delete k m'
  end.

End JSMap.

(** The object literals handed to the rendering library. *)
Module Node.

Record Style : Type :=
  { backgroundColor : str; color : str; padding : str; borderRadius : str }.

Record t : Type :=
  { id : str; type : str; data_label : str; position : App.Position;
    style : Style;
    sourcePosition : ReactFlow.Position; targetPosition : ReactFlow.Position }.

End Node.

Module Edge.

Record LabelStyle : Type := { fill : str; fontSize : Z; fontWeight : Z }.

(** [fillOpacity] is the literal [0.8], a number in tenths here. *)
Record LabelBgStyle : Type := { bgFill : str; fillOpacityTenths : Z }.

Record Style : Type := { stroke : str; strokeWidth : Z }.

Record Marker : Type := { markerType : ReactFlow.MarkerType }.

Record t : Type :=
  { id : str; source : str; target : str; type : str; label : option str;
    labelStyle : LabelStyle; labelBgStyle : LabelBgStyle; style : Style;
    animated : bool; markerEnd : Marker }.

End Edge.

Module Component.

(** The outline that the application shows. *)
Definition markdownInput : str :=
  nl ++ lit "# nyc [#4169e1]" ++ nl
  ++ lit "## traditional compute [#808080] (just another cloud)" ++ nl
  ++ lit "## data & ai [#4169e1] (differentiator)" ++ nl
  ++ lit "### GenAI - MyCity [#4cd038] (went well)" ++ nl
  ++ lit "#### Microsoft [#212529] (head-to-head)" ++ nl
  ++ lit "#### CE Engagement [#FF0000] (went well)" ++ nl
  ++ lit "#### Showcasing Platform [#212529] (Demo)" ++ nl
  ++ lit "### Vision AI [#212529] (Computer Vision)" ++ nl
  ++ lit "### New Node [#212529] (Innovation)" ++ nl.

(** [findNode] inside [findNodeData]: the node itself, or else the first
    child below which the identifier is found.  [children] is always an
    array here, so [if (!node.children) return null] is never taken. *)
Fixpoint findNode (nodeId : str) (node : App.NodeDataType)
    : option App.NodeDataType :=
  match node with
  | Rose it cs =>
      if decide (App.id it = nodeId) then Some node
      else (fix scan (l : list App.NodeDataType) : option App.NodeDataType :=
              match l with
              | [] => None
              | child :: l' =>
                  match findNode nodeId child with
                  | Some found => Some found
                  | None => scan l'
                  end
              end) cs
  end.

(** [React.useMemo(() => parseMarkdown(markdownInput), [])] *)
Definition mindMapData : outcome App.NodeDataType :=
  App.parseMarkdown markdownInput.

Definition findNodeData (mindMapData : App.NodeDataType) (nodeId : str)
    : option App.NodeDataType :=
  findNode nodeId mindMapData.

Definition createNode (nodeData : App.NodeDataType) : Node.t :=
  {| Node.id := App.id (item nodeData);
     Node.type := lit "default";
     Node.data_label := App.label (item nodeData);
     Node.position := App.position (item nodeData);
     Node.style :=
       {| Node.backgroundColor := App.color (item nodeData);
          Node.color := lit "white";
          Node.padding := lit "10px 20px";
          Node.borderRadius := lit "25px" |};
     Node.sourcePosition := ReactFlow.Right;
     Node.targetPosition := ReactFlow.Left |}.

(** The function passed to [setExpandedNodes] by [onNodeClick], applied to
    [prev]; when the handler returns before it, the state stays [prev]. *)
Definition onNodeClick (mindMapData : App.NodeDataType) (nodeId : str)
    (prev : JSMap.t) : JSMap.t :=
  match findNodeData mindMapData nodeId with
  | None => prev
  | Some currentNode =>
      if decide (length (children currentNode) = 0) then prev
      else if JSMap.has nodeId prev then
        let currentLevel := default 0 (JSMap.get nodeId prev) in
        if currentLevel <? length (children currentNode) - 1
        then JSMap.set nodeId (currentLevel + 1) prev
        else JSMap.delete nodeId prev
      else JSMap.set nodeId 0 prev
  end.

(** The first element of [newNodes] in the effect (and the initial state
    of the nodes). *)
Definition rootNode (mindMapData : App.NodeDataType) : Node.t :=
  {| Node.id := App.id (item mindMapData);
     Node.type := lit "default";
     Node.data_label := App.label (item mindMapData);
     Node.position := App.position (item mindMapData);
     Node.style :=
       {| Node.backgroundColor := App.color (item mindMapData);
          Node.color := lit "white";
          Node.padding := lit "10px 20px";
          Node.borderRadius := lit "25px" |};
     Node.sourcePosition := ReactFlow.Right;
     Node.targetPosition := ReactFlow.Left |}.

(** The edge pushed for [child] below the expanded node [nodeId]. *)
Definition edgeTo (nodeId : str) (child : App.NodeDataType) : Edge.t :=
  {| Edge.id := nodeId ++ lit "-" ++ App.id (item child);
     Edge.source := nodeId;
     Edge.target := App.id (item child);
     Edge.type := lit "bezier";
     Edge.label := App.edgeLabel (item child);
     Edge.labelStyle :=
       {| Edge.fill := lit "#888"; Edge.fontSize := 12; Edge.fontWeight := 500 |};
     Edge.labelBgStyle := {| Edge.bgFill := lit "#fff"; Edge.fillOpacityTenths := 8 |};
     Edge.style := {| Edge.stroke := lit "#dee2e6"; Edge.strokeWidth := 2 |};
     Edge.animated := false;
     Edge.markerEnd := {| Edge.markerType := ReactFlow.Arrow |} |}.

(** The body of [expandedNodes.forEach] in the effect: the loop
    [for (i = 0; i <= level && i < children.length; i++)] visits the first
    [level + 1] children. *)
Definition expand (mindMapData : App.NodeDataType)
    (acc : list Node.t * list Edge.t) (entry : str * nat)
    : list Node.t * list Edge.t :=
  let '(nodeId, level) := entry in
  match findNodeData mindMapData nodeId with
  | Some currentNode =>
      foldl (λ acc child, (acc.1 ++ [createNode child],
                           acc.2 ++ [edgeTo nodeId child]))
            acc (take (S level) (children currentNode))
  | None => acc
  end.

(** The effect: the arguments of [setNodes] and [setEdges]. *)
Definition display (mindMapData : App.NodeDataType) (expandedNodes : JSMap.t)
    : list Node.t * list Edge.t :=
  foldl (expand mindMapData) ([rootNode mindMapData], []) expandedNodes.

End Component.

(** What the component keeps true of [expandedNodes]: the keys are distinct
    (it is a [Map]), every key is the identifier of a node that is found
    and has children, and its level is the index of one of them. *)
Definition okMap (mindMapData : App.NodeDataType) (m : JSMap.t) : Prop :=
  NoDup m.*1
  ∧ Forall (λ e, ∃ n, Component.findNode e.1 mindMapData = Some n
                      ∧ e.2 < length (children n)) m.

(** The state of [expandedNodes] after clicks on the nodes [ids], from the
    initial empty map. *)
Definition clicks (mindMapData : App.NodeDataType) (ids : list str) : JSMap.t :=
  foldl (λ m nodeId, Component.onNodeClick mindMapData nodeId m) [] ids.

(** The children on display: for every expanded node that is found, in the
    order of the map, its first [level + 1] children. *)
Definition shown (mindMapData : App.NodeDataType) (m : JSMap.t)
    : list (str * App.NodeDataType) :=
  m ≫= λ e, match Component.findNode e.1 mindMapData with
            | Some n => (λ child, (e.1, child)) <$> take (S e.2) (children n)
            | None => []
            end.

(** * Facts *)

(** A decidable fact about given characters or numbers. *)
Ltac by_computation := apply (bool_decide_unpack _); by vm_compute.

Global Arguments size {A} t : simpl never.
Global Arguments count {A} a t : simpl never.
Global Arguments addrs {A} t : simpl never.

(** ** Trees *)

Section rose_facts.
Context {A B : Type}.
Implicit Types (t : rose A) (f : A → B).

Lemma nodes_unfold x (ts : list (rose A)) :
  nodes (Rose x ts) = Rose x ts :: (ts ≫= nodes).
Proof. done. Qed.

Lemma size_unfold x (ts : list (rose A)) :
  size (Rose x ts) = S (sum_list_with size ts).
Proof.
  unfold size at 1. rewrite nodes_unfold. simpl. f_equal.
  induction ts as [|t' ts IH]; [done|].
  rewrite bind_cons, length_app, IH. done.
Qed.

Lemma nodes_self t : t ∈ nodes t.
Proof. destruct t. rewrite nodes_unfold. left. Qed.

Lemma nodes_child t t' n : t' ∈ children t → n ∈ nodes t' → n ∈ nodes t.
Proof.
  destruct t as [x ts]; simpl; intros Hin Hn.
  right. apply list_elem_of_bind. eauto.
Qed.

Lemma rose_map_item f t : item (rose_map f t) = f (item t).
Proof. by destruct t. Qed.

Lemma rose_map_children f t :
  children (rose_map f t) = rose_map f <$> children t.
Proof. by destruct t. Qed.

Lemma nodes_rose_map f t : nodes (rose_map f t) = rose_map f <$> nodes t.
Proof.
  induction t as [x ts IH] using rose_ind'; simpl. f_equal.
  induction IH as [|t' ts' Ht' _ IHts]; [done|].
  rewrite fmap_cons, !bind_cons, fmap_app. by rewrite Ht', IHts.
Qed.

Lemma size_rose_map f t : size (rose_map f t) = size t.
Proof. unfold size. by rewrite nodes_rose_map, length_fmap. Qed.

Lemma everywhere_rose_map (Q : B → list B → Prop) f t :
  everywhere (λ x xs, Q (f x) (f <$> xs)) t → everywhere Q (rose_map f t).
Proof.
  unfold everywhere. rewrite nodes_rose_map, Forall_fmap.
  intros H. eapply Forall_impl; [exact H|]. intros n Hn; simpl in *.
  rewrite rose_map_item, rose_map_children, <- list_fmap_compose.
  rewrite <- list_fmap_compose in Hn.
  erewrite list_fmap_ext; [exact Hn|]. intros ? r _; simpl. apply rose_map_item.
Qed.

Lemma everywhere_child (Q : A → list A → Prop) t t' :
  everywhere Q t → t' ∈ children t → everywhere Q t'.
Proof.
  unfold everywhere. rewrite !Forall_forall. intros H Hin n Hn.
  apply H. eapply nodes_child; eauto.
Qed.

Lemma everywhere_root (Q : A → list A → Prop) t :
  everywhere Q t → Q (item t) (item <$> children t).
Proof.
  unfold everywhere. rewrite Forall_forall. intros H. apply H, nodes_self.
Qed.

Lemma everywhere_impl (Q1 Q2 : A → list A → Prop) t :
  (∀ it ks, Q1 it ks → Q2 it ks) → everywhere Q1 t → everywhere Q2 t.
Proof.
  intros HQ Hev. unfold everywhere in *. eapply Forall_impl; [exact Hev|].
  intros n. apply HQ.
Qed.

Lemma walk_unfold d x (ts : list (rose A)) :
  walk d (Rose x ts) = (d, Rose x ts) :: (ts ≫= walk (S d)).
Proof. done. Qed.

(** When a coordinate grows by [c] along every edge, it is the root's plus
    [c] times the depth. *)
Lemma walk_affine (fx : A → Z) (c : Z) t d0 d n :
  everywhere (λ it ks, Forall (λ k, fx k = (fx it + c)%Z) ks) t →
  (d, n) ∈ walk d0 t →
  d0 ≤ d ∧ fx (item n) = (fx (item t) + (Z.of_nat d - Z.of_nat d0) * c)%Z.
Proof.
  revert d0. induction t as [x ts IH] using rose_ind'. intros d0 Hev.
  rewrite walk_unfold, elem_of_cons, list_elem_of_bind.
  intros [[= -> ->]|(t'&Hn&Ht')].
  - split; [done|]. simpl. lia.
  - rewrite Forall_forall in IH.
    destruct (IH t' Ht' (S d0)) as [Hd Hfx]; [|done|].
    { eapply everywhere_child; [exact Hev|done]. }
    apply everywhere_root in Hev. simpl in Hev. rewrite Forall_fmap in Hev.
    rewrite Forall_forall in Hev. specialize (Hev t' Ht'). simpl in Hev.
    split; [lia|]. rewrite Hfx, Hev. simpl. nia.
Qed.

Lemma elem_of_mapFrom {C} (g : A → nat → C) k (l : list A) y :
  y ∈ mapFrom g k l → ∃ a i, a ∈ l ∧ y = g a i.
Proof.
  revert k. induction l as [|a l IH]; intros k; simpl; [by intros ?%elem_of_nil|].
  intros [->|Hy]%elem_of_cons.
  - exists a, k. split; [left|done].
  - destruct (IH _ Hy) as (a'&i&Ha'&->). exists a', i. split; [by right|done].
Qed.

Lemma fmap_mapFrom {C D} (g : A → nat → C) (e : C → D) k (l : list A) :
  e <$> mapFrom g k l = mapFrom (λ a i, e (g a i)) k l.
Proof. revert k. induction l as [|a l IH]; intros k; simpl; [done|]. by rewrite IH. Qed.

Lemma mapFrom_index {C} (e : nat → C) k (l : list A) :
  mapFrom (λ _ i, e i) k l = e <$> seq k (length l).
Proof. revert k. induction l as [|a l IH]; intros k; simpl; [done|]. by rewrite IH. Qed.




Lemma rose_map_compose {C : Type} (f : A → B) (g : B → C) t :
  rose_map g (rose_map f t) = rose_map (g ∘ f) t.
Proof.
  induction t as [x ts IH] using rose_ind'. simpl. f_equal.
  rewrite <- list_fmap_compose.
  induction IH as [|t' ts' Ht' _ IHts]; [done|].
  rewrite !fmap_cons. f_equal; [exact Ht'|exact IHts].
Qed.

End rose_facts.

(** ** The store *)

Section store_facts.
Context {A : Type}.
Implicit Types (h : list (cell A)) (a p : nat) (t : rose (nat * A)).

Lemma reify_Some b h a t :
  reify b h a = Some t ↔
  ∃ b' c ts, b = S b' ∧ h !! a = Some c
    ∧ Forall2 (λ k tk, reify b' h k = Some tk) (kids c) ts
    ∧ t = Rose (a, payload c) ts.
Proof.
  destruct b as [|b']; simpl.
  - split; [done|]. by intros (?&?&?&?&_).
  - split.
    + intros H. destruct (h !! a) as [c|] eqn:Hc; simpl in H; [|done].
      destruct (mapM (reify b' h) (kids c)) as [ts|] eqn:Hts; simpl in H; [|done].
      injection H as <-. apply mapM_Some in Hts. eauto 10.
    + intros (b''&c&ts&[= <-]&Hc&Hts&->). rewrite Hc; simpl.
      apply mapM_Some in Hts. by rewrite Hts.
Qed.

(** A larger budget reads back the same tree. *)
Lemma reify_mono b b' h a t :
  reify b h a = Some t → b ≤ b' → reify b' h a = Some t.
Proof.
  revert b' a t. induction b as [|b IH]; intros b' a t.
  - intros [=].
  - intros (b0&c&ts&[= <-]&Hc&Hts&->)%reify_Some Hle.
    destruct b' as [|b']; [lia|]. apply reify_Some.
    exists b', c, ts. split_and!; try done.
    eapply Forall2_impl; [exact Hts|]. intros k tk Hk. apply IH; [done|lia].
Qed.

(** In a well-formed store the budget [length h] is never exhausted. *)
Lemma reify_total_from h : wf h →
  ∀ b a, a < length h → length h - a ≤ b → is_Some (reify b h a).
Proof.
  intros Hwf b. induction b as [|b IH]; intros a Ha Hb; [lia|].
  destruct (lookup_lt_is_Some_2 h a Ha) as [c Hc]. simpl. rewrite Hc; simpl.
  destruct (mapM_is_Some_2 (reify b h) (kids c)) as [ts Hts].
  - eapply Forall_impl; [exact (Hwf a c Hc)|].
    intros k [Hk1 Hk2]; simpl. apply IH; lia.
  - rewrite Hts. by eexists.
Qed.

Lemma reify_total h a : wf h → a < length h → is_Some (reify (length h) h a).
Proof. intros Hwf Ha. apply reify_total_from; [done..|lia]. Qed.

Lemma readBack_Ok h a t : readBack h a = Ok t ↔ reify (length h) h a = Some t.
Proof.
  unfold readBack. destruct (reify _ _ _); simpl; split; congruence.
Qed.

Lemma reify_root b h a t :
  reify b h a = Some t → ∃ c, h !! a = Some c ∧ item t = (a, payload c).
Proof. intros (?&c&?&_&Hc&_&->)%reify_Some. eauto. Qed.

(** Every address in the tree is one of the store. *)
Lemma reify_addrs b h a t :
  reify b h a = Some t → Forall (λ k, k < length h) (addrs t).
Proof.
  revert a t. induction b as [|b IH]; intros a t.
  - intros [=].
  - intros (b0&c&ts&[= <-]&Hc&Hts&->)%reify_Some.
    unfold addrs. rewrite nodes_unfold, fmap_cons. constructor.
    + simpl. by eapply lookup_lt_Some.
    + clear Hc. induction Hts as [|k tk ks ts' Hk _ IHts]; [constructor|].
      rewrite bind_cons, fmap_app. apply Forall_app. split; [|done].
      by eapply IH.
Qed.

(** *** Allocation *)

Lemma length_alloc x h : length (alloc x h) = S (length h).
Proof. unfold alloc. rewrite length_app; simpl; lia. Qed.

Lemma lookup_alloc_lt x h a : a < length h → alloc x h !! a = h !! a.
Proof. intros. unfold alloc. by rewrite lookup_app_l. Qed.

Lemma lookup_alloc_eq x h : alloc x h !! length h = Some (Cell x []).
Proof. unfold alloc. by rewrite lookup_app_r, Nat.sub_diag. Qed.

Lemma wf_alloc x h : wf h → wf (alloc x h).
Proof.
  intros Hwf a c. unfold alloc. rewrite length_app; simpl.
  intros [Ha|[Ha Hc]]%lookup_app_Some.
  - eapply Forall_impl; [exact (Hwf a c Ha)|]. simpl; lia.
  - destruct (a - length h); [|done]. injection Hc as <-. constructor.
Qed.

Lemma reify_alloc x h b a :
  wf h → a < length h → reify b (alloc x h) a = reify b h a.
Proof.
  intros Hwf. revert a. induction b as [|b IH]; intros a Ha; [done|].
  simpl. rewrite lookup_alloc_lt by done.
  destruct (h !! a) as [c|] eqn:Hc; [simpl|done].
  erewrite Forall_mapM_ext; [done|].
  eapply Forall_impl; [exact (Hwf a c Hc)|]. intros k [_ Hk]; simpl. by apply IH.
Qed.

Lemma reify_fresh x h b :
  reify (S b) (alloc x h) (length h) = Some (Rose (length h, x) []).
Proof.
  simpl. by rewrite lookup_alloc_eq.
Qed.

(** *** Attaching a fresh object to a parent *)

Lemma length_push p n h : length (push p n h) = length h.
Proof. apply length_alter. Qed.

Lemma wf_push p n h : wf h → p < n < length h → wf (push p n h).
Proof.
  intros Hwf Hp a c. unfold push. rewrite length_alter, list_lookup_alter.
  destruct (decide (p = a)) as [<-|Hne].
  - destruct (h !! p) as [c0|] eqn:Hc0; [|done]. intros [= <-]. simpl.
    apply Forall_app. split; [by apply Hwf|]. repeat constructor; lia.
  - apply Hwf.
Qed.

Lemma reify_attach x h p b a t :
  p < length h → reify b h a = Some t →
  reify (S b) (push p (length h) (alloc x h)) a
  = Some (graft p (Rose (length h, x) []) t).
Proof.
  intros Hp. set (n := length h). set (h' := push p n (alloc x h)).
  assert (Hn : ∀ b0, reify (S b0) h' n = Some (Rose (n, x) [])).
  { intros b0. simpl. unfold h', push.
    rewrite list_lookup_alter_ne by lia.
    subst n. by rewrite lookup_alloc_eq. }
  revert a t. induction b as [|b IH]; intros a t.
  - intros [=].
  - intros (b0&c&ts&[= <-]&Hc&Hts&->)%reify_Some.
    assert (Hkids : Forall2 (λ k tk, reify (S b) h' k = Some tk)
                      (kids c) (graft p (Rose (n, x) []) <$> ts)).
    { apply Forall2_fmap_r. eapply Forall2_impl; [exact Hts|]. apply IH. }
    assert (Ha : a < length h) by by eapply lookup_lt_Some.
    apply reify_Some. simpl.
    destruct (decide (a = p)) as [->|Hne].
    + exists (S b), (adopt n c), ((graft p (Rose (n, x) []) <$> ts) ++ [Rose (n, x) []]).
      split_and!; [done| | |done].
      * unfold h', push.
        rewrite list_lookup_alter_eq, lookup_alloc_lt, Hc by done. done.
      * simpl. apply Forall2_app; [done|]. repeat constructor. apply Hn.
    + exists (S b), c, (graft p (Rose (n, x) []) <$> ts).
      split_and!; [done| |done|by rewrite app_nil_r].
      unfold h', push.
      rewrite list_lookup_alter_ne, lookup_alloc_lt by done. done.
Qed.

(** *** Occurrences of an address *)

Lemma addrs_unfold (x : nat * A) (ts : list (rose (nat * A))) :
  addrs (Rose x ts) = x.1 :: (ts ≫= addrs).
Proof.
  unfold addrs. rewrite nodes_unfold, fmap_cons. simpl. f_equal.
  induction ts as [|t' ts IH]; [done|].
  by rewrite !bind_cons, fmap_app, IH.
Qed.

Lemma size_addrs t : size t = length (addrs t).
Proof. unfold size, addrs. by rewrite length_fmap. Qed.

Lemma count_unfold a (x : nat * A) (ts : list (rose (nat * A))) :
  count a (Rose x ts)
  = (if decide (a = x.1) then 1 else 0) + sum_list_with (count a) ts.
Proof.
  unfold count at 1. rewrite addrs_unfold, filter_cons.
  assert (length (filter (a =.) (ts ≫= addrs)) = sum_list_with (count a) ts)
    as Hsum.
  { induction ts as [|t' ts IH]; [done|].
    rewrite bind_cons, filter_app, length_app, IH. done. }
  destruct (decide (a = x.1)); simpl; rewrite Hsum; done.
Qed.

Lemma count_absent a t : a ∉ addrs t → count a t = 0.
Proof.
  unfold count. induction (addrs t) as [|k l IH]; [done|].
  intros Hk. rewrite not_elem_of_cons in Hk. destruct Hk as [Hne Hk].
  rewrite filter_cons. destruct (decide (a = k)); [done|]. by apply IH.
Qed.

Lemma count_outside b h r t a :
  reify b h r = Some t → length h ≤ a → count a t = 0.
Proof.
  intros Ht Ha. apply count_absent. intros Hin.
  apply reify_addrs in Ht. rewrite Forall_forall in Ht.
  specialize (Ht a Hin). lia.
Qed.

(** Below [r] only later addresses occur. *)
Lemma reify_addrs_ge b h r t :
  wf h → reify b h r = Some t → Forall (λ k, r ≤ k) (addrs t).
Proof.
  intros Hwf. revert r t. induction b as [|b IH]; intros r t.
  - intros [=].
  - intros (b0&c&ts&[= <-]&Hc&Hts&->)%reify_Some.
    rewrite addrs_unfold. constructor; [done|].
    pose proof (Hwf r c Hc) as Hk. clear Hc.
    induction Hts as [|k tk ks ts' Hk' _ IHts]; [constructor|].
    apply Forall_cons in Hk as [[Hk1 _] Hk2].
    rewrite bind_cons. apply Forall_app. split; [|by apply IHts].
    eapply Forall_impl; [by eapply IH|]. simpl; lia.
Qed.

Lemma count_before b h r t a :
  wf h → reify b h r = Some t → a < r → count a t = 0.
Proof.
  intros Hwf Ht Ha. apply count_absent. intros Hin.
  eapply reify_addrs_ge in Ht; [|done]. rewrite Forall_forall in Ht.
  specialize (Ht a Hin). lia.
Qed.

(** *** Grafting a leaf *)

Lemma graft_unfold p l (x : nat * A) (ts : list (rose (nat * A))) :
  graft p l (Rose x ts)
  = Rose x ((graft p l <$> ts) ++ (if decide (x.1 = p) then [l] else [])).
Proof. done. Qed.

Lemma graft_absent p l t : count p t = 0 → graft p l t = t.
Proof.
  induction t as [x ts IH] using rose_ind'. rewrite count_unfold. intros Hc.
  simpl. destruct (decide (x.1 = p)) as [<-|Hne].
  { destruct (decide (x.1 = x.1)); [lia|done]. }
  rewrite app_nil_r. f_equal.
  assert (sum_list_with (count p) ts = 0) as Hsum by lia. clear Hc.
  induction IH as [|t' ts' Ht' _ IHts]; [done|].
  simpl in Hsum. rewrite fmap_cons, Ht', IHts by lia. done.
Qed.

Lemma count_graft a p n (x : A) t :
  count a (graft p (Rose (n, x) []) t)
  = count a t + (if decide (a = n) then count p t else 0).
Proof.
  induction t as [y ts IH] using rose_ind'. simpl.
  rewrite !count_unfold, sum_list_with_app.
  assert (sum_list_with (count a) (graft p (Rose (n, x) []) <$> ts)
          = sum_list_with (count a) ts
            + (if decide (a = n) then sum_list_with (count p) ts else 0))
    as ->.
  { induction IH as [|t' ts' Ht' _ IHts]; [by destruct (decide (a = n))|].
    rewrite fmap_cons. simpl. rewrite Ht', IHts.
    destruct (decide (a = n)); lia. }
  destruct (decide (y.1 = p)) as [->|Hne]; simpl.
  - rewrite count_unfold. simpl.
    destruct (decide (p = p)); [|done].
    destruct (decide (a = n)); simpl; lia.
  - destruct (decide (p = y.1)); [congruence|].
    destruct (decide (a = n)); simpl; lia.
Qed.

Lemma size_graft p n (x : A) t :
  size (graft p (Rose (n, x) []) t) = size t + count p t.
Proof.
  induction t as [y ts IH] using rose_ind'. rewrite graft_unfold.
  rewrite !size_unfold, count_unfold, sum_list_with_app.
  assert (sum_list_with size (graft p (Rose (n, x) []) <$> ts)
          = sum_list_with size ts + sum_list_with (count p) ts) as ->.
  { induction IH as [|t' ts' Ht' _ IHts]; [done|].
    rewrite fmap_cons. simpl. rewrite Ht', IHts. lia. }
  destruct (decide (y.1 = p)) as [->|Hne]; simpl.
  - destruct (decide (p = p)); [|done]. lia.
  - destruct (decide (p = y.1)); [congruence|]. lia.
Qed.

(** *** Properties kept by every stored object *)

Lemma payload_push p n h k : payload <$> push p n h !! k = payload <$> h !! k.
Proof.
  unfold push. rewrite list_lookup_alter.
  destruct (decide (p = k)) as [->|]; [|done]. by destruct (h !! k).
Qed.

Lemma stored_alloc Q x h : wf h → stored Q h → Q x [] → stored Q (alloc x h).
Proof.
  intros Hwf HQ Hx a c Hc. destruct (decide (a < length h)) as [Ha|Ha].
  - rewrite lookup_alloc_lt in Hc by done.
    destruct (HQ a c Hc) as (xs&Hxs&Hq). exists xs. split; [|done].
    pose proof (Hwf a c Hc) as Hk. clear Hc Hq.
    induction Hxs as [|k y ks ys Hy _ IH]; [constructor|].
    apply Forall_cons in Hk as [[_ ?] ?].
    constructor; [|by apply IH]. by rewrite lookup_alloc_lt.
  - assert (a = length h) as ->.
    { apply lookup_lt_Some in Hc. rewrite length_alloc in Hc. lia. }
    rewrite lookup_alloc_eq in Hc. injection Hc as <-.
    exists []. split; [constructor|done].
Qed.

Lemma stored_attach Q x h p :
  wf h → stored Q h → p < length h → Q x [] →
  (∀ c xs, h !! p = Some c →
     Forall2 (λ k y, payload <$> h !! k = Some y) (kids c) xs →
     Q (payload c) xs → Q (payload c) (xs ++ [x])) →
  stored Q (push p (length h) (alloc x h)).
Proof.
  intros Hwf HQ Hp Hx Hext a c Hc.
  assert (Hold : ∀ c0 xs, h !! a = Some c0 →
            Forall2 (λ k y, payload <$> h !! k = Some y) (kids c0) xs →
            Forall2 (λ k y, payload <$> push p (length h) (alloc x h) !! k = Some y)
              (kids c0) xs).
  { intros c0 xs Hc0 Hxs. pose proof (Hwf a c0 Hc0) as Hk. clear Hc0.
    induction Hxs as [|k y ks ys Hy _ IH]; [constructor|].
    apply Forall_cons in Hk as [[_ ?] ?].
    constructor; [|by apply IH]. by rewrite payload_push, lookup_alloc_lt. }
  unfold push in Hc. rewrite list_lookup_alter in Hc.
  destruct (decide (p = a)) as [<-|Hne].
  - rewrite lookup_alloc_lt in Hc by done.
    destruct (h !! p) as [c0|] eqn:Hc0; [|done]. injection Hc as <-.
    destruct (HQ p c0 Hc0) as (xs&Hxs&Hq).
    exists (xs ++ [x]). split; [|exact (Hext c0 xs eq_refl Hxs Hq)].
    simpl. apply Forall2_app; [by apply Hold|]. repeat constructor.
    by rewrite payload_push, lookup_alloc_eq.
  - destruct (decide (a < length h)) as [Ha|Ha].
    + rewrite lookup_alloc_lt in Hc by done.
      destruct (HQ a c Hc) as (xs&Hxs&Hq). exists xs. split; [|done].
      by eapply Hold.
    + assert (a = length h) as ->.
      { apply lookup_lt_Some in Hc. rewrite length_alloc in Hc. lia. }
      rewrite lookup_alloc_eq in Hc. injection Hc as <-.
      exists []. split; [constructor|done].
Qed.

Lemma reify_everywhere Q b h a t :
  stored Q h → reify b h a = Some t →
  everywhere (λ y ys, Q y.2 (snd <$> ys)) t.
Proof.
  intros HQ. revert a t. induction b as [|b IH]; intros a t.
  - intros [=].
  - intros (b0&c&ts&[= <-]&Hc&Hts&->)%reify_Some.
    unfold everywhere. rewrite nodes_unfold. constructor.
    + simpl. destruct (HQ a c Hc) as (xs&Hxs&Hq).
      replace (snd <$> (item <$> ts)) with xs; [done|].
      clear Hc Hq. revert xs Hxs.
      induction Hts as [|k tk ks ts' Hk _ IHts]; intros xs Hxs.
      * by inversion Hxs.
      * inversion Hxs as [|? y ? ys Hy Hys]; subst.
        apply reify_root in Hk as (ck&Hck&Hitem).
        rewrite Hck in Hy. injection Hy as <-.
        rewrite !fmap_cons, Hitem. simpl. f_equal. by apply IHts.
    + apply Forall_bind. clear Hc.
      induction Hts as [|k tk ks ts' Hk _ IHts]; constructor; [|done].
      by eapply IH.
Qed.

(** *** Objects out of reach *)

(** No [children] array outside [S] holds an address of [S]: a tree that
    starts outside [S] stays outside. *)
Lemma reify_avoids (S : nat → Prop) b h r t :
  (∀ a c, h !! a = Some c → ¬ S a → Forall (λ k, ¬ S k) (kids c)) →
  ¬ S r → reify b h r = Some t → Forall (λ a, ¬ S a) (addrs t).
Proof.
  intros Hout. revert r t. induction b as [|b IH]; intros r t Hr.
  - intros [=].
  - intros (b0&c&ts&[= <-]&Hc&Hts&->)%reify_Some.
    rewrite addrs_unfold. constructor; [done|].
    pose proof (Hout r c Hc Hr) as Hk. clear Hc.
    induction Hts as [|k tk ks ts' Hk' _ IHts]; [constructor|].
    apply Forall_cons in Hk as [Hk1 Hk2].
    rewrite bind_cons. apply Forall_app. split; [|by apply IHts].
    by eapply IH.
Qed.


(** *** The objects behind the nodes *)

Lemma reify_cells b h a t :
  reify b h a = Some t →
  Forall (λ n, ∃ c, h !! (item n).1 = Some c
                    ∧ (item n).2 = payload c
                    ∧ (λ k, (item k).1) <$> children n = kids c) (nodes t).
Proof.
  revert a t. induction b as [|b IH]; intros a t Ht; [done|].
  apply reify_Some in Ht as (b'&c&ts&[= <-]&Hc&Hts&->).
  rewrite nodes_unfold. constructor.
  - exists c. split_and!; [done..|]. cbn [children].
    clear Hc. induction Hts as [|k tk ks ts Hk _ IHts]; [done|].
    rewrite fmap_cons, IHts. f_equal.
    by apply reify_root in Hk as (?&_&->).
  - apply Forall_bind. clear Hc.
    induction Hts as [|k tk ks ts Hk _ IHts]; constructor; [|done].
    by eapply IH.
Qed.


(** *** The last branch *)

Lemma spine_unfold (x : nat * A) (ts : list (rose (nat * A))) :
  spine (Rose x ts) = x.1 :: from_option spine [] (last ts).
Proof.
  cbn [spine]. f_equal. induction ts as [|c [|c' ts] IH]; [done..|].
  rewrite IH. done.
Qed.

Lemma count_present a t : a ∈ addrs t → count a t ≠ 0.
Proof.
  intros Ha. unfold count.
  assert (a ∈ filter (a =.) (addrs t)) as Hin by by apply list_elem_of_filter.
  destruct (filter _ _); [by apply elem_of_nil in Hin|done].
Qed.

Lemma spine_addrs t a : a ∈ spine t → a ∈ addrs t.
Proof.
  induction t as [x ts IH] using rose_ind'.
  rewrite spine_unfold, addrs_unfold.
  intros [->|Ha]%elem_of_cons; [left|right].
  destruct (last ts) as [c|] eqn:Hlast; [|by apply elem_of_nil in Ha].
  apply last_Some in Hlast as [ts' ->].
  apply Forall_app in IH as [_ [Hc _]%Forall_cons].
  rewrite bind_app, bind_singleton. apply elem_of_app. right. by apply Hc.
Qed.

Lemma count_seq t n a : addrs t = seq 0 n → a < n → count a t = 1.
Proof.
  unfold count. intros -> Ha. induction n as [|n IH]; [lia|].
  rewrite seq_S, filter_app, length_app, filter_cons, filter_nil. simpl.
  destruct (decide (a = n)) as [->|Hne].
  - destruct (filter (n =.) (seq 0 n)) as [|k l] eqn:Hf; [done|].
    assert (k ∈ filter (n =.) (seq 0 n)) as Hk by (rewrite Hf; left).
    apply list_elem_of_filter in Hk as [<- Hk%elem_of_seq]. lia.
  - rewrite IH by lia. done.
Qed.

(** A leaf hung below a node of the last branch comes last among the
    nodes, and ends the last branch. *)
Lemma graft_spine p n (x : A) t pre post :
  count p t = 1 → spine t = pre ++ p :: post →
  addrs (graft p (Rose (n, x) []) t) = addrs t ++ [n]
  ∧ spine (graft p (Rose (n, x) []) t) = pre ++ [p; n].
Proof.
  revert pre. induction t as [[a y] ts IH] using rose_ind'.
  intros pre Hcount Hspine.
  rewrite count_unfold in Hcount. rewrite spine_unfold in Hspine.
  rewrite graft_unfold, addrs_unfold, spine_unfold, addrs_unfold.
  cbn [fst] in *.
  destruct pre as [|a' pre].
  - injection Hspine as -> Hpost. rewrite decide_True in Hcount by done.
    rewrite decide_True by done.
    assert (graft p (Rose (n, x) []) <$> ts = ts) as ->.
    { clear IH Hpost. induction ts as [|c ts IHts]; [done|].
      simpl in Hcount. rewrite fmap_cons, graft_absent by lia.
      f_equal. apply IHts. lia. }
    rewrite last_snoc, bind_app, bind_singleton, addrs_unfold. simpl.
    by rewrite app_comm_cons.
  - injection Hspine as -> Hrest.
    destruct (last ts) as [c|] eqn:Hlast; [|by destruct pre].
    apply last_Some in Hlast as [ts' ->]. simpl in Hrest.
    apply Forall_app in IH as [_ [IHc _]%Forall_cons].
    assert (count p c ≠ 0) as Hpc.
    { apply count_present, spine_addrs. rewrite Hrest.
      apply elem_of_app. right. left. }
    rewrite sum_list_with_app in Hcount. simpl in Hcount.
    destruct (decide (p = a')) as [->|Hne]; [lia|].
    rewrite decide_False by done. rewrite app_nil_r.
    assert (graft p (Rose (n, x) []) <$> ts' = ts') as Hts'.
    { assert (sum_list_with (count p) ts' = 0) as H0 by lia.
      clear -H0. induction ts' as [|c' ts' IHts]; [done|].
      simpl in H0. rewrite fmap_cons, graft_absent by lia.
      f_equal. apply IHts. lia. }
    rewrite fmap_app, Hts'. simpl.
    destruct (IHc pre) as [Ha Hs]; [lia|done|].
    rewrite last_snoc, !bind_app, !bind_singleton, Ha. simpl.
    rewrite Hs. by rewrite app_assoc.
Qed.


(** *** Trees without a repeated address *)

Lemma count_NoDup t : (∀ a, count a t ≤ 1) → NoDup (addrs t).
Proof.
  unfold count. generalize (addrs t). intros l.
  induction l as [|x l IH]; intros Hc; [constructor|].
  constructor.
  - intros Hx. specialize (Hc x). rewrite filter_cons, decide_True in Hc by done.
    assert (x ∈ filter (x =.) l) as Hin by by apply list_elem_of_filter.
    destruct (filter (x =.) l); [by apply elem_of_nil in Hin|simpl in Hc; lia].
  - apply IH. intros a. specialize (Hc a). rewrite filter_cons in Hc.
    destruct (decide (a = x)); simpl in Hc; lia.
Qed.

Lemma NoDup_bounded (l : list nat) n :
  NoDup l → Forall (λ k, k < n) l → length l ≤ n.
Proof.
  intros Hnd Hlt.
  transitivity (length (seq 0 n)); [|by rewrite length_seq].
  apply submseteq_length, NoDup_submseteq; [done|].
  intros k Hk. rewrite Forall_forall in Hlt. apply elem_of_seq.
  specialize (Hlt k Hk). lia.
Qed.

(** *** A store after another *)

Lemma length_relocated h0 h : length (relocated h0 h) = length h0 + length h.
Proof. unfold relocated. by rewrite length_app, length_fmap. Qed.

Lemma lookup_relocated h0 h a :
  relocated h0 h !! (length h0 + a) = moved (length h0) <$> h !! a.
Proof.
  unfold relocated. rewrite lookup_app_r by lia.
  replace (length h0 + a - length h0) with a by lia. apply list_lookup_fmap.
Qed.

Lemma lookup_relocated_0 h0 h :
  relocated h0 h !! length h0 = moved (length h0) <$> h !! 0.
Proof. rewrite <- lookup_relocated. by rewrite Nat.add_0_r. Qed.

Lemma relocated_nil h0 : relocated h0 [] = h0.
Proof. unfold relocated. apply app_nil_r. Qed.

Lemma alloc_relocated x h0 h : alloc x (relocated h0 h) = relocated h0 (alloc x h).
Proof. unfold alloc, relocated. by rewrite fmap_app, app_assoc. Qed.

Lemma push_relocated p n h0 h :
  push (length h0 + p) (length h0 + n) (relocated h0 h)
  = relocated h0 (push p n h).
Proof.
  unfold push, relocated. rewrite alter_app_r. f_equal.
  symmetry. apply list_fmap_alter, Forall_forall. intros c _.
  unfold moved, adopt. simpl. by rewrite fmap_app.
Qed.

Lemma mapM_relocated {X Y Z : Type} (f : X → option Y) (f' : Z → option Y)
    (g : Z → X) (F : Y → Y) (l : list Z) :
  Forall (λ z, f (g z) = F <$> f' z) l →
  mapM f (g <$> l) = (fmap F) <$> mapM f' l.
Proof.
  induction 1 as [|z l Hz _ IH]; [done|].
  cbn [fmap list_fmap]. simpl. rewrite Hz, IH.
  destruct (f' z); simpl; [|done]. by destruct (mapM f' l).
Qed.

Lemma reify_relocated b h0 h a :
  reify b (relocated h0 h) (length h0 + a)
  = rose_map (λ x, (length h0 + x.1, x.2)) <$> reify b h a.
Proof.
  revert a. induction b as [|b IH]; intros a; [done|].
  cbn [reify]. rewrite lookup_relocated.
  destruct (h !! a) as [c|]; [|done]. cbn [fmap option_fmap option_map mbind option_bind].
  cbn [moved kids payload].
  rewrite (mapM_relocated (reify b (relocated h0 h)) (reify b h) _
             (rose_map (λ x, (length h0 + x.1, x.2)))); [|by apply Forall_forall].
  by destruct (mapM (reify b h) (kids c)).
Qed.

End store_facts.

(** ** Runs *)

Lemma forEach_cons {S : Type} (f : S → str → outcome S) st l ls :
  forEach f st (l :: ls) = (st' ← f st l; forEach f st' ls).
Proof. done. Qed.

Lemma forEach_app {S : Type} (f : S → str → outcome S) st ls1 ls2 :
  forEach f st (ls1 ++ ls2) = (st' ← forEach f st ls1; forEach f st' ls2).
Proof.
  revert st. induction ls1 as [|l ls1 IH]; intros st; [done|].
  simpl. destruct (f st l); simpl; [apply IH|done..].
Qed.

(** A property of the states that every step keeps holds at the end; [P]
    restricts the lines. *)
Lemma forEach_invariant_on {S : Type} (f : S → str → outcome S)
    (P : str → Prop) (I : S → Prop) :
  (∀ st l, P l → I st → ∃ st', f st l = Ok st' ∧ I st') →
  ∀ ls st, Forall P ls → I st → ∃ st', forEach f st ls = Ok st' ∧ I st'.
Proof.
  intros Hstep ls. induction ls as [|l ls IH]; intros st Hls Hst; [by eexists|].
  apply Forall_cons in Hls as [Hl Hls].
  destruct (Hstep st l Hl Hst) as (st1&Hf&Hst1). simpl. rewrite Hf. simpl.
  by apply IH.
Qed.

Lemma forEach_invariant {S : Type} (f : S → str → outcome S) (I : S → Prop) :
  (∀ st l, I st → ∃ st', f st l = Ok st' ∧ I st') →
  ∀ ls st, I st → ∃ st', forEach f st ls = Ok st' ∧ I st'.
Proof.
  intros Hstep ls st. apply (forEach_invariant_on f (λ _, True)); [auto|].
  by apply Forall_forall.
Qed.

(** An invariant that knows the lines gone through. *)
Lemma forEach_prefix_invariant {S : Type} (f : S → str → outcome S)
    (I : list str → S → Prop) (ls : list str) (st0 : S) :
  I [] st0 →
  (∀ pre l post st, ls = pre ++ l :: post → I pre st →
     ∃ st', f st l = Ok st' ∧ I (pre ++ [l]) st') →
  ∃ st', forEach f st0 ls = Ok st' ∧ I ls st'.
Proof.
  intros H0 Hstep.
  assert (∀ post pre st, ls = pre ++ post → I pre st →
            ∃ st', forEach f st post = Ok st' ∧ I ls st') as Hgen.
  { induction post as [|l post IH]; intros pre st Hls HI.
    - rewrite app_nil_r in Hls. subst pre. by exists st.
    - destruct (Hstep pre l post st Hls HI) as (st1&Hf&HI1).
      destruct (IH (pre ++ [l]) st1) as (st'&Hrun&HI'); [|done|].
      + by rewrite <- app_assoc.
      + exists st'. by rewrite forEach_cons, Hf. }
  by apply (Hgen ls []).
Qed.

(** ** Splitting a stack *)

Section stack_split.
Context {A : Type} (Q : A → Prop).
Implicit Types (popped rest X Y : list A).

(** The popped entries satisfy [Q]; an entry [y] that does not is still
    there. *)
Lemma split_before popped p rest X y Y :
  popped ++ p :: rest = X ++ y :: Y → Forall Q popped → ¬ Q y →
  ∃ m, p :: rest = m ++ y :: Y ∧ X = popped ++ m.
Proof.
  revert X. induction popped as [|a popped IH]; intros X Heq Hpop Hy.
  - by exists X.
  - apply Forall_cons in Hpop as [Ha Hpop]. destruct X as [|b X].
    + simpl in Heq. injection Heq as -> _. done.
    + simpl in Heq. injection Heq as -> Heq.
      destruct (IH X Heq Hpop Hy) as (m&Hm&->). by exists m.
Qed.

(** The parent does not satisfy [Q], all entries but the bottom one do:
    the parent is the bottom one. *)
Lemma split_bottom popped p rest X z :
  popped ++ p :: rest = X ++ [z] → Forall Q X → ¬ Q p →
  popped = X ∧ p = z ∧ rest = [].
Proof.
  revert popped. induction X as [|a X IH]; intros popped Heq HX Hp.
  - destruct popped as [|b popped]; simpl in Heq.
    + by injection Heq as -> ->.
    + injection Heq as _ Heq. by destruct popped.
  - apply Forall_cons in HX as [Ha HX]. destruct popped as [|b popped].
    + simpl in Heq. injection Heq as -> _. done.
    + simpl in Heq. injection Heq as -> Heq.
      destruct (IH popped Heq HX Hp) as (->&->&->). done.
Qed.

End stack_split.

(** ** The stack-based parser *)

Section markdown_parser_facts.
Import MarkdownParser.
Implicit Types (st : state) (h : list (cell MarkdownItem)).

Lemma inv_init : inv init.
Proof.
  split_and!.
  - intros [|a] c; [|done]. intros [= <-]. constructor.
  - by eexists.
  - by exists [].
  - repeat constructor.
Qed.

Lemma lineLevel_nonneg line : (0 ≤ lineLevel line)%Z.
Proof. unfold lineLevel. lia. Qed.

(** The loop pops the entries at least as deep as the new node and stops
    at the first shallower one, or at the bottom of the stack. *)
Lemma unwind_spec h lv s :
  Forall (λ a, is_Some (h !! a)) s → s ≠ [] →
  ∃ popped p rest,
    s = popped ++ p :: rest
    ∧ unwind h lv s = Ok (p :: rest)
    ∧ Forall (λ q, ∃ c, h !! q = Some c ∧ (lv ≤ level (payload c))%Z) popped
    ∧ (rest = [] ∨ ∃ c, h !! p = Some c ∧ (level (payload c) < lv)%Z).
Proof.
  induction s as [|a s IH]; [done|]. intros Hs _.
  apply Forall_cons in Hs as [[c Hc] Hs].
  destruct s as [|a' s'].
  { exists [], a, []. split_and!; [done|done|constructor|by left]. }
  simpl. rewrite Hc. simpl. case_bool_decide as Hlv.
  - destruct (IH Hs) as (popped&p&rest&Heq&Hun&Hpop&Hp); [done|].
    exists (a :: popped), p, rest. split_and!; [by rewrite Heq|done| |done].
    constructor; [eauto|done].
  - exists [], a, (a' :: s'). split_and!; [done|done|constructor|].
    right. exists c. split; [done|lia].
Qed.

(** One line: the new object is appended to the [children] of the nearest
    open ancestor that is shallower. *)
Lemma step_spec st line :
  inv st →
  ∃ popped parent rest c,
    stack st = popped ++ parent :: rest
    ∧ Forall (λ q, ∃ cq, heap st !! q = Some cq
                        ∧ (lineLevel line ≤ level (payload cq))%Z) popped
    ∧ heap st !! parent = Some c
    ∧ (level (payload c) < lineLevel line)%Z
    ∧ step st line
      = Ok {| heap := push parent (length (heap st))
                        (alloc {| level := lineLevel line;
                                  content := lineContent line |} (heap st));
              stack := length (heap st) :: parent :: rest |}.
Proof.
  intros (Hwf&[ks Hroot]&[s Hs]&Hlt).
  set (node := {| level := lineLevel line; content := lineContent line |}).
  assert (Hsome : Forall (λ a, is_Some (alloc node (heap st) !! a)) (stack st)).
  { eapply Forall_impl; [exact Hlt|]. intros a Ha. simpl.
    rewrite lookup_alloc_lt by done. by apply lookup_lt_is_Some_2. }
  destruct (unwind_spec (alloc node (heap st)) (lineLevel line) (stack st) Hsome)
    as (popped&p&rest&Heq&Hun&Hpop&Hp).
  { rewrite Hs. by destruct s. }
  assert (Hin : ∀ q, q ∈ stack st → alloc node (heap st) !! q = heap st !! q).
  { intros q Hq. rewrite Forall_forall in Hlt. by rewrite lookup_alloc_lt by auto. }
  assert (Hpin : p ∈ stack st).
  { rewrite Heq. apply elem_of_app. right. left. }
  destruct (lookup_lt_is_Some_2 (heap st) p) as [c Hc].
  { rewrite Forall_forall in Hlt. auto. }
  exists popped, p, rest, c. split_and!; [done| |done| |].
  - rewrite Forall_forall in Hpop |- *. intros q Hq.
    destruct (Hpop q Hq) as (cq&Hcq&Hle). exists cq. split; [|done].
    rewrite <- Hin; [done|]. rewrite Heq. apply elem_of_app. by left.
  - destruct Hp as [->|(c'&Hc'&Hlt')].
    + assert (p = root) as ->.
      { rewrite Hs in Heq. apply (f_equal last) in Heq.
        rewrite !last_app in Heq. simpl in Heq. congruence. }
      rewrite Hroot in Hc. injection Hc as <-. simpl.
      pose proof (lineLevel_nonneg line). lia.
    + rewrite Hin, Hc in Hc' by done. by injection Hc' as <-.
  - unfold step. fold node. simpl. rewrite Hun. done.
Qed.

Lemma step_inv st line :
  inv st → ∃ st', step st line = Ok st' ∧ inv st'.
Proof.
  intros Hinv. destruct (step_spec st line Hinv)
    as (popped&p&rest&c&Heq&_&Hc&_&Hstep).
  destruct Hinv as (Hwf&[ks Hroot]&[s Hs]&Hlt).
  eexists. split; [exact Hstep|].
  assert (Hp : p < length (heap st)) by by eapply lookup_lt_Some.
  split_and!; simpl.
  - apply wf_push; [by apply wf_alloc|]. rewrite length_alloc. lia.
  - assert (root < length (heap st)) by by eapply lookup_lt_Some.
    unfold push. rewrite list_lookup_alter, !lookup_alloc_lt by done.
    destruct (decide (p = root)) as [->|].
    + rewrite Hroot. by eexists.
    + exists ks. exact Hroot.
  - rewrite Hs in Heq.
    destruct (decide (rest = [])) as [->|Hne].
    + exists [length (heap st)]. simpl. f_equal. f_equal.
      apply (f_equal last) in Heq. rewrite !last_app in Heq. simpl in Heq.
      congruence.
    + destruct (exists_last Hne) as (rest'&z&->).
      exists (length (heap st) :: p :: rest'). simpl. do 2 f_equal.
      rewrite app_comm_cons, app_assoc in Heq.
      apply app_inj_tail in Heq as [_ ->]. done.
  - unfold push. rewrite length_alter, length_alloc. constructor; [lia|].
    rewrite Heq in Hlt. apply Forall_app in Hlt as [_ Hlt].
    eapply Forall_impl; [exact Hlt|]. simpl; lia.
Qed.

Lemma run_inv ls : ∃ st, forEach step init ls = Ok st ∧ inv st.
Proof. apply forEach_invariant; [apply step_inv|apply inv_init]. Qed.

(** *** The layout *)

Lemma convert_unfold it cs lv ix :
  convertToMindMap (Rose it cs) lv ix
  = Rose {| id := lit "node-" ++ JS.ofNat lv ++ lit "-" ++ JS.ofNat ix;
            label := content it;
            position := {| x := (Z.of_nat lv * xSpacing)%Z;
                           y := (Z.of_nat ix * ySpacing)%Z |} |}
         (mapFrom (λ child idx, convertToMindMap child (S lv) idx) 0 cs).
Proof. done. Qed.

Lemma convert_item t lv ix :
  item (convertToMindMap t lv ix)
  = {| id := lit "node-" ++ JS.ofNat lv ++ lit "-" ++ JS.ofNat ix;
       label := content (item t);
       position := {| x := (Z.of_nat lv * xSpacing)%Z;
                      y := (Z.of_nat ix * ySpacing)%Z |} |}.
Proof. by destruct t. Qed.

Lemma convert_children t lv ix :
  children (convertToMindMap t lv ix)
  = mapFrom (λ child idx, convertToMindMap child (S lv) idx) 0 (children t).
Proof. by destruct t. Qed.

Lemma size_convert t lv ix : size (convertToMindMap t lv ix) = size t.
Proof.
  revert lv ix. induction t as [it cs IH] using rose_ind'. intros lv ix.
  rewrite convert_unfold, !size_unfold. f_equal.
  generalize 0 as k. induction IH as [|c cs' Hc _ IHcs]; intros k; [done|].
  simpl. by rewrite Hc, IHcs.
Qed.

(** What holds of a converted node and its children holds everywhere in
    a converted tree. *)
Lemma everywhere_convert (Q : MindMapItem → list MindMapItem → Prop) :
  (∀ t lv ix, Q (item (convertToMindMap t lv ix))
                (item <$> children (convertToMindMap t lv ix))) →
  ∀ t lv ix, everywhere Q (convertToMindMap t lv ix).
Proof.
  intros HQ t. induction t as [it cs IH] using rose_ind'. intros lv ix.
  unfold everywhere. rewrite convert_unfold, nodes_unfold. constructor.
  - rewrite <- convert_unfold. apply HQ.
  - apply Forall_bind. apply Forall_forall. intros n Hn.
    apply elem_of_mapFrom in Hn as (c&i&Hc&->).
    rewrite Forall_forall in IH. by apply IH.
Qed.

Lemma children_x t lv ix :
  Forall (λ k, x (position k) = (Z.of_nat (S lv) * xSpacing)%Z)
    (item <$> children (convertToMindMap t lv ix)).
Proof.
  rewrite convert_children, fmap_mapFrom. apply Forall_forall. intros k Hk.
  apply elem_of_mapFrom in Hk as (c&i&_&->). by rewrite convert_item.
Qed.

Lemma children_y t lv ix :
  (λ k, y (position k)) <$> (item <$> children (convertToMindMap t lv ix))
  = (λ i, (Z.of_nat i * ySpacing)%Z) <$> seq 0 (length (children t)).
Proof.
  rewrite convert_children, !fmap_mapFrom. rewrite <- mapFrom_index.
  generalize 0. induction (children t) as [|c cs IH]; intros k; simpl; [done|].
  by rewrite convert_item, IH.
Qed.

Lemma children_id t lv ix :
  id <$> (item <$> children (convertToMindMap t lv ix))
  = (λ i, lit "node-" ++ JS.ofNat (S lv) ++ lit "-" ++ JS.ofNat i)
    <$> seq 0 (length (children t)).
Proof.
  rewrite convert_children, !fmap_mapFrom. rewrite <- mapFrom_index.
  generalize 0. induction (children t) as [|c cs IH]; intros k; simpl; [done|].
  by rewrite convert_item, IH.
Qed.

Lemma ofNat_inj : Inj (=) (=) JS.ofNat.
Proof.
  intros m n H. unfold JS.ofNat, lit in H.
  apply (f_equal string_of_list_ascii) in H.
  rewrite !string_of_list_ascii_of_string in H. by apply (inj pretty).
Qed.

(** *** The first line *)

Lemma levelAt_after st line parent rest a :
  a < length (heap st) →
  levelAt (heap (after st line parent rest)) a = levelAt (heap st) a.
Proof.
  intros Ha. unfold levelAt, after. simpl.
  pose proof (payload_push parent (length (heap st))
                (alloc (nodeOf line) (heap st)) a) as Hp.
  rewrite lookup_alloc_lt in Hp by done.
  destruct (push _ _ _ !! a), (heap st !! a); simpl in *; congruence.
Qed.

Lemma levelAt_new st line parent rest :
  parent < length (heap st) →
  levelAt (heap (after st line parent rest)) (length (heap st))
  = Some (lineLevel line).
Proof.
  intros Hp. unfold levelAt, after, push. simpl.
  rewrite list_lookup_alter_ne, lookup_alloc_eq by lia. done.
Qed.

Lemma length_after st line parent rest :
  length (heap (after st line parent rest)) = S (length (heap st)).
Proof. unfold after, push. simpl. by rewrite length_alter, length_alloc. Qed.

Lemma step_init l0 :
  step init l0
  = Ok {| heap := [Cell rootItem [1]; Cell (nodeOf l0) []]; stack := [1; root] |}.
Proof. done. Qed.

Lemma inv1_first l0 :
  ∃ st, step init l0 = Ok st ∧ inv1 l0 st.
Proof.
  eexists. split; [apply step_init|].
  destruct (step_inv init l0 inv_init) as (st&Hst&Hinv).
  rewrite step_init in Hst. injection Hst as <-.
  split_and!; [done|by eexists|done].
Qed.

Lemma step_inv1 l0 st line :
  inv1 l0 st → ∃ st', step st line = Ok st' ∧ inv1 l0 st'.
Proof.
  intros (Hinv&[ks Hroot]&H1).
  destruct (step_inv st line Hinv) as (st'&Hst&Hinv').
  exists st'. split; [done|]. split; [done|].
  destruct (step_spec st line Hinv) as (popped&p&rest&c&_&_&Hc&_&Hstep).
  rewrite Hstep in Hst. injection Hst as <-. simpl.
  assert (Hp : p < length (heap st)) by by eapply lookup_lt_Some.
  assert (H0 : root < length (heap st)) by by eapply lookup_lt_Some.
  assert (H1' : 1 < length (heap st)).
  { destruct (heap st !! 1) eqn:E; [|done]. by eapply lookup_lt_Some. }
  split.
  - unfold push. rewrite list_lookup_alter, !lookup_alloc_lt by done.
    destruct (decide (p = root)) as [->|].
    + rewrite Hroot. by eexists.
    + by eexists.
  - by rewrite payload_push, lookup_alloc_lt.
Qed.

Lemma step_length st line st' :
  step st line = Ok st' → length (heap st') = S (length (heap st)).
Proof.
  unfold step. destruct (unwind _ _ _) as [[|top s]| |]; simpl; try done.
  intros [= <-]. simpl. unfold push. by rewrite length_alter, length_alloc.
Qed.

Lemma run_length ls st st' :
  forEach step st ls = Ok st' →
  length (heap st') = length ls + length (heap st).
Proof.
  revert st. induction ls as [|l ls IH]; intros st; simpl.
  - by intros [= <-].
  - destruct (step st l) as [st1| |] eqn:Hst; simpl; [|done..]. intros Hrun.
    rewrite (IH _ Hrun), (step_length _ _ _ Hst). lia.
Qed.

(** What [parseLines] returns once [root] has a first child. *)
Lemma parseLines_root ls st ks :
  forEach step init ls = Ok st → inv st →
  heap st !! root = Some (Cell rootItem (1 :: ks)) →
  ∃ T1, reify (length (heap st)) (heap st) 1 = Some T1
        ∧ parseLines ls = Ok (convertToMindMap (rose_map snd T1) 0 0).
Proof.
  intros Hrun (Hwf&_) Hroot.
  destruct (reify_total (heap st) 1 Hwf) as [T1 HT1].
  { pose proof (Hwf _ _ Hroot) as Hk. simpl in Hk.
    apply Forall_cons in Hk as [? _]. lia. }
  exists T1. split; [done|].
  unfold parseLines. rewrite Hrun. simpl. rewrite Hroot. simpl.
  unfold readBack. rewrite HT1. done.
Qed.

(** *** Lines below the first one *)

Lemma deep_first l0 : ∃ st, step init l0 = Ok st ∧ deep l0 st.
Proof.
  destruct (inv1_first l0) as (st&Hst&Hinv1). exists st. split; [done|].
  rewrite step_init in Hst. injection Hst as <-.
  split_and!; [done|done| |].
  - exists []. split; [done|]. repeat constructor.
    exists (lineLevel l0). split; [done|lia].
  - exists (Rose (1, nodeOf l0) []). split_and!; [done..|].
    intros a Ha. simpl in Ha. assert (a = 1) as -> by lia. done.
Qed.

Lemma step_deep l0 st line :
  (lineLevel l0 < lineLevel line)%Z → deep l0 st →
  ∃ st', step st line = Ok st' ∧ deep l0 st'.
Proof.
  intros Hlv (Hinv1&Hroot1&(s&Hs&Hlev)&(T1&HT1&Hsize&Hcount)).
  destruct (step_inv1 l0 st line Hinv1) as (st'&Hst&Hinv1').
  exists st'. split; [done|]. split; [done|].
  destruct Hinv1 as (Hinv&[ks Hroot]&H1).
  destruct (step_spec st line Hinv) as (popped&p&rest&c&Heq&Hpop&Hc&Hclv&Hstep).
  rewrite Hstep in Hst. injection Hst as <-. fold (nodeOf line).
  fold (after st line p rest).
  assert (Hp : p < length (heap st)) by by eapply lookup_lt_Some.
  rewrite Hs in Heq. symmetry in Heq.
  destruct (split_before
              (λ q, ∃ cq, heap st !! q = Some cq
                          ∧ (lineLevel line ≤ level (payload cq))%Z)
              popped p rest s 1 [root] Heq Hpop) as (m&Hm&->).
  { intros (c1&Hc1&Hle). rewrite Hc1 in H1. simpl in H1.
    injection H1 as H1. rewrite H1 in Hle. simpl in Hle. lia. }
  rewrite <- app_assoc in Hlev. apply Forall_app in Hlev as [_ Hlev].
  assert (Hpin : atLeast (heap st) (lineLevel l0) p).
  { rewrite Forall_forall in Hlev. apply Hlev.
    destruct m as [|b m]; simpl in Hm.
    - injection Hm as -> _. left.
    - injection Hm as -> _. left. }
  assert (Hp1 : 1 ≤ p).
  { destruct (decide (p = 0)) as [->|]; [|lia].
    destruct Hpin as (w&Hw&Hle). unfold levelAt in Hw.
    change 0 with root in Hw. rewrite Hroot in Hw. simpl in Hw.
    injection Hw as <-. pose proof (lineLevel_nonneg l0). lia. }
  split_and!.
  - assert (root < length (heap st)) by by eapply lookup_lt_Some.
    unfold after, push; simpl.
    rewrite list_lookup_alter_ne, lookup_alloc_lt by (unfold root; lia). done.
  - exists (length (heap st) :: m). split.
    + unfold after; simpl. by rewrite Hm.
    + simpl. constructor.
      * exists (lineLevel line). split; [by apply (levelAt_new st line p rest)|lia].
      * eapply Forall_impl; [exact Hlev|]. intros a (w&Hw&Hle).
        exists w. split; [|done]. rewrite (levelAt_after st line p rest); [done|].
        unfold levelAt in Hw. destruct (heap st !! a) eqn:E; [|done].
        by eapply lookup_lt_Some.
  - exists (graft p (Rose (length (heap st), nodeOf line) []) T1).
    rewrite length_after. split_and!.
    + unfold after; simpl. by apply reify_attach.
    + rewrite size_graft, Hcount by lia. lia.
    + intros a Ha. rewrite count_graft.
      destruct (decide (a = length (heap st))) as [->|Hne].
      * rewrite (count_outside _ _ _ _ _ HT1) by lia. rewrite Hcount; lia.
      * rewrite Hcount; lia.
Qed.

(** *** A second child of [root] *)

Lemma keep_after T1 st line p rest :
  inv st → (∃ ks, heap st !! root = Some (Cell rootItem (1 :: ks))) →
  reify (length (heap st)) (heap st) 1 = Some T1 →
  p < length (heap st) → count p T1 = 0 → Forall (λ a, count a T1 = 0) rest →
  inv (after st line p rest) →
  keep T1 (after st line p rest).
Proof.
  intros Hinv [ks Hroot] HT1 Hp Hcp Hrest Hinv'.
  assert (Hout : ∀ a, length (heap st) ≤ a → count a T1 = 0).
  { intros a Ha. by eapply count_outside. }
  split_and!; [done| | | |].
  - assert (root < length (heap st)) by by eapply lookup_lt_Some.
    unfold after, push; simpl.
    rewrite list_lookup_alter, !lookup_alloc_lt by done.
    destruct (decide (p = root)) as [->|].
    + rewrite Hroot. by eexists.
    + by eexists.
  - rewrite length_after. unfold after; cbn [heap].
    rewrite <- (graft_absent p (Rose (length (heap st), nodeOf line) []) T1 Hcp).
    by apply reify_attach.
  - unfold after; simpl. repeat constructor; [by apply Hout|done..].
  - intros a. rewrite length_after. intros Ha. apply Hout. lia.
Qed.

Lemma step_keep T1 st line :
  keep T1 st → ∃ st', step st line = Ok st' ∧ keep T1 st'.
Proof.
  intros (Hinv&Hroot&HT1&Hstack&Hout).
  destruct (step_inv st line Hinv) as (st'&Hst&Hinv').
  exists st'. split; [done|].
  destruct (step_spec st line Hinv) as (popped&p&rest&c&Heq&_&Hc&_&Hstep).
  rewrite Hstep in Hst. injection Hst as <-.
  rewrite Heq in Hstack. apply Forall_app in Hstack as [_ Hstack].
  apply Forall_cons in Hstack as [Hp Hrest].
  apply keep_after; try done. by eapply lookup_lt_Some.
Qed.

(** *** Whole runs *)

Lemma run_inv1 l0 rest : ∃ st, forEach step init (l0 :: rest) = Ok st ∧ inv1 l0 st.
Proof.
  destruct (inv1_first l0) as (st0&Hst0&Hinv0). rewrite forEach_cons, Hst0.
  cbn [mbind outcome_bind].
  apply forEach_invariant; [apply step_inv1|done].
Qed.

Lemma run_deep l0 rest :
  Forall (λ l, (lineLevel l0 < lineLevel l)%Z) rest →
  ∃ st, forEach step init (l0 :: rest) = Ok st ∧ deep l0 st.
Proof.
  intros Hrest. destruct (deep_first l0) as (st0&Hst0&Hdeep0).
  rewrite forEach_cons, Hst0. cbn [mbind outcome_bind].
  eapply forEach_invariant_on; [|exact Hrest|done].
  intros st l Hl. by apply step_deep.
Qed.

(** The root of the result is the object of the first line. *)
Lemma parseLines_first l0 rest :
  ∃ t, parseLines (l0 :: rest) = Ok t ∧ label (item t) = lineContent l0.
Proof.
  destruct (run_inv1 l0 rest) as (st&Hrun&Hinv&[ks Hroot]&H1).
  destruct (parseLines_root _ _ _ Hrun Hinv Hroot) as (T1&HT1&Hparse).
  eexists. split; [exact Hparse|].
  rewrite convert_item. simpl. rewrite rose_map_item.
  apply reify_root in HT1 as (c&Hc&->). simpl.
  rewrite Hc in H1. simpl in H1. by injection H1 as ->.
Qed.

(** Under the first line, when all others are deeper: one node per line. *)
Lemma parseLines_deep l0 rest :
  Forall (λ l, (lineLevel l0 < lineLevel l)%Z) rest →
  ∃ t, parseLines (l0 :: rest) = Ok t ∧ size t = S (length rest).
Proof.
  intros Hrest.
  destruct (run_deep l0 rest Hrest)
    as (st&Hrun&(Hinv&[ks Hroot]&H1)&_&_&(T1&HT1&Hsize&_)).
  destruct (parseLines_root _ _ _ Hrun Hinv Hroot) as (T1'&HT1'&Hparse).
  rewrite HT1 in HT1'. injection HT1' as <-.
  eexists. split; [exact Hparse|].
  rewrite size_convert, size_rose_map.
  apply run_length in Hrun. simpl in Hrun. lia.
Qed.

(** A line at most as deep as the first one becomes a second child of
    [root]; it and all that follows leave the result as it was. *)
Lemma parseLines_second_child l0 pre e post :
  Forall (λ l, (lineLevel l0 < lineLevel l)%Z) pre →
  (lineLevel e ≤ lineLevel l0)%Z →
  parseLines (l0 :: pre ++ e :: post) = parseLines (l0 :: pre).
Proof.
  intros Hpre He.
  destruct (run_deep l0 pre Hpre)
    as (st&Hrun&(Hinv&[ks Hroot]&H1)&_&(s&Hs&Hlev)&(T1&HT1&_)).
  destruct (parseLines_root _ _ _ Hrun Hinv Hroot) as (T1'&HT1'&Hparse).
  rewrite HT1 in HT1'. injection HT1' as <-. rewrite Hparse.
  (* the step of [e] *)
  destruct (step_inv st e Hinv) as (st2&Hst2&Hinv2).
  destruct (step_spec st e Hinv) as (popped&p&rest&c&Heq&Hpop&Hc&Hclv&Hstep).
  rewrite Hs in Heq. symmetry in Heq.
  change (s ++ [1; root]) with (s ++ [1] ++ [root]) in Heq.
  rewrite app_assoc in Heq.
  destruct (split_bottom (atLeast (heap st) (lineLevel l0))
              popped p rest (s ++ [1]) root Heq Hlev) as (_&->&->).
  { intros (w&Hw&Hle). unfold levelAt in Hw. rewrite Hc in Hw. simpl in Hw.
    injection Hw as <-. lia. }
  assert (Hkeep : keep T1 st2).
  { rewrite Hstep in Hst2. injection Hst2 as <-. fold (nodeOf e).
    fold (after st e root []).
    apply keep_after; try done.
    - by eexists.
    - by eapply lookup_lt_Some.
    - eapply count_before; [|exact HT1|]; [by destruct Hinv|]. unfold root; lia. }
  destruct (forEach_invariant step (keep T1) (step_keep T1) post st2 Hkeep)
    as (st3&Hrun3&(Hinv3&[ks3 Hroot3]&HT3&_)).
  assert (Hall : forEach step init (l0 :: pre ++ e :: post) = Ok st3).
  { change (l0 :: pre ++ e :: post) with ((l0 :: pre) ++ e :: post).
    rewrite forEach_app, Hrun. simpl. rewrite Hst2. simpl. done. }
  destruct (parseLines_root _ _ _ Hall Hinv3 Hroot3) as (T3&HT3'&Hparse3).
  rewrite HT3 in HT3'. injection HT3' as <-. done.
Qed.

(** The line [e] of [parseLines_second_child] is attached to [root]. *)
Lemma run_second_child l0 pre e :
  Forall (λ l, (lineLevel l0 < lineLevel l)%Z) pre →
  (lineLevel e ≤ lineLevel l0)%Z →
  ∃ st, forEach step init (l0 :: pre ++ [e]) = Ok st
        ∧ heap st !! root = Some (Cell rootItem [1; S (S (length pre))]).
Proof.
  intros Hpre He.
  destruct (run_deep l0 pre Hpre)
    as (st&Hrun&(Hinv&_&H1)&Hroot&(s&Hs&Hlev)&_).
  destruct (step_spec st e Hinv) as (popped&p&rest&c&Heq&Hpop&Hc&Hclv&Hstep).
  rewrite Hs in Heq. symmetry in Heq.
  change (s ++ [1; root]) with (s ++ [1] ++ [root]) in Heq.
  rewrite app_assoc in Heq.
  destruct (split_bottom (atLeast (heap st) (lineLevel l0))
              popped p rest (s ++ [1]) root Heq Hlev) as (_&->&->).
  { intros (w&Hw&Hle). unfold levelAt in Hw. rewrite Hc in Hw. simpl in Hw.
    injection Hw as <-. lia. }
  eexists. split.
  - change (l0 :: pre ++ [e]) with ((l0 :: pre) ++ [e]).
    rewrite forEach_app, Hrun. cbn [mbind outcome_bind forEach].
    rewrite Hstep. done.
  - assert (root < length (heap st)) by by eapply lookup_lt_Some.
    cbn [heap]. unfold push.
    rewrite list_lookup_alter_eq, lookup_alloc_lt, Hroot by done.
    apply run_length in Hrun. simpl in Hrun. cbn [fmap option_fmap option_map].
    unfold adopt. simpl. rewrite Hrun. repeat f_equal. lia.
Qed.

(** *** The result is a converted tree *)

Lemma parseLines_convert ls t :
  parseLines ls = Ok t → ∃ T, t = convertToMindMap T 0 0.
Proof.
  unfold parseLines. destruct (forEach step init ls) as [st| |]; [|done..].
  cbn [mbind outcome_bind]. destruct (heap st !! root) as [c|]; [|done].
  cbn [fetch mbind outcome_bind]. destruct (kids c) as [|a ks]; [done|].
  destruct (readBack (heap st) a) as [T| |]; [|done..].
  cbn [mbind outcome_bind]. intros [= <-]. by eexists.
Qed.

Lemma convert_right T lv ix :
  everywhere (λ it ks, Forall (λ k, x (position k)
                                    = (x (position it) + xSpacing)%Z) ks)
    (convertToMindMap T lv ix).
Proof.
  apply everywhere_convert. clear. intros t lv ix.
  eapply Forall_impl; [apply children_x|]. intros k Hk. simpl in Hk.
  rewrite Hk, convert_item. simpl. unfold xSpacing. lia.
Qed.

Lemma convert_depth T d n :
  (d, n) ∈ walk 0 (convertToMindMap T 0 0) →
  x (position (item n)) = (Z.of_nat d * xSpacing)%Z.
Proof.
  intros Hn.
  destruct (walk_affine (λ it, x (position it)) xSpacing _ 0 d n
              (convert_right T 0 0) Hn) as [_ ->].
  rewrite convert_item. simpl. lia.
Qed.

Lemma convert_apart_y T lv ix :
  everywhere (λ _ ks, NoDup ((λ k, y (position k)) <$> ks))
    (convertToMindMap T lv ix).
Proof.
  apply everywhere_convert. clear. intros t lv ix. rewrite children_y.
  apply NoDup_fmap_2; [|apply NoDup_seq].
  intros i j. unfold ySpacing. lia.
Qed.

Lemma convert_apart_id T lv ix :
  everywhere (λ _ ks, NoDup (id <$> ks)) (convertToMindMap T lv ix).
Proof.
  apply everywhere_convert. clear. intros t lv ix. rewrite children_id.
  apply NoDup_fmap_2; [|apply NoDup_seq].
  intros i j Hij. apply ofNat_inj. by repeat apply app_inv_head in Hij.
Qed.

(** *** Well-formed outlines *)

Lemma nestedFrom_deep m levels :
  nestedFrom m levels = true → Forall (λ L, 2 ≤ L) levels.
Proof.
  revert m. induction levels as [|L levels IH]; intros m; [constructor|].
  cbn [nestedFrom]. intros [[H2 _]%andb_true_iff Hn]%andb_true_iff.
  apply Nat.leb_le in H2. constructor; [done|]. by eapply IH.
Qed.

Lemma headingLevels_all ls :
  Forall (λ L, L ≠ 0) (JS.headingLevel <$> ls) →
  headingLevels ls = JS.headingLevel <$> ls.
Proof.
  unfold headingLevels. generalize (JS.headingLevel <$> ls). intros levels.
  induction 1 as [|L levels HL _ IH]; [done|].
  by rewrite filter_cons, decide_True, IH.
Qed.

Lemma parseLines_wellFormed ls :
  wellFormed (JS.headingLevel <$> ls) = true →
  ∃ t, parseLines ls = Ok t ∧ size t = length (headingLevels ls).
Proof.
  destruct ls as [|l0 rest]; [done|]. rewrite fmap_cons. simpl.
  destruct (JS.headingLevel l0) as [|[|L0]] eqn:HL0; [done| |done].
  intros Hn%nestedFrom_deep.
  destruct (parseLines_deep l0 rest) as (t&Ht&Hsize).
  { rewrite Forall_fmap in Hn. eapply Forall_impl; [exact Hn|].
    intros l Hl. simpl in Hl. unfold lineLevel. rewrite HL0. lia. }
  exists t. split; [done|].
  rewrite headingLevels_all, length_fmap; [done|].
  rewrite fmap_cons, HL0. constructor; [done|].
  eapply Forall_impl; [exact Hn|]. simpl. lia.
Qed.

(** A node at depth [d] of a converted tree is a converted tree itself, laid
    out for depth [d] and some sibling index. *)
Lemma walk_convert T d0 ix d n :
  (d, n) ∈ walk d0 (convertToMindMap T d0 ix) →
  ∃ T' i, n = convertToMindMap T' d i.
Proof.
  revert d0 ix. induction T as [it cs IH] using rose_ind'. intros d0 ix.
  rewrite convert_unfold, walk_unfold, elem_of_cons, list_elem_of_bind.
  intros [[= -> ->]|(t'&Hn&Ht')].
  - exists (Rose it cs), ix. by rewrite convert_unfold.
  - apply elem_of_mapFrom in Ht' as (c&i&Hc&->).
    rewrite Forall_forall in IH. by eapply IH.
Qed.

Lemma convert_depth_id T d n :
  (d, n) ∈ walk 0 (convertToMindMap T 0 0) →
  ∃ i, id (item n) = lit "node-" ++ JS.ofNat d ++ lit "-" ++ JS.ofNat i.
Proof.
  intros (T'&i&->)%walk_convert. exists i. by rewrite convert_item.
Qed.

(** *** No non-blank line, and the lines after the first *)

Lemma parseLines_nil : parseLines [] = TypeError.
Proof. done. Qed.

Lemma parseLines_not_stuck ls : parseLines ls ≠ Stuck.
Proof.
  destruct ls as [|l0 rest]; [done|].
  destruct (parseLines_first l0 rest) as (t&->&_). done.
Qed.

(** Either all the lines are deeper than [v], or there is a first one that
    is not. *)
Lemma first_shallow_line (v : Z) (rest : list str) :
  Forall (λ l, (v < lineLevel l)%Z) rest
  ∨ ∃ pre e post, rest = pre ++ e :: post
      ∧ Forall (λ l, (v < lineLevel l)%Z) pre ∧ (lineLevel e ≤ v)%Z.
Proof.
  induction rest as [|l rest IH]; [by left|].
  destruct (decide (v < lineLevel l)%Z) as [Hl|Hl].
  - destruct IH as [IH|(pre&e&post&->&Hpre&He)].
    + left. by constructor.
    + right. exists (l :: pre), e, post. split_and!; [done| |done].
      by constructor.
  - right. exists [], l, rest. split_and!; [done|constructor|lia].
Qed.


(** *** The fold of an outline *)

Lemma chained_app_r ls s1 s2 : chained ls (s1 ++ s2) → chained ls s2.
Proof.
  induction s1 as [|a s1 IH]; [done|]. simpl.
  destruct (s1 ++ s2) eqn:Hs.
  - apply app_eq_nil in Hs as [_ ->]. done.
  - intros [_ Hch]. by apply IH.
Qed.

(** Above an entry of the stack, up to the top, every address is at least
    as deep as what was popped. *)
Lemma chained_between ls (v : Z) popped parent rest :
  chained ls (popped ++ parent :: rest) →
  Forall (λ q, (v ≤ levelOf ls q)%Z) popped →
  ∀ top q, head (popped ++ parent :: rest) = Some top →
    parent < q ≤ top → (v ≤ levelOf ls q)%Z.
Proof.
  induction popped as [|a popped IH]; intros Hch Hpop top q Htop Hq.
  - injection Htop as <-. lia.
  - injection Htop as <-. apply Forall_cons in Hpop as [Ha Hpop].
    simpl in Hch. destruct (popped ++ parent :: rest) as [|b s] eqn:Hs;
      [by destruct popped|].
    destruct Hch as [(Hba&Hlt&Hbetween) Hch].
    destruct (decide (q = a)) as [->|Hqa]; [done|].
    destruct (decide (b < q)) as [Hbq|Hbq].
    + specialize (Hbetween q ltac:(lia)). lia.
    + apply (IH Hch Hpop b q eq_refl). lia.
Qed.

Lemma level_levelOf ls pre post st a c :
  ls = pre ++ post →
  payload <$> heap st = rootItem :: (nodeOf <$> pre) →
  heap st !! a = Some c → level (payload c) = levelOf ls a.
Proof.
  intros -> Hpay Hc.
  assert ((payload <$> heap st) !! a = Some (payload c)) as Ha
    by by rewrite list_lookup_fmap, Hc.
  rewrite Hpay in Ha. destruct a as [|i]; simpl in Ha.
  - by injection Ha as <-.
  - rewrite list_lookup_fmap in Ha. simpl.
    destruct (pre !! i) as [l|] eqn:Hl; [|done]. injection Ha as <-.
    by rewrite (lookup_app_l_Some _ _ _ _ Hl).
Qed.

Lemma folded_init ls : folded ls [] init.
Proof.
  split_and!; [apply inv_init|done..| |].
  - intros p c b Hc Hb. destruct p as [|p]; [|done].
    injection Hc as <-. by apply elem_of_nil in Hb.
  - by exists (Rose (0, rootItem) []).
Qed.

Lemma step_folded ls pre l post st :
  ls = pre ++ l :: post → folded ls pre st →
  ∃ st', step st l = Ok st' ∧ folded ls (pre ++ [l]) st'.
Proof.
  intros Hls (Hinv&Hpay&Hhd&Hch&Hnear&T0&HT0&Haddrs&Hspine).
  destruct (step_spec st l Hinv)
    as (popped&parent&rest&c&Hstack&Hpopped&Hc&Hlt&Hstep).
  destruct (step_inv st l Hinv) as (st'&Hst'&Hinv').
  rewrite Hstep in Hst'. injection Hst' as <-.
  eexists. split; [exact Hstep|].
  assert (Hn : length (heap st) = S (length pre)).
  { rewrite <- (length_fmap payload), Hpay. simpl. by rewrite length_fmap. }
  assert (Hlvn : levelOf ls (length (heap st)) = lineLevel l).
  { rewrite Hn, Hls. simpl. by rewrite list_lookup_middle. }
  assert (Hlv : ∀ a ca, heap st !! a = Some ca → level (payload ca) = levelOf ls a).
  { intros a ca. by apply (level_levelOf ls pre (l :: post)). }
  assert (Hplt : parent < length (heap st)) by by eapply lookup_lt_Some.
  assert (Hpn : nearestBelow ls parent (length (heap st))).
  { split_and!; [done| |].
    - rewrite Hlvn, <- (Hlv _ _ Hc). done.
    - intros q Hq. rewrite Hlvn.
      apply (chained_between ls _ popped parent rest) with (top := length pre).
      + by rewrite <- Hstack.
      + eapply Forall_impl; [exact Hpopped|]. intros q' (cq&Hcq&Hle).
        by rewrite <- (Hlv _ _ Hcq).
      + by rewrite <- Hstack.
      + lia. }
  split_and!; [done| | | | |]; cbn [heap stack].
  - apply list_eq. intros i. rewrite list_lookup_fmap, payload_push.
    rewrite <- list_lookup_fmap. unfold alloc.
    by rewrite !fmap_app, Hpay.
  - rewrite length_app. simpl. f_equal. lia.
  - cbn [chained]. split; [done|].
    rewrite Hstack in Hch. by apply chained_app_r in Hch.
  - intros p c' b. unfold push. rewrite list_lookup_alter.
    destruct (decide (parent = p)) as [<-|Hne].
    + rewrite lookup_alloc_lt, Hc by done. simpl. intros [= <-]. simpl.
      intros [Hb| ->%list_elem_of_singleton]%elem_of_app; [|done].
      by eapply Hnear.
    + intros Hc' Hb.
      destruct (decide (p < length (heap st))) as [Hp|Hp].
      * rewrite lookup_alloc_lt in Hc' by done. by eapply Hnear.
      * assert (p = length (heap st)) as ->.
        { apply lookup_lt_Some in Hc'. rewrite length_alloc in Hc'. lia. }
        rewrite lookup_alloc_eq in Hc'. injection Hc' as <-.
        by apply elem_of_nil in Hb.
  - exists (graft parent (Rose (length (heap st), nodeOf l) []) T0).
    rewrite length_push, length_alloc.
    split; [by apply reify_attach|].
    rewrite Hstack, reverse_app, reverse_cons, <- app_assoc in Hspine.
    destruct (graft_spine parent (length (heap st)) (nodeOf l) T0
                (reverse rest) (reverse popped)) as [Ha Hs].
    + by eapply count_seq.
    + exact Hspine.
    + split.
      * rewrite Ha, Haddrs. by rewrite seq_S.
      * rewrite Hs. by rewrite !reverse_cons, <- app_assoc.
Qed.

Lemma run_folded ls : ∃ st, forEach step init ls = Ok st ∧ folded ls ls st.
Proof.
  apply (forEach_prefix_invariant step (folded ls)).
  - apply folded_init.
  - intros pre l post st Hls Hst. by eapply step_folded.
Qed.

Lemma below_deeper v rest : Forall (λ l, (v < lineLevel l)%Z) (below v rest).
Proof.
  induction rest as [|l rest IH]; simpl; [done|].
  destruct (bool_decide _) eqn:Hl; [|done].
  apply bool_decide_eq_true in Hl. by constructor.
Qed.

Lemma below_split v rest :
  rest = below v rest
  ∨ ∃ e post, rest = below v rest ++ e :: post ∧ (lineLevel e ≤ v)%Z.
Proof.
  induction rest as [|l rest IH]; simpl; [by left|].
  destruct (bool_decide _) eqn:Hl.
  - destruct IH as [IH|(e&post&IH&He)].
    + left. by f_equal.
    + right. exists e, post. split; [|done]. simpl. by f_equal.
  - apply bool_decide_eq_false in Hl. right. exists l, rest. split; [done|lia].
Qed.

Lemma parseLines_below l0 rest :
  parseLines (l0 :: rest) = parseLines (l0 :: below (lineLevel l0) rest).
Proof.
  destruct (below_split (lineLevel l0) rest) as [Heq|(e&post&Heq&He)].
  - by rewrite <- Heq.
  - rewrite Heq at 1. apply parseLines_second_child; [apply below_deeper|done].
Qed.

(** The labels of a converted tree are the contents, node by node. *)
Lemma convert_labels T lv ix :
  (λ n, label (item n)) <$> nodes (convertToMindMap T lv ix)
  = (λ n, content (item n)) <$> nodes T.
Proof.
  revert lv ix. induction T as [it cs IH] using rose_ind'. intros lv ix.
  rewrite convert_unfold, !nodes_unfold, !fmap_cons. cbn [item label].
  f_equal. generalize 0. induction IH as [|c cs' Hc _ IHcs]; intros k; [done|].
  cbn [mapFrom]. rewrite !bind_cons, !fmap_app, Hc. f_equal. apply IHcs.
Qed.

(** When every line after the first is deeper than it: the whole outline
    is folded below the object of the first line. *)
Lemma run_fold l0 rest :
  Forall (λ l, (lineLevel l0 < lineLevel l)%Z) rest →
  ∃ st T1, forEach step init (l0 :: rest) = Ok st
    ∧ reify (length (heap st)) (heap st) 1 = Some T1
    ∧ parseLines (l0 :: rest) = Ok (convertToMindMap (rose_map snd T1) 0 0)
    ∧ addrs T1 = seq 1 (S (length rest))
    ∧ (λ n, (item n).2) <$> nodes T1 = nodeOf <$> (l0 :: rest)
    ∧ Forall (λ n, Forall (λ k, nearestBelow (l0 :: rest) (item n).1 (item k).1)
                      (children n)) (nodes T1).
Proof.
  intros Hdeep.
  destruct (run_deep l0 rest Hdeep) as (st&Hrun&(Hinv1&Hroot&_)).
  destruct (run_folded (l0 :: rest)) as (st'&Hrun'&Hfold).
  rewrite Hrun in Hrun'. injection Hrun' as <-.
  destruct Hfold as (Hinv&Hpay&_&_&Hnear&T0&HT0&Haddrs&_).
  destruct (parseLines_root (l0 :: rest) st [] Hrun Hinv Hroot) as (T1&HT1&Hparse).
  assert (Hlen : length (heap st) = S (S (length rest))).
  { rewrite <- (length_fmap payload), Hpay. simpl. by rewrite length_fmap. }
  assert (HaT1 : addrs T1 = seq 1 (S (length rest))).
  { apply reify_Some in HT0 as (b'&c0&ts&Hb&Hc0&Hts&->).
    rewrite Hroot in Hc0. injection Hc0 as <-. simpl in Hts.
    apply Forall2_cons_inv_l in Hts as (T1'&ts'&HT1'&Hnil&->).
    apply Forall2_nil_inv_l in Hnil as ->.
    apply (reify_mono _ (length (heap st))) in HT1'; [|lia].
    rewrite HT1 in HT1'. injection HT1' as <-.
    rewrite addrs_unfold, bind_singleton, Hlen in Haddrs.
    simpl in Haddrs. by injection Haddrs. }
  pose proof (reify_cells _ _ _ _ HT1) as Hcells.
  exists st, T1. split_and!; [done..| |].
  - apply list_eq. intros i.
    rewrite list_lookup_fmap.
    assert ((addrs T1) !! i = (λ n, (item n).1) <$> nodes T1 !! i) as Hai
      by (unfold addrs; by rewrite list_lookup_fmap).
    destruct (nodes T1 !! i) as [n|] eqn:Hn;
      cbn [fmap option_fmap option_map] in Hai |- *.
    + rewrite Forall_forall in Hcells.
      destruct (Hcells n) as (c&Hc&Hp&_); [by eapply list_elem_of_lookup_2|].
      rewrite HaT1 in Hai. apply lookup_seq in Hai as [Hai Hi].
      rewrite Hai in Hc.
      assert ((payload <$> heap st) !! (1 + i) = Some (payload c)) as Hpc
        by by rewrite list_lookup_fmap, Hc.
      rewrite Hpay in Hpc. simpl in Hpc. by rewrite Hp, <- Hpc.
    + symmetry. apply lookup_ge_None. apply lookup_ge_None in Hn.
      rewrite length_fmap. cbn [length].
      assert (length (nodes T1) = S (length rest)) as <-; [|done].
      change (length (nodes T1)) with (size T1).
      by rewrite size_addrs, HaT1, length_seq.
  - eapply Forall_impl; [exact Hcells|].
    intros n (c&Hc&_&Hkids). apply Forall_forall. intros k Hk.
    apply (Hnear _ c); [done|]. rewrite <- Hkids.
    by apply (list_elem_of_fmap_2 (λ k, (item k).1)).
Qed.

Lemma parseLines_fold l0 rest :
  Forall (λ l, (lineLevel l0 < lineLevel l)%Z) rest →
  ∃ T1, parseLines (l0 :: rest) = Ok (convertToMindMap (rose_map snd T1) 0 0)
    ∧ addrs T1 = seq 1 (S (length rest))
    ∧ (λ n, (item n).2) <$> nodes T1 = nodeOf <$> (l0 :: rest)
    ∧ Forall (λ n, Forall (λ k, nearestBelow (l0 :: rest) (item n).1 (item k).1)
                      (children n)) (nodes T1).
Proof.
  intros Hdeep. destruct (run_fold l0 rest Hdeep) as (st&T1&_&_&H).
  by exists T1.
Qed.


(** *** The place of every child *)

Lemma convert_child T d i j k :
  children (convertToMindMap T d i) !! j = Some k →
  item k
  = {| id := lit "node-" ++ JS.ofNat (S d) ++ lit "-" ++ JS.ofNat j;
       label := label (item k);
       position := {| x := (Z.of_nat (S d) * xSpacing)%Z;
                      y := (Z.of_nat j * ySpacing)%Z |} |}.
Proof.
  rewrite convert_children.
  assert (∀ (cs : list MarkdownNode) k0 j,
            mapFrom (λ child idx, convertToMindMap child (S d) idx) k0 cs !! j
            = Some k →
            ∃ c, k = convertToMindMap c (S d) (k0 + j)) as Hgen.
  { induction cs as [|c cs IH]; intros k0 j'; [done|]. simpl.
    destruct j' as [|j']; simpl.
    - intros [= <-]. exists c. by rewrite Nat.add_0_r.
    - intros Hk. destruct (IH _ _ Hk) as [c' ->]. exists c'.
      by rewrite Nat.add_succ_r. }
  intros Hk. destruct (Hgen _ _ _ Hk) as [c ->]. by rewrite !convert_item.
Qed.

End markdown_parser_facts.

(** ** The parser of the application *)

Section app_facts.
Import App.
Implicit Types (st : state) (h : list (cell NodeDataItem))
  (counts : gmap str nat).

Lemma ainv_init : ainv init.
Proof. split_and!; [by intros [|a] c|done..]. Qed.

Lemma step_handled counts st line :
  ainv st → ∃ st', step counts st line = Ok st' ∧ handled counts st line st'.
Proof.
  intros (Hwf&Hlast&Hroot). unfold step.
  destruct (decide (JS.headingLevel line = 0)) as [H0|H0].
  { exists st. split; [done|]. by constructor. }
  destruct (parseLine line) as [[lbl col] edge] eqn:Hparse.
  unfold yPositionOf.
  destruct (decide (JS.headingLevel line = 1)) as [H1|H1].
  { cbn [mbind outcome_bind]. eexists. split; [done|].
    replace {| id := _ |} with (entry line (Fin (ySpacing * 2))).
    - by constructor.
    - unfold entry. by rewrite Hparse, H1. }
  unfold parentAt.
  destruct (lastNodeAtLevel st !! (JS.headingLevel line - 1)) as [p|] eqn:Hp.
  - destruct (lookup_lt_is_Some_2 (heap st) p (Hlast _ _ Hp)) as [c Hc].
    rewrite Hc. cbn [mbind outcome_bind fetch fmap option_fmap option_map default].
    change (Datatypes.id (length (kids c))) with (length (kids c)).
    assert ((if decide (length (kids c) = 0)
             then Ok (numSub (parentY (Some c)) (Fin ySpacing))
             else Ok (numAdd (parentY (Some c))
                        (Fin (Z.of_nat (length (kids c)) * ySpacing))))
            = Ok (yrel (y (position (payload c))) (length (kids c)))) as ->.
    { unfold yrel. by destruct (decide (length (kids c) = 0)). }
    cbn [mbind outcome_bind]. eexists. split; [done|].
    replace {| id := _ |}
      with (entry line (yrel (y (position (payload c))) (length (kids c)))).
    + apply Child; [lia|done..].
    + unfold entry. by rewrite Hparse.
  - cbn [mbind outcome_bind fetch fmap option_fmap option_map default].
    destruct (decide (0 = 0)); [|done].
    cbn [mbind outcome_bind]. eexists. split; [done|].
    replace {| id := _ |} with (entry line NaN).
    + apply Orphan; [lia|done].
    + unfold entry. by rewrite Hparse.
Qed.

Lemma handled_length counts st line st' :
  handled counts st line st' →
  length (heap st') = length (heap st) + (if decide (JS.headingLevel line = 0) then 0 else 1).
Proof.
  destruct 1 as [H0|H1|H2 Hp|p c H2 Hp Hc]; simpl;
    destruct (decide (JS.headingLevel line = 0)); try lia;
    unfold push; rewrite ?length_alter, length_alloc; lia.
Qed.

Lemma handled_ainv counts st line st' :
  ainv st → handled counts st line st' → ainv st'.
Proof.
  intros (Hwf&Hlast&Hroot) Hh.
  assert (Hins : ∀ (K : nat) (m : gmap nat nat) L a,
            (∀ L a, m !! L = Some a → a < length (heap st)) →
            <[K := length (heap st)]> m !! L = Some a → a < S (length (heap st))).
  { intros K m L a Hm. rewrite lookup_insert.
    destruct (decide (K = L)); [intros [= <-]; lia|]. intros ?%Hm. lia. }
  destruct Hh as [H0|H1|H2 Hp|p c H2 Hp Hc]; [done|..]; simpl.
  - split_and!; simpl; [by apply wf_alloc|..]; rewrite length_alloc.
    + intros L a. by apply Hins.
    + intros a [= <-]. lia.
  - split_and!; simpl; [by apply wf_alloc|..]; rewrite length_alloc.
    + intros L a. by apply Hins.
    + intros a ?%Hroot. lia.
  - assert (p < length (heap st)) by by eapply lookup_lt_Some.
    split_and!; simpl.
    + apply wf_push; [by apply wf_alloc|]. rewrite length_alloc. lia.
    + unfold push. rewrite length_alter, length_alloc. intros L a. by apply Hins.
    + unfold push. rewrite length_alter, length_alloc. intros a ?%Hroot. lia.
Qed.

(** *** What every object keeps *)

Lemma rinv_init ls : rinv ls init.
Proof. split_and!; [apply ainv_init|by intros [|a] c|done..]. Qed.

Lemma laidOut_leaf ls line yPos :
  line ∈ ls → JS.headingLevel line ≠ 0 → laidOut ls (entry line yPos) [].
Proof.
  intros Hin H0. split_and!.
  - by exists line, yPos.
  - constructor.
  - by intros i k.
Qed.

Lemma itemAt_alloc_lt it h a : a < length h → itemAt (alloc it h) a = itemAt h a.
Proof. intros. unfold itemAt. by rewrite lookup_alloc_lt. Qed.

Lemma itemAt_alloc_eq it h : itemAt (alloc it h) (length h) = Some it.
Proof. unfold itemAt. by rewrite lookup_alloc_eq. Qed.

Lemma itemAt_push p n h a : itemAt (push p n h) a = itemAt h a.
Proof. apply payload_push. Qed.

Lemma itemAt_lt h a it : itemAt h a = Some it → a < length h.
Proof.
  unfold itemAt. destruct (h !! a) eqn:E; [|done]. intros _.
  by eapply lookup_lt_Some.
Qed.

Lemma handled_rinv ls counts st line st' :
  line ∈ ls → rinv ls st → handled counts st line st' → rinv ls st'.
Proof.
  intros Hin (Hainv&Hsto&Hlast&Hroot) Hh.
  split; [by eapply handled_ainv|].
  pose proof Hainv as (Hwf&_&_).
  (* existing objects keep their items *)
  assert (Hkeep : ∀ (P : NodeDataItem → Prop) it0 a,
            (∃ it, itemAt (heap st) a = Some it ∧ P it) →
            ∃ it, itemAt (alloc it0 (heap st)) a = Some it ∧ P it).
  { intros P it0 a (it&Hit&HP). exists it. split; [|done].
    rewrite itemAt_alloc_lt; [done|]. by eapply itemAt_lt. }
  destruct Hh as [H0|H1|H2 Hp|p c H2 Hp Hc]; [done|..]; simpl.
  - split_and!; simpl.
    + apply stored_alloc; [done..|]. apply laidOut_leaf; [done|lia].
    + intros L a. rewrite lookup_insert.
      destruct (decide (1 = L)) as [<-|_];
        [|intros Ha; apply Hkeep; by apply Hlast].
      intros [= <-]. eexists. split; [apply itemAt_alloc_eq|]. simpl.
      by rewrite H1.
    + intros a [= <-]. eexists. split; [apply itemAt_alloc_eq|]. simpl.
      rewrite H1. split; [|done]. unfold xSpacing. lia.
  - split_and!; simpl.
    + apply stored_alloc; [done..|]. apply laidOut_leaf; [done|lia].
    + intros L a. rewrite lookup_insert.
      destruct (decide (JS.headingLevel line = L)) as [<-|_];
        [|intros Ha; apply Hkeep; by apply Hlast].
      intros [= <-]. eexists. split; [apply itemAt_alloc_eq|done].
    + intros a Ha. apply Hkeep. by apply Hroot.
  - assert (p < length (heap st)) by by eapply lookup_lt_Some.
    split_and!; simpl.
    + apply stored_attach; [done..| |].
      { apply laidOut_leaf; [done|lia]. }
      intros c' xs Hc' Hxs (Hl&Hx&Hy). rewrite Hc in Hc'. injection Hc' as <-.
      split_and!; [done| |].
      * apply Forall_app. split; [done|]. repeat constructor. simpl.
        destruct (Hlast _ _ Hp) as (it&Hit&Hxit).
        unfold itemAt in Hit. rewrite Hc in Hit. injection Hit as <-.
        rewrite Hxit. unfold xSpacing. lia.
      * intros i k. apply Forall2_length in Hxs.
        intros [Hk|[Hi Hk]]%lookup_app_Some; [by apply Hy|].
        destruct (i - length xs) as [|j] eqn:Hj; [|done].
        simpl in Hk. injection Hk as <-. simpl.
        f_equal. lia.
    + intros L a. rewrite lookup_insert.
      destruct (decide (JS.headingLevel line = L)) as [<-|_].
      * intros [= <-]. eexists.
        split; [by rewrite itemAt_push, itemAt_alloc_eq|done].
      * intros (it&Hit&Hx)%Hlast. exists it. split; [|done].
        rewrite itemAt_push, itemAt_alloc_lt; [done|]. by eapply itemAt_lt.
    + intros a (it&Hit&Hx)%Hroot. exists it. split; [|done].
      rewrite itemAt_push, itemAt_alloc_lt; [done|]. by eapply itemAt_lt.
Qed.

(** *** Whole runs *)

Lemma step_rinv ls counts st line :
  line ∈ ls → rinv ls st → ∃ st', step counts st line = Ok st' ∧ rinv ls st'.
Proof.
  intros Hin Hinv. destruct (step_handled counts st line) as (st'&Hst&Hh).
  { by destruct Hinv. }
  exists st'. split; [done|]. by eapply handled_rinv.
Qed.

Lemma run_rinv counts ls :
  ∃ st, forEach (step counts) init ls = Ok st ∧ rinv ls st.
Proof.
  apply (forEach_invariant_on (step counts) (λ l, l ∈ ls) (rinv ls)).
  - intros st l. apply step_rinv.
  - by apply Forall_forall.
  - apply rinv_init.
Qed.

(** The run never fails; what [root] refers to is laid out. *)
Lemma rootTree_laidOut ls :
  ∃ o, rootTree ls = Ok o
       ∧ ∀ t, o = Some t →
           everywhere (λ it ks, laidOut ls it.2 (snd <$> ks)) t
           ∧ x (position (item t).2) = xSpacing
           ∧ y (position (item t).2) = Fin (ySpacing * 2).
Proof.
  unfold rootTree.
  destruct (run_rinv (foldl countChildren ∅ ls) ls)
    as (st&Hrun&(Hwf&_&Hr)&Hsto&_&Hroot).
  rewrite Hrun. cbn [mbind outcome_bind].
  destruct (root st) as [a|] eqn:Ha; [|by eexists].
  destruct (reify_total (heap st) a Hwf (Hr a eq_refl)) as [t Ht].
  unfold readBack. rewrite Ht. cbn [fetch mbind outcome_bind].
  eexists. split; [done|]. intros ? [= <-]. split.
  - by eapply reify_everywhere.
  - destruct (Hroot a eq_refl) as (it&Hit&Hx&Hy).
    apply reify_root in Ht as (c&Hc&->). unfold itemAt in Hit.
    rewrite Hc in Hit. injection Hit as <-. done.
Qed.

Lemma parseLines_laidOut ls :
  ∃ t, parseLines ls = Ok t
       ∧ (t = fallback
          ∨ everywhere (laidOut ls) t
            ∧ x (position (item t)) = xSpacing
            ∧ y (position (item t)) = Fin (ySpacing * 2)).
Proof.
  unfold parseLines. destruct (rootTree_laidOut ls) as (o&Ho&Hprop).
  rewrite Ho. cbn [mbind outcome_bind]. eexists. split; [done|].
  destruct o as [t|]; [right|by left].
  destruct (Hprop t eq_refl) as (Hev&Hx&Hy). rewrite rose_map_item.
  split; [|done]. by apply everywhere_rose_map.
Qed.

(** Without a line of level one [root] stays [null]. *)
Lemma run_no_root counts ls :
  Forall (λ l, JS.headingLevel l ≠ 1) ls →
  ∃ st, forEach (step counts) init ls = Ok st ∧ root st = None.
Proof.
  intros Hls.
  destruct (forEach_invariant_on (step counts) (λ l, JS.headingLevel l ≠ 1)
              (λ st, ainv st ∧ root st = None)) with (ls := ls) (st := init)
    as (st&Hrun&_&Hroot); [|done|split; [apply ainv_init|done]|by exists st].
  intros st l Hl [Hinv Hroot].
  destruct (step_handled counts st l Hinv) as (st'&Hst&Hh).
  exists st'. split; [done|]. split; [by eapply handled_ainv|].
  by destruct Hh.
Qed.

Lemma parseLines_fallback ls :
  Forall (λ l, JS.headingLevel l ≠ 1) ls → parseLines ls = Ok fallback.
Proof.
  intros Hls. unfold parseLines, rootTree.
  destruct (run_no_root (foldl countChildren ∅ ls) ls Hls) as (st&Hrun&Hroot).
  rewrite Hrun. cbn [mbind outcome_bind]. by rewrite Hroot.
Qed.

(** *** Coordinates in a laid-out tree *)

Lemma yrel_Fin v i : ∃ w, yrel (Fin v) i = Fin w.
Proof. unfold yrel. destruct (decide (i = 0)); simpl; by eexists. Qed.

Lemma yrel_inj v : Inj (=) (=) (yrel (Fin v)).
Proof.
  intros i j. unfold yrel, ySpacing.
  destruct (decide (i = 0)), (decide (j = 0)); simpl; intros H;
    inversion H; lia.
Qed.

(** Below a node with a finite [y], siblings never share their [y]. *)
Lemma spread_apart (t : NodeDataType) v :
  everywhere childrenSpread t → y (position (item t)) = Fin v →
  everywhere (λ _ ks, NoDup ((λ k, y (position k)) <$> ks)) t.
Proof.
  revert v. induction t as [it ts IH] using rose_ind'. intros v Hev Hy.
  pose proof (everywhere_root _ _ Hev) as Hroot. simpl in Hroot, Hy.
  assert (Hys : (λ k, y (position k)) <$> (item <$> ts)
                = yrel (Fin v) <$> seq 0 (length ts)).
  { apply list_eq. intros i. rewrite !list_lookup_fmap.
    destruct (ts !! i) as [t'|] eqn:Ht'; simpl.
    - rewrite lookup_seq_lt by by eapply lookup_lt_Some. simpl. f_equal.
      rewrite <- Hy. apply Hroot. by rewrite list_lookup_fmap, Ht'.
    - apply lookup_ge_None in Ht'. by rewrite lookup_seq_ge. }
  unfold everywhere. rewrite nodes_unfold. constructor.
  - simpl. rewrite Hys. apply NoDup_fmap_2; [apply yrel_inj|apply NoDup_seq].
  - apply Forall_bind. rewrite Forall_forall in IH |- *. intros t' Ht'.
    destruct (list_elem_of_lookup_1 _ _ Ht') as [i Hi].
    destruct (yrel_Fin v i) as [w Hw].
    apply (IH t' Ht' w).
    + eapply everywhere_child; [exact Hev|done].
    + rewrite <- Hw, <- Hy. apply Hroot. by rewrite list_lookup_fmap, Hi.
Qed.

(** *** Well-formed outlines: every object hangs below the root *)

Lemma handled_span counts m st line st' :
  span m st → handled counts st line st' →
  JS.headingLevel line = 0 ∨ 2 ≤ JS.headingLevel line ≤ S m →
  span (if decide (JS.headingLevel line = 0) then m else JS.headingLevel line) st'.
Proof.
  intros (Hinv&Hroot&Hm&Hlast&T&HT&Hsize&Hcount) Hh Hlv.
  pose proof (handled_ainv _ _ _ _ Hinv Hh) as Hinv'.
  destruct Hh as [H0|H1|H2 Hp|p c H2 Hp Hc].
  - rewrite decide_True by done. by split_and!; [..|exists T].
  - lia.
  - destruct (Hlast (JS.headingLevel line - 1)) as [a Ha]; [lia|congruence].
  - rewrite decide_False by lia.
    assert (Hplt : p < length (heap st)) by by eapply lookup_lt_Some.
    split_and!; [done..|lia| |]; simpl.
    + intros L HL. rewrite lookup_insert.
      destruct (decide (JS.headingLevel line = L)); [done|].
      apply Hlast. lia.
    + exists (graft p (Rose (length (heap st), entry line
                  (yrel (y (position (payload c))) (length (kids c)))) []) T).
      rewrite length_push, length_alloc. split_and!.
      * by apply reify_attach.
      * rewrite size_graft, Hcount by done. lia.
      * intros a Ha. rewrite count_graft.
        destruct (decide (a = length (heap st))) as [->|Hne].
        -- rewrite (count_outside _ _ _ _ _ HT) by lia. rewrite Hcount; lia.
        -- rewrite Hcount; lia.
Qed.

Lemma headingLevels_cons l ls :
  headingLevels (l :: ls)
  = if decide (JS.headingLevel l = 0) then headingLevels ls
    else JS.headingLevel l :: headingLevels ls.
Proof.
  unfold headingLevels. rewrite fmap_cons, filter_cons.
  destruct (decide (JS.headingLevel l ≠ 0)), (decide (JS.headingLevel l = 0));
    done.
Qed.

Lemma headingLevels_app ls1 ls2 :
  headingLevels (ls1 ++ ls2) = headingLevels ls1 ++ headingLevels ls2.
Proof. unfold headingLevels. by rewrite fmap_app, filter_app. Qed.

Lemma run_span counts ls : ∀ m st,
  span m st → nestedFrom m (headingLevels ls) = true →
  ∃ st' m', forEach (step counts) st ls = Ok st' ∧ span m' st'
    ∧ length (heap st') = length (heap st) + length (headingLevels ls).
Proof.
  induction ls as [|l ls IH]; intros m st Hspan Hn.
  { exists st, m. split_and!; [done..|simpl; lia]. }
  rewrite headingLevels_cons in Hn |- *.
  destruct (step_handled counts st l) as (st1&Hst&Hh); [by destruct Hspan|].
  pose proof (handled_length _ _ _ _ Hh) as Hlen.
  rewrite forEach_cons, Hst. cbn [mbind outcome_bind].
  destruct (decide (JS.headingLevel l = 0)) as [H0|H0].
  - destruct (IH m st1) as (st'&m'&Hrun&Hspan'&Hlen'); [|done|].
    { pose proof (handled_span _ _ _ _ _ Hspan Hh (or_introl H0)) as Hs.
      by rewrite decide_True in Hs. }
    exists st', m'. split_and!; [done..|lia].
  - cbn [nestedFrom] in Hn. apply andb_true_iff in Hn as [Hb Hn].
    apply andb_true_iff in Hb as [Hb1 Hb2].
    apply Nat.leb_le in Hb1, Hb2.
    destruct (IH (JS.headingLevel l) st1) as (st'&m'&Hrun&Hspan'&Hlen'); [|done|].
    { pose proof (handled_span _ _ _ _ _ Hspan Hh (or_intror (conj Hb1 Hb2))) as Hs.
      by rewrite decide_False in Hs. }
    exists st', m'. split_and!; [done..|simpl; lia].
Qed.

Lemma run_wellFormed counts ls :
  wellFormed (headingLevels ls) = true →
  ∃ st m, forEach (step counts) init ls = Ok st ∧ span m st
    ∧ length (heap st) = length (headingLevels ls).
Proof.
  induction ls as [|l ls IH]; [done|]. rewrite headingLevels_cons.
  destruct (step_handled counts init l ainv_init) as (st1&Hst&Hh).
  rewrite forEach_cons, Hst. cbn [mbind outcome_bind].
  destruct (decide (JS.headingLevel l = 0)) as [H0|H0].
  - intros Hwf. destruct Hh as [_|H1|H2 Hp|p c H2 Hp Hc]; [by apply IH|lia..].
  - simpl. destruct (JS.headingLevel l) as [|[|L]] eqn:HL; [done| |done].
    intros Hn. pose proof (handled_ainv _ _ _ _ ainv_init Hh) as Hinv1.
    destruct Hh as [?|_|H2 Hp|p c H2 Hp Hc]; [lia| |lia..].
    lazymatch goal with
    | |- ∃ st m, forEach _ ?s _ = _ ∧ _ =>
        destruct (run_span counts ls 1 s) as (st'&m'&Hrun&Hspan'&Hlen');
          [|exact Hn|]
    end.
    + split_and!; [done|done|done| |].
      * intros L HL'. assert (L = 1) as -> by lia. simpl.
        by rewrite lookup_insert_eq.
      * eexists. split_and!; [done|done|].
        intros a Ha. simpl in Ha. assert (a = 0) as -> by lia. done.
    + exists st', m'. split_and!; [done..|]. rewrite Hlen'. simpl. lia.
Qed.

(** One node for every heading line. *)
Lemma app_parseLines_wellFormed ls :
  wellFormed (headingLevels ls) = true →
  ∃ t, parseLines ls = Ok t ∧ size t = length (headingLevels ls).
Proof.
  intros Hwf. unfold parseLines, rootTree.
  destruct (run_wellFormed (foldl countChildren ∅ ls) ls Hwf)
    as (st&m&Hrun&(_&Hroot&_&_&T&HT&Hsize&_)&Hlen).
  rewrite Hrun. cbn [mbind outcome_bind]. rewrite Hroot.
  unfold readBack. rewrite HT. cbn [fetch mbind outcome_bind].
  eexists. split; [done|]. rewrite size_rose_map. lia.
Qed.

(** *** Orphans *)

Lemma handled_hidden S counts st line st' :
  hidden S st → handled counts st line st' → hidden S st'.
Proof.
  intros (Hinv&Hroot&Hout&Hin) Hh.
  split; [by eapply handled_ainv|].
  assert (Hnew : ¬ S (length (heap st))).
  { intros ?%Hin. lia. }
  assert (Halloc : ∀ it a c, alloc it (heap st) !! a = Some c → ¬ S a →
            Forall (λ k, ¬ S k) (kids c)).
  { intros it a c [Hc|[_ Hc]]%lookup_app_Some; [by apply Hout|].
    destruct (a - length (heap st)); [|done]. injection Hc as <-. constructor. }
  destruct Hh as [H0|H1|H2 Hp|p c H2 Hp Hc]; [done|..]; simpl.
  - split_and!; simpl.
    + by intros a [= <-].
    + apply Halloc.
    + intros a ?%Hin. rewrite length_alloc. lia.
  - split_and!; simpl; [done|apply Halloc|].
    intros a ?%Hin. rewrite length_alloc. lia.
  - split_and!; simpl; [done| |].
    + intros a c'. unfold push. rewrite list_lookup_alter.
      destruct (decide (p = a)) as [<-|]; [|apply Halloc].
      destruct (alloc _ _ !! p) as [c0|] eqn:Hc0; [|done].
      intros [= <-] Hp'. simpl. apply Forall_app. split; [|by repeat constructor].
      by eapply Halloc.
    + intros a ?%Hin. rewrite length_push, length_alloc. lia.
Qed.

Lemma run_hidden S counts ls st :
  hidden S st → ∃ st', forEach (step counts) st ls = Ok st' ∧ hidden S st'.
Proof.
  apply forEach_invariant. clear st. intros st l Hh.
  destruct (step_handled counts st l) as (st'&Hst&Hhd); [by destruct Hh|].
  exists st'. split; [done|]. by eapply handled_hidden.
Qed.

(** A line of level [L > 1] met while no object is recorded at level
    [L - 1]. *)
Lemma orphan_step counts st l1 :
  ainv st →
  2 ≤ JS.headingLevel l1 →
  lastNodeAtLevel st !! (JS.headingLevel l1 - 1) = None →
  ∃ st1,
    step counts st l1 = Ok st1
    ∧ heap st1 = alloc (entry l1 NaN) (heap st)
    ∧ lastNodeAtLevel st1 !! JS.headingLevel l1 = Some (length (heap st))
    ∧ hidden (λ a, a = length (heap st)) st1.
Proof.
  intros Hinv HL Hnone.
  destruct (step_handled counts st l1 Hinv) as (st1&Hst1&Hh1).
  pose proof (handled_ainv _ _ _ _ Hinv Hh1) as Hinv1.
  destruct Hh1 as [?|?|_ _|p c _ Hp _]; [lia|lia| |congruence].
  eexists. split_and!; [exact Hst1|done|apply lookup_insert_eq|].
  destruct Hinv as (Hwf&_&Hroot).
  split_and!; simpl; [done| | |].
  - intros a Ha%Hroot. lia.
  - intros a c [Hc|[_ Hc]]%lookup_app_Some _.
    + eapply Forall_impl; [exact (Hwf a c Hc)|]. simpl. lia.
    + destruct (a - length (heap st)); [|done]. injection Hc as <-. constructor.
  - intros a ->. rewrite length_alloc. lia.
Qed.

(** As long as no line of level [L] is met, the object recorded at level
    [L] stays recorded there, and it keeps its fields. *)
Lemma handled_recorded counts L n it st line st' :
  ainv st → JS.headingLevel line ≠ L →
  lastNodeAtLevel st !! L = Some n →
  (∃ c, heap st !! n = Some c ∧ payload c = it) →
  handled counts st line st' →
  lastNodeAtLevel st' !! L = Some n
  ∧ ∃ c, heap st' !! n = Some c ∧ payload c = it.
Proof.
  intros (_&Hlast&_) Hne Hn (c0&Hc0&Hit) Hh.
  pose proof (Hlast _ _ Hn) as Hlt.
  destruct Hh as [H0|H1|H2 Hp|p c H2 Hp Hc]; simpl.
  - eauto.
  - rewrite lookup_insert_ne by lia. split; [done|].
    exists c0. by rewrite lookup_alloc_lt.
  - rewrite lookup_insert_ne by done. split; [done|].
    exists c0. by rewrite lookup_alloc_lt.
  - rewrite lookup_insert_ne by done. split; [done|].
    unfold push. rewrite list_lookup_alter.
    destruct (decide (p = n)) as [->|_]; rewrite lookup_alloc_lt, Hc0 by done;
      eexists; (split; [done|]); done.
Qed.

Lemma run_recorded counts L n it mid : ∀ st,
  Forall (λ l, JS.headingLevel l ≠ L) mid →
  hidden (λ a, a = n) st →
  lastNodeAtLevel st !! L = Some n →
  (∃ c, heap st !! n = Some c ∧ payload c = it) →
  ∃ st', forEach (step counts) st mid = Ok st'
    ∧ hidden (λ a, a = n) st'
    ∧ lastNodeAtLevel st' !! L = Some n
    ∧ ∃ c, heap st' !! n = Some c ∧ payload c = it.
Proof.
  intros st Hmid Hhid Hn Hc.
  apply (forEach_invariant_on (step counts) (λ l, JS.headingLevel l ≠ L)
           (λ st, hidden (λ a, a = n) st
                  ∧ lastNodeAtLevel st !! L = Some n
                  ∧ ∃ c, heap st !! n = Some c ∧ payload c = it));
    [|done|done].
  clear. intros st l Hne (Hhid&Hn&Hc).
  destruct (step_handled counts st l) as (st'&Hst&Hh); [by destruct Hhid|].
  exists st'. split; [done|]. split; [by eapply handled_hidden|].
  eapply handled_recorded; try done. by destruct Hhid.
Qed.

(** A line of level [L + 1] met while an object that nothing refers to is
    recorded at level [L]. *)
Lemma orphan_child_step counts st L n l2 :
  hidden (λ a, a = n) st →
  1 ≤ L →
  lastNodeAtLevel st !! L = Some n →
  JS.headingLevel l2 = S L →
  ∃ st2 c,
    step counts st l2 = Ok st2
    ∧ heap st !! n = Some c
    ∧ heap st2 !! n = Some (Cell (payload c) (kids c ++ [length (heap st)]))
    ∧ hidden (λ a, a = n ∨ a = length (heap st)) st2.
Proof.
  intros (Hinv&Hroot&Hout&Hin) HL Hn Hl2.
  destruct (step_handled counts st l2 Hinv) as (st2&Hst2&Hh2).
  pose proof (handled_ainv _ _ _ _ Hinv Hh2) as Hinv2.
  pose proof (Hin n eq_refl) as Hlt.
  destruct Hh2 as [?|?|_ Hp|p c _ Hp Hc]; [lia|lia|..];
    rewrite Hl2 in Hp; simpl in Hp; rewrite Nat.sub_0_r, Hn in Hp; [done|].
  injection Hp as <-. eexists _, c. split_and!; [exact Hst2|done|..].
  - simpl. unfold push.
    by rewrite list_lookup_alter_eq, lookup_alloc_lt, Hc by done.
  - split_and!; simpl; [done| | |].
    + intros a Ha [->| ->]; [by eapply Hroot|].
      destruct Hinv as (_&_&Hr). apply Hr in Ha. lia.
    + intros a c'. unfold push. rewrite list_lookup_alter.
      destruct (decide (n = a)) as [<-|Hne]; [tauto|].
      intros [Hc'|[Hge Hc']]%lookup_app_Some Ha.
      * destruct Hinv as (Hwf&_).
        pose proof (Hwf a c' Hc') as Hk. pose proof (Hout a c' Hc') as Hk'.
        rewrite Forall_forall in Hk, Hk'. apply Forall_forall.
        intros k Hin' [->| ->]; [by eapply Hk'; [congruence|exact Hin'|]|].
        specialize (Hk _ Hin'). lia.
      * apply lookup_lt_Some in Hc'. simpl in Hc'.
        assert (a = length (heap st)) by lia. tauto.
    + intros a [->| ->]; rewrite length_push, length_alloc; lia.
Qed.

(** *** Depth and [x] *)

Lemma laidOut_depth ls (t : NodeDataType) d n :
  everywhere (laidOut ls) t → x (position (item t)) = xSpacing →
  (d, n) ∈ walk 0 t →
  x (position (item n)) = ((Z.of_nat d + 1) * xSpacing)%Z.
Proof.
  intros Hev Hx Hn.
  destruct (walk_affine (λ it, x (position it)) xSpacing t 0 d n) as [_ ->];
    [|done|].
  - eapply everywhere_impl; [|exact Hev]. by intros it ks (_&Hr&_).
  - rewrite Hx. lia.
Qed.

(** *** Where a heading is attached *)

Lemma step_attach counts st line :
  ainv st → 2 ≤ JS.headingLevel line →
  ∃ st', step counts st line = Ok st'
    ∧ match lastNodeAtLevel st !! (JS.headingLevel line - 1) with
      | Some p =>
          ∃ c it, heap st !! p = Some c
            ∧ heap st' = push p (length (heap st)) (alloc it (heap st))
            ∧ heap st' !! p = Some (Cell (payload c) (kids c ++ [length (heap st)]))
      | None => ∃ it, heap st' = alloc it (heap st)
      end.
Proof.
  intros Hinv HL. destruct (step_handled counts st line Hinv) as (st'&Hst&Hh).
  exists st'. split; [done|].
  destruct Hh as [?|?|_ Hp|p c _ Hp Hc]; [lia|lia|..]; rewrite Hp; simpl.
  - by eexists.
  - exists c. eexists. split_and!; [done..|].
    unfold push. rewrite list_lookup_alter_eq, lookup_alloc_lt, Hc; [done|].
    by eapply lookup_lt_Some.
Qed.

Lemma run_ainv counts ls :
  ∃ st, forEach (step counts) init ls = Ok st ∧ ainv st.
Proof. destruct (run_rinv counts ls) as (st&Hrun&Hinv&_). by exists st. Qed.

(** *** Orphans in a whole run *)

Lemma run_heap_length counts ls : ∀ st st',
  ainv st → forEach (step counts) st ls = Ok st' →
  length (heap st') = length (heap st) + length (headingLevels ls).
Proof.
  induction ls as [|l ls IH]; intros st st' Hinv.
  - intros [= <-]. simpl. lia.
  - destruct (step_handled counts st l Hinv) as (st1&Hst&Hh).
    rewrite forEach_cons, Hst. cbn [mbind outcome_bind]. intros Hrun.
    rewrite (IH st1 st' (handled_ainv _ _ _ _ Hinv Hh) Hrun).
    rewrite (handled_length _ _ _ _ Hh), headingLevels_cons.
    destruct (decide (JS.headingLevel l = 0)); simpl; lia.
Qed.

Lemma hidden_rootTree (S : nat → Prop) ls pre post st :
  ls = pre ++ post →
  forEach (step (foldl countChildren ∅ ls)) init pre = Ok st →
  hidden S st →
  ∃ o, rootTree ls = Ok o ∧ ∀ t, o = Some t → Forall (λ a, ¬ S a) (addrs t).
Proof.
  intros Hls Hrun Hhid.
  destruct (run_hidden _ (foldl countChildren ∅ ls) post st Hhid)
    as (st3&Hrun3&(Hinv3&Hroot3&Hout3&_)).
  unfold rootTree. cbv zeta.
  revert Hrun Hrun3. generalize (foldl countChildren ∅ ls). subst ls.
  intros counts Hrun Hrun3.
  rewrite forEach_app, Hrun. cbn [mbind outcome_bind]. rewrite Hrun3.
  cbn [mbind outcome_bind].
  destruct (root st3) as [r|] eqn:Hr; [|by eexists].
  destruct Hinv3 as (Hwf&_&Hroot).
  destruct (reify_total (heap st3) r Hwf (Hroot r Hr)) as [t Ht].
  unfold readBack. rewrite Ht. cbn [fetch mbind outcome_bind].
  eexists. split; [done|]. intros ? [= <-].
  eapply reify_avoids; [exact Hout3|by apply Hroot3|exact Ht].
Qed.

Lemma orphan_run counts pre l1 :
  2 ≤ JS.headingLevel l1 →
  lastRecorded counts pre (JS.headingLevel l1 - 1) = None →
  ∃ st1,
    forEach (step counts) init (pre ++ [l1]) = Ok st1
    ∧ heap st1 !! length (headingLevels pre) = Some (Cell (entry l1 NaN) [])
    ∧ (∀ a c, heap st1 !! a = Some c → length (headingLevels pre) ∉ kids c)
    ∧ lastNodeAtLevel st1 !! JS.headingLevel l1 = Some (length (headingLevels pre))
    ∧ hidden (λ a, a = length (headingLevels pre)) st1.
Proof.
  intros HL Hnone. unfold lastRecorded in Hnone.
  destruct (run_ainv counts pre) as (st&Hrun&Hinv). rewrite Hrun in Hnone.
  pose proof (run_heap_length counts pre init st ainv_init Hrun) as Hlen.
  simpl in Hlen. rewrite <- Hlen.
  destruct (orphan_step counts st l1 Hinv HL Hnone) as (st1&Hst1&Hh1&Hlast1&Hhid).
  exists st1. split_and!; [| | |done..].
  - rewrite forEach_app, Hrun. cbn [mbind outcome_bind forEach]. by rewrite Hst1.
  - by rewrite Hh1, lookup_alloc_eq.
  - intros a c. rewrite Hh1. destruct Hinv as (Hwf&_).
    intros [Hc|[_ Hc]]%lookup_app_Some Hin.
    + pose proof (Hwf a c Hc) as Hk. rewrite Forall_forall in Hk.
      specialize (Hk _ Hin). lia.
    + destruct (a - length (heap st)); [|done]. injection Hc as <-.
      by apply elem_of_nil in Hin.
Qed.

Lemma orphan_child_run counts st1 L n it mid l2 :
  hidden (λ a, a = n) st1 →
  1 ≤ L →
  lastNodeAtLevel st1 !! L = Some n →
  (∃ c, heap st1 !! n = Some c ∧ payload c = it) →
  Forall (λ l, JS.headingLevel l ≠ L) mid →
  JS.headingLevel l2 = S L →
  ∃ st2 c,
    forEach (step counts) st1 (mid ++ [l2]) = Ok st2
    ∧ heap st2 !! n = Some c
    ∧ payload c = it
    ∧ last (kids c) = Some (length (heap st1) + length (headingLevels mid))
    ∧ hidden (λ a, a = n ∨ a = length (heap st1) + length (headingLevels mid)) st2.
Proof.
  intros Hhid HL Hn Hc Hmid Hl2.
  destruct (run_recorded counts L n it mid st1 Hmid Hhid Hn Hc)
    as (st'&Hrun&Hhid'&Hn'&c'&Hc'&Hit).
  pose proof (run_heap_length counts mid st1 st' (proj1 Hhid) Hrun) as Hlen.
  destruct (orphan_child_step counts st' L n l2 Hhid' HL Hn' Hl2)
    as (st2&c&Hst2&Hc0&Hc2&Hhid2).
  rewrite Hlen in Hc2, Hhid2.
  rewrite Hc' in Hc0. injection Hc0 as <-.
  eexists st2, _. split_and!; [|exact Hc2|done|apply last_snoc|done].
  rewrite forEach_app, Hrun. cbn [mbind outcome_bind forEach]. by rewrite Hst2.
Qed.

(** *** The first pass *)

(** [childCountByParent] is read into [totalChildren] and [totalHeight],
    which no coordinate depends on. *)
Lemma step_counts_irrelevant counts counts' st line :
  step counts st line = step counts' st line.
Proof.
  unfold step, yPositionOf.
  destruct (decide (JS.headingLevel line = 0)); [done|].
  destruct (parseLine line) as [[lbl col] edge].
  destruct (decide (JS.headingLevel line = 1)); [done|].
  destruct (parentAt st (JS.headingLevel line - 1)) as [parent| |]; done.
Qed.


(** *** No [NaN] below a root that has a number *)

Lemma spread_Fin (t : NodeDataType) v :
  everywhere childrenSpread t → y (position (item t)) = Fin v →
  Forall (λ n, ∃ w, y (position (item n)) = Fin w) (nodes t).
Proof.
  revert v. induction t as [it ts IH] using rose_ind'. intros v Hev Hy.
  pose proof (everywhere_root _ _ Hev) as Hroot. simpl in Hroot, Hy.
  rewrite nodes_unfold. constructor; [by exists v|].
  apply Forall_bind. rewrite Forall_forall in IH |- *. intros t' Ht'.
  destruct (list_elem_of_lookup_1 _ _ Ht') as [i Hi].
  destruct (yrel_Fin v i) as [w Hw].
  apply (IH t' Ht' w).
  - eapply everywhere_child; [exact Hev|done].
  - rewrite <- Hw, <- Hy. apply Hroot. by rewrite list_lookup_fmap, Hi.
Qed.

(** *** The depth of a node and the level of its line *)

Lemma lined_level ls it :
  lined ls it →
  ∃ line, line ∈ ls ∧ JS.headingLevel line ≠ 0
    ∧ it = entry line (y (position it))
    ∧ x (position it) = (Z.of_nat (JS.headingLevel line) * xSpacing)%Z.
Proof. intros (line&yPos&Hin&Hlv&->). by exists line. Qed.

Lemma laidOut_level ls (t : NodeDataType) d n :
  everywhere (laidOut ls) t → x (position (item t)) = xSpacing →
  (d, n) ∈ walk 0 t →
  ∃ line, line ∈ ls ∧ JS.headingLevel line = S d
    ∧ item n = entry line (y (position (item n))).
Proof.
  intros Hev Hx Hn.
  pose proof (laidOut_depth _ _ _ _ Hev Hx Hn) as Hxn.
  assert (n ∈ nodes t) as Hin.
  { clear -Hn. revert Hn. generalize 0. induction t as [it ts IH] using rose_ind'.
    intros d0. rewrite walk_unfold, nodes_unfold.
    intros [[= -> ->]|Hn]%elem_of_cons; [left|right].
    apply list_elem_of_bind in Hn as (c&Hn&Hc). apply list_elem_of_bind.
    exists c. split; [|done]. rewrite Forall_forall in IH. by eapply IH. }
  unfold everywhere in Hev. rewrite Forall_forall in Hev.
  destruct (Hev n Hin) as (Hl&_). apply lined_level in Hl as (line&?&?&?&Hxl).
  exists line. split_and!; [done| |done].
  rewrite Hxl in Hxn. unfold xSpacing in Hxn. lia.
Qed.

(** *** Which object [root] is *)

Lemma lastTop_snoc pre l :
  lastTop (pre ++ [l])
  = if decide (JS.headingLevel l = 1) then Some l else lastTop pre.
Proof.
  unfold lastTop. rewrite filter_app, filter_cons, filter_nil.
  destruct (decide (JS.headingLevel l = 1)).
  - by rewrite last_snoc.
  - by rewrite app_nil_r.
Qed.

Lemma handled_rootIs counts pre st line st' :
  rootIs pre st → handled counts st line st' → rootIs (pre ++ [line]) st'.
Proof.
  intros [Hainv Hroot] Hh. split; [by eapply handled_ainv|].
  rewrite lastTop_snoc.
  assert (Hkeep : ∀ it0 a it, root st = Some a →
            itemAt (heap st) a = Some it →
            itemAt (alloc it0 (heap st)) a = Some it).
  { intros it0 a it _ Hit. rewrite itemAt_alloc_lt; [done|]. by eapply itemAt_lt. }
  destruct Hh as [H0|H1|H2 Hp|p c H2 Hp Hc]; simpl.
  - by rewrite decide_False by lia.
  - rewrite decide_True by done. eexists. split; [done|apply itemAt_alloc_eq].
  - rewrite decide_False by lia. destruct (lastTop pre); [|done].
    destruct Hroot as (a&Ha&Hit). exists a. split; [done|]. by eapply Hkeep.
  - rewrite decide_False by lia. destruct (lastTop pre); [|done].
    destruct Hroot as (a&Ha&Hit). exists a. split; [done|].
    rewrite itemAt_push. by eapply Hkeep.
Qed.

Lemma run_rootIs counts ls :
  ∃ st, forEach (step counts) init ls = Ok st ∧ rootIs ls st.
Proof.
  apply (forEach_prefix_invariant (step counts) rootIs).
  - split; [apply ainv_init|done].
  - intros pre l post st _ Hst.
    destruct (step_handled counts st l) as (st'&Hstep&Hh); [by destruct Hst|].
    exists st'. split; [done|]. by eapply handled_rootIs.
Qed.

(** *** The order of the objects and of the children *)

Lemma headings_snoc pre l :
  headings (pre ++ [l])
  = if decide (JS.headingLevel l = 0) then headings pre else headings pre ++ [l].
Proof.
  unfold headings. rewrite filter_app, filter_cons, filter_nil.
  destruct (decide (JS.headingLevel l = 0)).
  - rewrite decide_False by (intros ?; done). by rewrite app_nil_r.
  - by rewrite decide_True by done.
Qed.

Lemma sorted_snoc (ks : list nat) n :
  StronglySorted lt ks → Forall (λ k, k < n) ks → StronglySorted lt (ks ++ [n]).
Proof.
  intros Hs Hlt. apply StronglySorted_app_2; [|done|by repeat constructor].
  intros k1 k2 Hk1 ->%list_elem_of_singleton.
  rewrite Forall_forall in Hlt. by apply Hlt.
Qed.

Lemma handled_ordered counts pre st line st' :
  ordered pre st → handled counts st line st' → ordered (pre ++ [line]) st'.
Proof.
  intros (Hainv&Hlen&Hcells) Hh. split; [by eapply handled_ainv|].
  pose proof Hainv as (Hwf&_&_).
  rewrite headings_snoc.
  (* an object created for [line], without children, at the end *)
  assert (Hnew : ∀ yPos, JS.headingLevel line ≠ 0 →
            ∀ a c, alloc (entry line yPos) (heap st) !! a = Some c →
              (∃ l yPos', (headings pre ++ [line]) !! a = Some l
                          ∧ payload c = entry l yPos')
              ∧ StronglySorted lt (kids c)).
  { intros yPos _ a c Hc.
    destruct (decide (a < length (heap st))) as [Ha|Ha].
    - rewrite lookup_alloc_lt in Hc by done.
      destruct (Hcells a c Hc) as ((l&y'&Hl&Hpay)&Hs). split; [|done].
      exists l, y'. split; [|done]. by apply lookup_app_l_Some.
    - assert (a = length (heap st)) as ->.
      { apply lookup_lt_Some in Hc. rewrite length_alloc in Hc. lia. }
      rewrite lookup_alloc_eq in Hc. injection Hc as <-. split; [|constructor].
      exists line, yPos. split; [|done].
      rewrite Hlen. by rewrite list_lookup_middle. }
  destruct Hh as [H0|H1|H2 Hp|p c H2 Hp Hc]; simpl.
  - by rewrite decide_True by done.
  - rewrite decide_False by lia. split.
    + rewrite length_alloc, length_app. simpl. lia.
    + apply Hnew. lia.
  - rewrite decide_False by lia. split.
    + rewrite length_alloc, length_app. simpl. lia.
    + apply Hnew. lia.
  - rewrite decide_False by lia. split.
    + rewrite length_push, length_alloc, length_app. simpl. lia.
    + intros a c'. unfold push. rewrite list_lookup_alter.
      destruct (decide (p = a)) as [<-|Hne].
      * assert (p < length (heap st)) by by eapply lookup_lt_Some.
        rewrite lookup_alloc_lt, Hc by done. simpl. intros [= <-].
        destruct (Hnew (yrel (y (position (payload c))) (length (kids c)))
                    ltac:(lia) p c) as (Hl&Hs).
        { by rewrite lookup_alloc_lt. }
        split; [done|]. simpl. apply sorted_snoc; [done|].
        eapply Forall_impl; [exact (Hwf p c Hc)|]. simpl. lia.
      * apply Hnew. lia.
Qed.

Lemma run_ordered counts ls :
  ∃ st, forEach (step counts) init ls = Ok st ∧ ordered ls st.
Proof.
  apply (forEach_prefix_invariant (step counts) ordered).
  - split_and!; [apply ainv_init|done|]. intros a c Hc. done.
  - intros pre l post st _ Hst.
    destruct (step_handled counts st l) as (st'&Hstep&Hh); [by destruct Hst|].
    exists st'. split; [done|]. by eapply handled_ordered.
Qed.

(** *** The first pass *)

Lemma run_counts_irrelevant counts counts' ls st :
  forEach (step counts) st ls = forEach (step counts') st ls.
Proof.
  revert st. induction ls as [|l ls IH]; intros st; [done|].
  rewrite !forEach_cons, (step_counts_irrelevant counts counts').
  destruct (step counts' st l); [apply IH|done..].
Qed.


(** *** Two runs that differ in what came before the last root *)

Lemma rose_map_snd_shift k (t : rose (nat * NodeDataItem)) :
  rose_map snd (rose_map (λ x, (x.1 + k, x.2)) t) = rose_map snd t.
Proof.
  induction t as [x ts IH] using rose_ind'. simpl. f_equal.
  rewrite <- list_fmap_compose.
  induction IH as [|t' ts' Ht' _ IHts]; [done|].
  rewrite !fmap_cons. f_equal; [exact Ht'|exact IHts].
Qed.

Lemma agree_reify k G st1 st2 b a t :
  agree k G st1 st2 → a ∈ G → reify b (heap st2) a = Some t →
  reify b (heap st1) (a + k) = Some (rose_map (λ x, (x.1 + k, x.2)) t).
Proof.
  intros (_&_&_&_&_&Hcells&_). revert a t.
  induction b as [|b IH]; intros a t Ha Ht; [done|].
  apply reify_Some in Ht as (b'&c&ts&[= <-]&Hc&Hts&->).
  destruct (Hcells a c Ha Hc) as [Hc1 HG].
  apply reify_Some. exists b, (shifted k c), (rose_map (λ x, (x.1 + k, x.2)) <$> ts).
  split_and!; [done..| |done].
  cbn [shifted kids]. apply Forall2_fmap.
  clear Hc Hc1. induction Hts as [|d td ds tds Hd _ IHts]; [done|].
  apply Forall_cons in HG as [HdG HG]. constructor; [by apply IH|by apply IHts].
Qed.

Lemma agree_result k G st1 st2 :
  agree k G st1 st2 →
  (match root st1 with
   | Some a => t ← readBack (heap st1) a; Ok (rose_map snd t)
   | None => Ok fallback
   end : outcome NodeDataType)
  = match root st2 with
    | Some a => t ← readBack (heap st2) a; Ok (rose_map snd t)
    | None => Ok fallback
    end.
Proof.
  intros Hag. pose proof Hag as (_&(Hwf2&_&_)&Hlen&HG&(r&Hr2&Hr1&HrG)&_).
  rewrite Hr1, Hr2.
  destruct (reify_total (heap st2) r Hwf2 (HG r HrG)) as [t Ht].
  pose proof (agree_reify _ _ _ _ _ _ _ Hag HrG Ht) as Ht1.
  apply (reify_mono _ (length (heap st1))) in Ht1; [|lia].
  unfold readBack. rewrite Ht, Ht1. cbn [fetch mbind outcome_bind].
  by rewrite rose_map_snd_shift.
Qed.

Lemma lookup_attached_ne parent n (h : list (cell NodeDataItem)) a :
  (∀ p, parent = Some p → p ≠ a) → attached parent n h !! a = h !! a.
Proof.
  intros Hp. destruct parent as [p|]; [|done]. unfold attached, push.
  rewrite list_lookup_alter. by rewrite decide_False by by apply Hp.
Qed.

Lemma length_attached parent n (h : list (cell NodeDataItem)) :
  length (attached parent n h) = length h.
Proof. destruct parent; [apply length_push|done]. Qed.

(** A new root. *)
Lemma agree_newRoot k st1 st2 e :
  ainv st1 → ainv st2 → length (heap st1) = length (heap st2) + k →
  ∀ st1' st2',
  st1' = {| heap := alloc e (heap st1); root := Some (length (heap st1));
            lastNodeAtLevel := <[1 := length (heap st1)]> (lastNodeAtLevel st1) |} →
  st2' = {| heap := alloc e (heap st2); root := Some (length (heap st2));
            lastNodeAtLevel := <[1 := length (heap st2)]> (lastNodeAtLevel st2) |} →
  ainv st1' → ainv st2' →
  agree k {[length (heap st2)]} st1' st2'.
Proof.
  intros (_&Hl1&_) (_&Hl2&_) Hlen st1' st2' -> -> Ha1' Ha2'.
  split_and!; [done..| | | | |]; cbn [heap root lastNodeAtLevel].
  - by rewrite !length_alloc, Hlen.
  - intros a ->%elem_of_singleton. rewrite length_alloc. lia.
  - exists (length (heap st2)). split_and!; [done| |set_solver].
    by rewrite Hlen.
  - intros a c ->%elem_of_singleton. rewrite lookup_alloc_eq. intros [= <-].
    split; [|done]. by rewrite <- Hlen, lookup_alloc_eq.
  - intros L a ->%elem_of_singleton. rewrite !lookup_insert, <- Hlen.
    destruct (decide (1 = L)); [done|]. split.
    + intros ?%Hl2. lia.
    + intros ?%Hl1. lia.
Qed.

(** A step that touches no object of [G]. *)
Lemma agree_apart k G st1 st2 L e1 e2 o1 o2 :
  agree k G st1 st2 →
  (∀ p a, o1 = Some p → a ∈ G → p ≠ a + k) →
  (∀ p, o2 = Some p → p ∉ G) →
  ∀ st1' st2',
  st1' = {| heap := attached o1 (length (heap st1)) (alloc e1 (heap st1));
            root := root st1;
            lastNodeAtLevel := <[L := length (heap st1)]> (lastNodeAtLevel st1) |} →
  st2' = {| heap := attached o2 (length (heap st2)) (alloc e2 (heap st2));
            root := root st2;
            lastNodeAtLevel := <[L := length (heap st2)]> (lastNodeAtLevel st2) |} →
  ainv st1' → ainv st2' →
  agree k G st1' st2'.
Proof.
  intros (_&_&Hlen&HG&Hroot&Hcells&Hlast) Ho1 Ho2 st1' st2' -> -> Ha1' Ha2'.
  split_and!; [done..| | | | |]; cbn [heap root lastNodeAtLevel].
  - by rewrite !length_attached, !length_alloc, Hlen.
  - intros a Ha%HG. rewrite length_attached, length_alloc. lia.
  - done.
  - intros a c Ha.
    rewrite lookup_attached_ne by (intros p Hp ->; by eapply Ho2).
    rewrite lookup_attached_ne by (intros p Hp ->; by eapply Ho1).
    pose proof (HG a Ha).
    rewrite !lookup_alloc_lt by lia. by apply Hcells.
  - intros M a Ha. rewrite !lookup_insert. pose proof (HG a Ha).
    destruct (decide (L = M)); [|by apply Hlast].
    split; intros [= ?]; lia.
Qed.

(** A child for an object of [G]. *)
Lemma agree_child k G st1 st2 L e p c :
  agree k G st1 st2 → p ∈ G → heap st2 !! p = Some c →
  ∀ st1' st2',
  st1' = {| heap := push (p + k) (length (heap st1)) (alloc e (heap st1));
            root := root st1;
            lastNodeAtLevel := <[L := length (heap st1)]> (lastNodeAtLevel st1) |} →
  st2' = {| heap := push p (length (heap st2)) (alloc e (heap st2));
            root := root st2;
            lastNodeAtLevel := <[L := length (heap st2)]> (lastNodeAtLevel st2) |} →
  ainv st1' → ainv st2' →
  agree k (G ∪ {[length (heap st2)]}) st1' st2'.
Proof.
  intros ((_&Hl1&_)&(_&Hl2&_)&Hlen&HG&(r&Hr2&Hr1&HrG)&Hcells&Hlast) Hp Hc
    st1' st2' -> -> Ha1' Ha2'.
  pose proof (HG p Hp) as Hplt.
  split_and!; [done..| | | | |]; cbn [heap root lastNodeAtLevel].
  - by rewrite !length_push, !length_alloc, Hlen.
  - rewrite length_push, length_alloc.
    intros a [Ha%HG| ->%elem_of_singleton]%elem_of_union; lia.
  - exists r. split_and!; [done..|by apply elem_of_union_l].
  - intros a c'. unfold push. rewrite !list_lookup_alter.
    intros [Ha| ->%elem_of_singleton]%elem_of_union.
    + pose proof (HG a Ha).
      rewrite !lookup_alloc_lt by lia.
      destruct (decide (p = a)) as [<-|Hne].
      * rewrite decide_True by done. rewrite Hc. simpl. intros [= <-].
        destruct (Hcells p c Hp Hc) as [-> HcG]. simpl. split.
        -- unfold shifted, adopt. simpl. by rewrite fmap_app, Hlen.
        -- apply Forall_app. split.
           ++ eapply Forall_impl; [exact HcG|].
              intros b Hb. by apply elem_of_union_l.
           ++ repeat constructor. by apply elem_of_union_r, elem_of_singleton.
      * rewrite decide_False by lia. intros Hc'.
        destruct (Hcells a c' Ha Hc') as [-> HcG]. split; [done|].
        eapply Forall_impl; [exact HcG|]. intros b Hb. by apply elem_of_union_l.
    + rewrite decide_False by lia. rewrite decide_False by lia.
      rewrite lookup_alloc_eq. intros [= <-].
      split; [|done]. by rewrite <- Hlen, lookup_alloc_eq.
  - intros M a. rewrite !lookup_insert.
    intros [Ha| ->%elem_of_singleton]%elem_of_union.
    + pose proof (HG a Ha).
      destruct (decide (L = M)); [|by apply Hlast].
      split; intros [= ?]; lia.
    + destruct (decide (L = M)).
      * split; intros _; f_equal; lia.
      * split; [intros ?%Hl2; lia|intros ?%Hl1; lia].
Qed.

Lemma handled_attached counts st line st' :
  handled counts st line st' → 2 ≤ JS.headingLevel line →
  ∃ e, st' = {| heap := attached (lastNodeAtLevel st !! (JS.headingLevel line - 1))
                          (length (heap st)) (alloc e (heap st));
                root := root st;
                lastNodeAtLevel :=
                  <[JS.headingLevel line := length (heap st)]> (lastNodeAtLevel st) |}.
Proof.
  intros [H0|H1|H2 Hp|p c H2 Hp Hc] Hlv; [lia..| |]; eexists; by rewrite Hp.
Qed.

Lemma handled_agree counts1 counts2 k G st1 st2 line st1' st2' :
  agree k G st1 st2 →
  handled counts1 st1 line st1' → handled counts2 st2 line st2' →
  ∃ G', agree k G' st1' st2'.
Proof.
  intros Hag H1 H2.
  pose proof Hag as (Ha1&Ha2&Hlen&HG&_&Hcells&Hlast).
  pose proof (handled_ainv _ _ _ _ Ha1 H1) as Ha1'.
  pose proof (handled_ainv _ _ _ _ Ha2 H2) as Ha2'.
  destruct (decide (JS.headingLevel line = 0)) as [H0|H0].
  { exists G. destruct H1; [|lia..]. destruct H2; [done|lia..]. }
  destruct (decide (JS.headingLevel line = 1)) as [Hone|Hone].
  { destruct H1; [lia| |lia..]. destruct H2; [lia| |lia..].
    exists {[length (heap st2)]}.
    by eapply (agree_newRoot k st1 st2). }
  destruct (lastNodeAtLevel st2 !! (JS.headingLevel line - 1)) as [p2|] eqn:Hp2.
  - destruct (decide (p2 ∈ G)) as [HpG|HpG].
    + pose proof (proj1 (Hlast _ _ HpG) Hp2) as Hp1.
      destruct H1 as [?|?|? Hp1'|p1 c1 ? Hp1' Hc1]; [lia..|congruence|].
      destruct H2 as [?|?|? Hp2'|p2' c2 ? Hp2' Hc2]; [lia..|congruence|].
      rewrite Hp1 in Hp1'. injection Hp1' as <-.
      rewrite Hp2 in Hp2'. injection Hp2' as <-.
      destruct (Hcells p2 c2 HpG Hc2) as [Hc1' _]. rewrite Hc1 in Hc1'.
      injection Hc1' as ->. exists (G ∪ {[length (heap st2)]}).
      eapply (agree_child k G st1 st2); [done..| |reflexivity|done|done].
      unfold shifted. simpl. by rewrite length_fmap.
    + apply handled_attached in H1 as [e1 He1]; [|lia].
      apply handled_attached in H2 as [e2 He2]; [|lia].
      exists G. eapply (agree_apart k G st1 st2); [done| | |done..].
      * intros p a Hp Ha ->. apply HpG.
        apply (Hlast _ _ Ha) in Hp. congruence.
      * intros p Hp. congruence.
  - apply handled_attached in H1 as [e1 He1]; [|lia].
    apply handled_attached in H2 as [e2 He2]; [|lia].
    exists G. eapply (agree_apart k G st1 st2); [done| | |done..].
    + intros p a Hp Ha ->. apply (Hlast _ _ Ha) in Hp. congruence.
    + intros p Hp. congruence.
Qed.

Lemma run_agree counts1 counts2 k ls : ∀ G st1 st2,
  agree k G st1 st2 →
  ∃ G' st1' st2',
    forEach (step counts1) st1 ls = Ok st1'
    ∧ forEach (step counts2) st2 ls = Ok st2'
    ∧ agree k G' st1' st2'.
Proof.
  induction ls as [|l ls IH]; intros G st1 st2 Hag; [by exists G, st1, st2|].
  pose proof Hag as (Ha1&Ha2&_).
  destruct (step_handled counts1 st1 l Ha1) as (st1'&Hs1&H1).
  destruct (step_handled counts2 st2 l Ha2) as (st2'&Hs2&H2).
  destruct (handled_agree _ _ _ _ _ _ _ _ _ Hag H1 H2) as [G' Hag'].
  destruct (IH G' st1' st2' Hag') as (G''&st1''&st2''&Hr1&Hr2&Hag'').
  exists G'', st1'', st2''. by rewrite !forEach_cons, Hs1, Hs2.
Qed.

Lemma parseLines_with counts ls :
  parseLines ls
  = (st ← forEach (step counts) init ls;
     match root st with
     | Some a => t ← readBack (heap st) a; Ok (rose_map snd t)
     | None => Ok fallback
     end).
Proof.
  unfold parseLines, rootTree.
  rewrite (run_counts_irrelevant _ counts).
  destruct (forEach _ _ _) as [st| |]; [|done..]. cbn [mbind outcome_bind].
  destruct (root st); [|done].
  by destruct (readBack _ _).
Qed.

(** What came before a line of level 1 does not count. *)
Lemma parseLines_last_section pre l post :
  JS.headingLevel l = 1 → parseLines (pre ++ l :: post) = parseLines (l :: post).
Proof.
  intros Hl.
  set (counts1 := foldl countChildren ∅ (pre ++ l :: post)).
  set (counts2 := foldl countChildren ∅ (l :: post)).
  destruct (run_ainv counts1 pre) as (st0&Hrun0&Ha0).
  destruct (step_handled counts1 st0 l Ha0) as (st1&Hs1&H1).
  destruct (step_handled counts2 init l ainv_init) as (st2&Hs2&H2).
  pose proof (handled_ainv _ _ _ _ Ha0 H1) as Ha1.
  pose proof (handled_ainv _ _ _ _ ainv_init H2) as Ha2.
  assert (agree (length (heap st0)) {[0]} st1 st2) as Hag.
  { destruct H1; [lia| |lia..]. destruct H2; [lia| |lia..].
    by eapply (agree_newRoot (length (heap st0)) st0 init). }
  destruct (run_agree counts1 counts2 _ post _ _ _ Hag)
    as (G'&st1'&st2'&Hr1&Hr2&Hag').
  rewrite (parseLines_with counts1 (pre ++ l :: post)).
  rewrite (parseLines_with counts2 (l :: post)).
  rewrite forEach_app, Hrun0. cbn [mbind outcome_bind].
  rewrite !forEach_cons, Hs1, Hs2. cbn [mbind outcome_bind].
  rewrite Hr1, Hr2. cbn [mbind outcome_bind]. by eapply agree_result.
Qed.


(** *** No object twice below [root] *)

Lemma once_init : once init.
Proof. split; [apply ainv_init|done]. Qed.

Lemma handled_once counts st line st' :
  once st → handled counts st line st' → once st'.
Proof.
  intros [Hainv Honce] Hh. split; [by eapply handled_ainv|].
  pose proof Hainv as (Hwf&_&Hroot).
  destruct Hh as [H0|H1|H2 Hp|p c H2 Hp Hc]; [done|..]; cbn [heap root].
  - intros r [= <-]. rewrite length_alloc, reify_fresh. eexists. split; [done|].
    intros a. rewrite count_unfold. simpl. destruct (decide _); lia.
  - intros r Hr. destruct (Honce r Hr) as (t&Ht&Hc).
    exists t. split; [|done]. rewrite length_alloc.
    rewrite reify_alloc by (by try apply Hroot).
    eapply reify_mono; [exact Ht|lia].
  - intros r Hr. destruct (Honce r Hr) as (t&Ht&Hct).
    assert (p < length (heap st)) by by eapply lookup_lt_Some.
    eexists. rewrite length_push, length_alloc.
    split; [by apply reify_attach|].
    intros a. rewrite count_graft.
    pose proof (Hct a). pose proof (Hct p).
    destruct (decide (a = length (heap st))) as [->|]; [|lia].
    rewrite (count_outside _ _ _ _ _ Ht) by lia. lia.
Qed.

Lemma run_once counts ls :
  ∃ st, forEach (step counts) init ls = Ok st ∧ once st.
Proof.
  apply (forEach_invariant (step counts) once); [|apply once_init].
  intros st l Hst. destruct (step_handled counts st l) as (st'&Hs&Hh);
    [by destruct Hst|].
  exists st'. split; [done|]. by eapply handled_once.
Qed.

End app_facts.

(** ** The annotations of a line *)

Section line_facts.
Implicit Types (line pre post text c : str).

Lemma isHexDigit_spec (d : ascii) : JS.isHexDigit d = bool_decide (hexDigit d).
Proof. by destruct d as [[] [] [] [] [] [] [] []]. Qed.

Lemma isLineTerminator_spec (d : ascii) :
  JS.isLineTerminator d = bool_decide (lineBreak d).
Proof.
  destruct d as [[] [] [] [] [] [] [] []]; vm_compute; try done.
Qed.

(** *** The colour tag *)

Lemma colorAt_Some s c : JS.colorAt s = Some c ↔ tagAt s [] c.
Proof.
  unfold tagAt, colorValue. split.
  - destruct s as [|o [|hash [|h1 [|h2 [|h3 [|h4 [|h5 [|h6 [|cl post]]]]]]]]];
      try done.
    unfold JS.colorAt. destruct (_ && _) eqn:Hb; [|done]. intros [= <-].
    apply andb_true_iff in Hb as [Hb H4]. apply andb_true_iff in Hb as [Hb Hf].
    apply andb_true_iff in Hb as [H1 H2].
    apply bool_decide_eq_true in H1, H2, H4. subst. split; [|by eexists].
    eexists. split_and!; [done..|].
    apply Is_true_true_2, forallb_True in Hf. eapply Forall_impl; [exact Hf|].
    intros d Hd. simpl in Hd. apply Is_true_true_1 in Hd.
    rewrite isHexDigit_spec in Hd. by apply bool_decide_eq_true in Hd.
  - intros [(h&->&Hlen&Hhex) (post&->)].
    destruct h as [|h1 [|h2 [|h3 [|h4 [|h5 [|h6 [|]]]]]]]; try done.
    assert (forallb JS.isHexDigit [h1; h2; h3; h4; h5; h6] = true) as Hf.
    { apply Is_true_true_1, forallb_True. eapply Forall_impl; [exact Hhex|].
      intros d Hd. simpl. apply Is_true_true_2. rewrite isHexDigit_spec.
      by apply bool_decide_eq_true. }
    cbn [app]. unfold JS.colorAt. rewrite Hf.
    by rewrite !bool_decide_eq_true_2 by done.
Qed.

Lemma tagAt_cons a line pre c : tagAt (a :: line) (a :: pre) c ↔ tagAt line pre c.
Proof.
  unfold tagAt. split; intros [Hc (post&Heq)]; (split; [done|]); exists post.
  - by injection Heq.
  - by rewrite Heq.
Qed.

Lemma tagAt_head a line pre c :
  tagAt (a :: line) pre c → pre = [] ∨ ∃ pre', pre = a :: pre' ∧ tagAt line pre' c.
Proof.
  destruct pre as [|b pre']; [by left|]. intros Ht. right.
  assert (b = a) as ->.
  { destruct Ht as [_ (post&Heq)]. simpl in Heq. by injection Heq as -> _. }
  exists pre'. split; [done|]. exact (proj1 (tagAt_cons a line pre' c) Ht).
Qed.

Lemma colorMatch_spec line :
  match JS.colorMatch line with
  | Some c => firstTag line c
  | None => noTag line
  end.
Proof.
  induction line as [|a line IH].
  - simpl. intros pre c [_ (post&Heq)]. by destruct pre.
  - change (JS.colorMatch (a :: line))
      with (match JS.colorAt (a :: line) with
            | Some c => Some c
            | None => JS.colorMatch line
            end).
    destruct (JS.colorAt (a :: line)) as [c|] eqn:Hat.
    + exists []. split; [by apply colorAt_Some|]. intros; simpl; lia.
    + assert (Hnot : ∀ c, ¬ tagAt (a :: line) [] c).
      { intros c Hc%colorAt_Some. congruence. }
      destruct (JS.colorMatch line) as [c|].
      * destruct IH as (pre&Hpre&Hmin). exists (a :: pre).
        split; [by apply tagAt_cons|]. intros pre' c' Ht.
        destruct (tagAt_head _ _ _ _ Ht) as [->|(pre''&->&Ht')];
          [exfalso; by eapply Hnot|].
        simpl. apply Hmin in Ht'. lia.
      * intros pre c Ht.
        destruct (tagAt_head _ _ _ _ Ht) as [->|(pre''&->&Ht')];
          [exfalso; by eapply Hnot|].
        by eapply IH.
Qed.

Lemma color_spec line : colorOf line (default (lit "#212529") (JS.colorMatch line)).
Proof.
  pose proof (colorMatch_spec line) as H. unfold colorOf.
  destruct (JS.colorMatch line); simpl; auto.
Qed.

(** *** The match of the edge label *)

Lemma closesAtEnd_spec body :
  JS.closesAtEnd body = true
  ↔ ∃ text, body = text ++ [")"%char] ∧ Forall (λ d, ¬ lineBreak d) text.
Proof.
  unfold JS.closesAtEnd. split.
  - destruct (reverse body) as [|c rt] eqn:Hrev; [done|].
    intros [Hc Hrt]%andb_true_iff. apply bool_decide_eq_true in Hc as ->.
    exists (reverse rt). split.
    + by rewrite <- (reverse_involutive body), Hrev, reverse_cons.
    + apply Forall_reverse. apply Is_true_true_2, forallb_True in Hrt.
      eapply Forall_impl; [exact Hrt|]. intros d Hd. simpl in Hd.
      rewrite isLineTerminator_spec in Hd.
      apply negb_prop_elim in Hd. intros Hl. apply Hd.
      by apply bool_decide_pack.
  - intros (text&->&Htext). rewrite reverse_snoc.
    rewrite bool_decide_eq_true_2 by done. simpl.
    apply Is_true_true_1, forallb_True, Forall_reverse.
    eapply Forall_impl; [exact Htext|]. intros d Hd. simpl.
    rewrite isLineTerminator_spec. apply negb_prop_intro.
    intros Hl. by apply bool_decide_unpack in Hl.
Qed.

Lemma matchAt_nil a line text :
  matchAt (a :: line) [] text
  ↔ a = "("%char ∧ JS.closesAtEnd line = true ∧ text = removelast line.
Proof.
  unfold matchAt. rewrite closesAtEnd_spec. split.
  - intros [[= -> ->] Htext]. split_and!; [done|by eexists|].
    by rewrite removelast_last.
  - intros (->&(text'&->&Htext)&->). by rewrite removelast_last.
Qed.

Lemma matchAt_head a line pre text :
  matchAt (a :: line) pre text →
  pre = [] ∨ ∃ pre', pre = a :: pre' ∧ matchAt line pre' text.
Proof.
  destruct pre as [|b pre']; [by left|]. intros [Heq Htext]. right.
  simpl in Heq. injection Heq as -> Heq. by exists pre'.
Qed.

Lemma edgeLabelMatch_spec line : edgeLabelRegex line (JS.edgeLabelMatch line).
Proof.
  induction line as [|a line IH].
  - simpl. intros pre text [Heq _]. by destruct pre.
  - simpl. destruct (bool_decide (a = "("%char) && JS.closesAtEnd line) eqn:Hb.
    + apply andb_true_iff in Hb as [Ha Hc]. apply bool_decide_eq_true in Ha.
      exists []. split; [by apply matchAt_nil|]. intros; simpl; lia.
    + assert (Hnot : ∀ text, ¬ matchAt (a :: line) [] text).
      { intros text (Ha&Hc&_)%matchAt_nil.
        rewrite Hc, bool_decide_eq_true_2 in Hb by done. done. }
      destruct (JS.edgeLabelMatch line) as [text|]; simpl in IH |- *.
      * destruct IH as (pre&[Heq Htext]&Hmin). exists (a :: pre). split.
        { split; [by rewrite Heq|done]. }
        intros pre' text' Ht.
        destruct (matchAt_head _ _ _ _ Ht) as [->|(pre''&->&Ht')];
          [exfalso; by eapply Hnot|].
        simpl. apply Hmin in Ht'. lia.
      * intros pre text Ht.
        destruct (matchAt_head _ _ _ _ Ht) as [->|(pre''&->&Ht')];
          [exfalso; by eapply Hnot|].
        by eapply IH.
Qed.

(** *** The trailing group of a plain line *)

Lemma filter_none {A} (P : A → Prop) `{∀ x, Decision (P x)} (l : list A) :
  length (filter P l) = 0 → Forall (λ x, ¬ P x) l.
Proof.
  induction l as [|x l IH]; [constructor|]. rewrite filter_cons.
  destruct (decide (P x)); [done|]. intros Hl. constructor; auto.
Qed.

Lemma group_suffix (k t t' : str) :
  "("%char :: t' ++ [")"%char] = k ++ "("%char :: t ++ [")"%char] →
  Forall (λ d, ¬ parenthesis d) t' → t' = t.
Proof.
  intros Hk Ht'. destruct k as [|c k].
  - injection Hk as Hk. by apply app_inj_tail in Hk as [-> _].
  - exfalso. injection Hk as <- Hk.
    assert ("("%char ∈ t' ++ [")"%char]) as Hin.
    { rewrite Hk. apply elem_of_app. right. left. }
    apply elem_of_app in Hin as [Hin|Hin].
    + rewrite Forall_forall in Ht'. apply (Ht' _ Hin). by left.
    + by apply list_elem_of_singleton in Hin.
Qed.

Lemma trailingGroup_unique line text text' :
  trailingGroup line text → trailingGroup line text' → text = text'.
Proof.
  intros ((pre&->)&Ht) ((pre'&Heq)&Ht').
  apply app_eq_inv in Heq as [(k&_&Hk)|(k&_&Hk)].
  - symmetry. by eapply group_suffix.
  - by eapply group_suffix.
Qed.

(** On a plain line the leftmost match is the trailing group. *)
Lemma plain_annotation line o :
  plainLine line → edgeLabelRegex line o → annotationOf line o.
Proof.
  intros (Hbreak&Hopen&Hclose) Ho.
  assert (match o with
          | Some text => trailingGroup line text
          | None => noTrailingGroup line
          end) as Hcase.
  { destruct o as [text|]; simpl in Ho.
    - destruct Ho as (pre&(->&_)&_). split; [by exists pre|].
      rewrite filter_app, filter_cons_True, filter_app in Hopen by done.
      rewrite filter_app, filter_cons_False, filter_app in Hclose by done.
      rewrite (filter_cons_True _ ")"%char) in Hclose by done.
      rewrite length_app in Hopen, Hclose. cbn [length] in Hopen, Hclose.
      rewrite length_app in Hopen, Hclose. cbn [length] in Hclose.
      assert (length (filter (λ d, d = "("%char) text) = 0) as H1 by lia.
      assert (length (filter (λ d, d = ")"%char) text) = 0) as H2 by lia.
      apply filter_none in H1, H2. rewrite Forall_forall in H1, H2.
      apply Forall_forall. intros d Hd [->| ->]; [by eapply H1|by eapply H2].
    - intros text ((pre&->)&_). apply (Ho pre text). split; [done|].
      apply Forall_app in Hbreak as [_ Hbreak].
      apply Forall_cons in Hbreak as [_ Hbreak].
      by apply Forall_app in Hbreak as [Hbreak _]. }
  unfold annotationOf. split.
  - intros text Ht. destruct o as [text'|]; [|by destruct (Hcase text)].
    f_equal. by eapply trailingGroup_unique.
  - intros Hno. destruct o as [text|]; [|done]. by destruct (Hno text).
Qed.


(** *** [trim], [toLowerCase] and the hyphens *)

Lemma dropWhile_suffix (p : ascii → bool) (s : str) :
  ∃ w, s = w ++ JS.dropWhile p s.
Proof.
  induction s as [|d s [w IH]]; [by exists []|]. simpl.
  destruct (p d); [|by exists []]. exists (d :: w). simpl. by f_equal.
Qed.

Lemma dropWhile_head (p : ascii → bool) (s : str) (d : ascii) :
  head (JS.dropWhile p s) = Some d → p d = false.
Proof.
  induction s as [|e s IH]; [done|]. simpl.
  destruct (p e) eqn:He; [done|]. by intros [= <-].
Qed.

Lemma trim_trimmed (s : str) : trimmed (JS.trim s).
Proof.
  unfold JS.trim, JS.trimEnd, JS.trimStart, whiteSpace. split; intros d.
  - rewrite head_reverse. intros Hd.
    destruct (dropWhile_suffix JS.isWhiteSpace (reverse (JS.dropWhile JS.isWhiteSpace s)))
      as [w Hw].
    assert (last (reverse (JS.dropWhile JS.isWhiteSpace s)) = Some d) as Hl.
    { rewrite Hw, last_app, Hd. done. }
    rewrite last_reverse in Hl. apply dropWhile_head in Hl. congruence.
  - rewrite last_reverse. intros Hd%dropWhile_head. congruence.
Qed.

Lemma lowerChar_not_capital (d : ascii) : ¬ capital (JS.lowerChar d).
Proof.
  unfold capital.
  destruct d as [[] [] [] [] [] [] [] []]; apply (bool_decide_unpack _); by vm_compute.
Qed.

Lemma hyphenate_clean (b : bool) (s : str) :
  Forall (λ d, ¬ capital d) s →
  Forall (λ d, ¬ whiteSpace d ∧ ¬ capital d) (JS.hyphenate b s).
Proof.
  intros Hs. revert b. induction Hs as [|d s Hd _ IH]; intros b; [done|].
  simpl. destruct (JS.isWhiteSpace d) eqn:Hw.
  - destruct b; [apply IH|]. constructor; [|apply IH].
    split; [by vm_compute|]. unfold capital.
    apply (bool_decide_unpack _). by vm_compute.
  - constructor; [|apply IH]. split; [|done]. unfold whiteSpace. congruence.
Qed.


(** *** Lines written in the format of the built-in outline *)

Lemma dropWhile_first (u : str) :
  u ≠ [] → (∀ d, last u = Some d → ¬ whiteSpace d) →
  ∃ d rest, d ∈ u ∧ ¬ whiteSpace d
    ∧ ∀ s, JS.dropWhile JS.isWhiteSpace (u ++ s) = d :: rest ++ s.
Proof.
  induction u as [|d u IH]; [done|]. intros _ Hlast.
  destruct (JS.isWhiteSpace d) eqn:Hd.
  - destruct u as [|d' u].
    + exfalso. by apply (Hlast d).
    + destruct IH as (d1&rest&Hin&Hws&Hdrop); [done| |].
      { intros d0 Hd0. by apply Hlast. }
      exists d1, rest. split_and!; [by right|done|].
      intros s. simpl. rewrite Hd. apply (Hdrop s).
  - exists d, u. split_and!; [left|unfold whiteSpace; congruence|].
    intros s. simpl. by rewrite Hd.
Qed.













Lemma headingLevel_hashes k (s : str) :
  head s ≠ Some "#"%char → JS.headingLevel (JS.hashes k ++ s) = k.
Proof.
  intros Hs. unfold JS.headingLevel. induction k as [|k IH]; simpl.
  - destruct s as [|d s]; [done|]. simpl. unfold JS.isHash.
    rewrite (bool_decide_eq_false_2 (d = "#"%char)); [done|].
    intros ->. by apply Hs.
  - f_equal. exact IH.
Qed.

Lemma dropWhile_hashes k (s : str) :
  head s ≠ Some "#"%char → JS.dropWhile JS.isHash (JS.hashes k ++ s) = s.
Proof.
  intros Hs. induction k as [|k IH]; simpl.
  - destruct s as [|d s]; [done|]. simpl. unfold JS.isHash.
    rewrite (bool_decide_eq_false_2 (d = "#"%char)); [done|].
    intros ->. by apply Hs.
  - exact IH.
Qed.

Lemma stripHeading_hashes k (s : str) :
  1 ≤ k → head s ≠ Some "#"%char →
  JS.stripHeading (JS.hashes k ++ s) = JS.dropWhile JS.isWhiteSpace s.
Proof.
  intros Hk Hs. rewrite <- (dropWhile_hashes k s Hs) at 2.
  destruct k as [|k]; [lia|]. done.
Qed.

Lemma dropWhile_clean (s : str) :
  (∀ d, head s = Some d → ¬ whiteSpace d) → JS.dropWhile JS.isWhiteSpace s = s.
Proof.
  destruct s as [|d s]; [done|]. intros Hd. simpl.
  destruct (JS.isWhiteSpace d) eqn:E; [|done]. by destruct (Hd d).
Qed.

Lemma trim_of_trimmed (s : str) : trimmed s → JS.trim s = s.
Proof.
  intros [Hh Hl]. unfold JS.trim, JS.trimStart, JS.trimEnd.
  rewrite (dropWhile_clean s Hh), dropWhile_clean.
  - apply reverse_involutive.
  - intros d. rewrite head_reverse. apply Hl.
Qed.


End line_facts.

(** ** The source line of a node *)

Section source_facts.
Import App.

Lemma lined_id ls it : lined ls it → id it = slug (label it).
Proof. by intros (line&yPos&_&_&->). Qed.

Lemma lined_source ls it :
  lined ls it →
  ∃ line, line ∈ ls ∧ JS.headingLevel line ≠ 0
    ∧ (label it, color it, edgeLabel it) = parseLine line
    ∧ colorOf line (color it)
    ∧ (plainLine line → annotationOf line (edgeLabel it)).
Proof.
  intros (line&yPos&Hin&HL&->). exists line. split_and!; [done..| |].
  - apply color_spec.
  - intros Hplain. apply plain_annotation; [done|]. apply edgeLabelMatch_spec.
Qed.

Lemma colorOf_value line c : colorOf line c → colorValue c.
Proof.
  intros [(pre&[Hc _]&_)|[_ ->]]; [done|].
  exists (lit "212529"). split_and!; [done..|].
  repeat constructor; unfold hexDigit; set_solver.
Qed.

Lemma lined_color ls it : lined ls it → colorValue (color it).
Proof.
  intros (line&_&_&_&Hc&_)%lined_source. by eapply colorOf_value.
Qed.


Lemma slug_clean (label : str) :
  Forall (λ d, ¬ whiteSpace d ∧ ¬ capital d) (slug label).
Proof.
  apply hyphenate_clean. unfold JS.toLowerCase. apply Forall_fmap, Forall_forall.
  intros d _. apply lowerChar_not_capital.
Qed.

Lemma lined_label ls it : lined ls it → trimmed (App.label it).
Proof. intros (line&yPos&_&_&->). apply trim_trimmed. Qed.

End source_facts.

(** ** The two parsers side by side *)

Section twin_facts.
Implicit Types (stS : MarkdownParser.state) (stA : App.state).

Lemma shape_rose_map {A B : Type} (f : A → B) (t : rose A) :
  shape (rose_map f t) = shape t.
Proof. unfold shape. by rewrite rose_map_compose. Qed.

Lemma shape_convert T lv ix :
  shape (MarkdownParser.convertToMindMap T lv ix) = shape T.
Proof.
  revert lv ix. induction T as [it cs IH] using rose_ind'. intros lv ix.
  rewrite convert_unfold. unfold shape. simpl. f_equal.
  generalize 0. induction IH as [|c cs' Hc _ IHcs]; intros k; [done|].
  cbn [mapFrom]. rewrite !fmap_cons. f_equal; [apply Hc|apply IHcs].
Qed.

Lemma addrs_bare {A : Type} (f : nat → nat) (t : rose (nat * A)) :
  addrs (bare f t) = f <$> addrs t.
Proof.
  unfold addrs, bare. rewrite nodes_rose_map, <- !list_fmap_compose.
  apply list_fmap_ext. intros i n _. simpl. by rewrite rose_map_item.
Qed.

Lemma graft_bare {A : Type} (f : nat → nat) `{!Inj (=) (=) f} p n (x : A) t :
  bare f (graft p (Rose (n, x) []) t)
  = graft (f p) (Rose (f n, tt) []) (bare f t).
Proof.
  induction t as [[a y] ts IH] using rose_ind'.
  rewrite graft_unfold. unfold bare. cbn [rose_map].
  rewrite graft_unfold. cbn [fst]. f_equal.
  rewrite fmap_app. f_equal.
  - rewrite <- !list_fmap_compose.
    induction IH as [|t' ts' Ht' _ IHts]; [done|].
    rewrite !fmap_cons. f_equal; [exact Ht'|exact IHts].
  - destruct (decide (a = p)) as [->|Hne].
    + by rewrite decide_True.
    + rewrite decide_False; [done|]. by intros ?%(inj f).
Qed.

Lemma twin_first counts l0 :
  JS.headingLevel l0 = 1 →
  ∃ stS stA, MarkdownParser.step MarkdownParser.init l0 = Ok stS
    ∧ App.step counts App.init l0 = Ok stA
    ∧ twin 1 stS stA.
Proof.
  intros Hl0.
  destruct (step_inv MarkdownParser.init l0 inv_init) as (stS&HsS&HinvS).
  destruct (step_handled counts App.init l0 ainv_init) as (stA&HsA&Hh).
  pose proof (handled_ainv _ _ _ _ ainv_init Hh) as HainvA.
  exists stS, stA. split_and!; [done..|].
  rewrite step_init in HsS. injection HsS as <-.
  destruct Hh as [?|_|?|]; [lia| |lia..].
  split_and!; [done..| |].
  - exists [1]. split_and!; [done..|].
    intros [|i] a; [|done]. intros [= <-]. split_and!; [|done..].
    change (Some (MarkdownParser.lineLevel l0) = Some (Z.of_nat 1)).
    unfold MarkdownParser.lineLevel. by rewrite Hl0.
  - by eexists (Rose (1, _) []), (Rose (0, _) []).
Qed.

Lemma step_twin counts m stS stA line :
  twin m stS stA → 2 ≤ JS.headingLevel line ≤ S m →
  ∃ stS' stA', MarkdownParser.step stS line = Ok stS'
    ∧ App.step counts stA line = Ok stA'
    ∧ twin (JS.headingLevel line) stS' stA'.
Proof.
  intros (Hinv&Hainv&Hlen&Hroot&(sp&Hstack&Hsp&Hm&Hlev)&T1&TA&HT1&HTA&Hbare) HL.
  set (L := JS.headingLevel line) in *.
  assert (HlL : MarkdownParser.lineLevel line = Z.of_nat L) by done.
  destruct (step_spec stS line Hinv)
    as (popped&parent&rest&c&Hst&Hpopped&Hc&Hlt&Hstep).
  destruct (step_inv stS line Hinv) as (stS'&HsS&HinvS').
  rewrite Hstep in HsS. injection HsS as HstS'.
  destruct (step_handled counts stA line Hainv) as (stA'&HsA&Hh).
  pose proof (handled_ainv _ _ _ _ Hainv Hh) as HainvA'.
  (* the object of level [L - 1] on the stack *)
  destruct (lookup_lt_is_Some_2 sp (L - 2)) as [a Ha]; [lia|].
  destruct (Hlev _ _ Ha) as (Hla&Hlasta&Ha1).
  replace (S (L - 2)) with (L - 1) in Hla, Hlasta by lia.
  assert (Hsplit : reverse sp ++ [MarkdownParser.root]
                   = reverse (drop (L - 1) sp)
                     ++ a :: (reverse (take (L - 2) sp) ++ [MarkdownParser.root])).
  { rewrite <- (take_drop_middle sp (L - 2) a Ha) at 1.
    replace (S (L - 2)) with (L - 1) by lia.
    rewrite reverse_app, reverse_cons, <- !app_assoc. done. }
  assert (parent = a
          ∧ rest = reverse (take (L - 2) sp) ++ [MarkdownParser.root])
    as [-> ->].
  { rewrite Hstack, Hsplit in Hst.
    destruct (split_before
                (λ q, ∃ cq, MarkdownParser.heap stS !! q = Some cq
                   ∧ (MarkdownParser.lineLevel line
                      ≤ MarkdownParser.level (payload cq))%Z)
                popped parent rest _ a _ (eq_sym Hst) Hpopped)
      as (mid&Hmid&HX).
    - intros (cq&Hcq&Hle). unfold levelAt in Hla. rewrite Hcq in Hla.
      simpl in Hla. injection Hla as Hla. lia.
    - destruct mid as [|q mid]; [by injection Hmid as -> ->|].
      exfalso. injection Hmid as <- _.
      assert (parent ∈ reverse (drop (L - 1) sp)) as Hin.
      { rewrite HX. apply elem_of_app. right. left. }
      rewrite elem_of_reverse in Hin.
      apply list_elem_of_lookup_1 in Hin as [i Hi].
      rewrite lookup_drop in Hi. destruct (Hlev _ _ Hi) as (Hlp&_).
      unfold levelAt in Hlp. rewrite Hc in Hlp. simpl in Hlp.
      injection Hlp as Hlp. lia. }
  assert (Halt : a < length (MarkdownParser.heap stS)) by by eapply lookup_lt_Some.
  (* the application attaches to the same object *)
  assert (∃ cA e, App.heap stA !! pred a = Some cA
            ∧ stA' = {| App.heap := push (pred a) (length (App.heap stA))
                                      (alloc e (App.heap stA));
                        App.root := App.root stA;
                        App.lastNodeAtLevel :=
                          <[L := length (App.heap stA)]> (App.lastNodeAtLevel stA) |})
    as (cA&e&HcA&HstA').
  { destruct Hh as [?|?|? Hp|p cA ? Hp HcA]; [lia..|fold L in Hp; congruence|].
    fold L in Hp. rewrite Hlasta in Hp. injection Hp as <-. by eexists _, _. }
  assert (HpA : pred a < length (App.heap stA)) by by eapply lookup_lt_Some.
  exists stS', stA'. split_and!; [by rewrite Hstep, HstS'|done|].
  subst stS' stA'.
  split_and!; [done|done| |done| |]; cbn [MarkdownParser.heap MarkdownParser.stack
    App.heap App.root App.lastNodeAtLevel].
  - by rewrite !length_push, !length_alloc, Hlen.
  - exists (take (L - 1) sp ++ [length (MarkdownParser.heap stS)]).
    split_and!.
    + rewrite reverse_app. cbn [reverse app]. simpl. f_equal.
      replace (L - 1) with (S (L - 2)) by lia.
      rewrite (take_S_r _ _ _ Ha), reverse_app. done.
    + rewrite length_app, length_take. simpl. lia.
    + lia.
    + intros i b Hb.
      pose proof (λ b, levelAt_after stS line a [] b) as Hold.
      pose proof (levelAt_new stS line a [] Halt) as Hnew.
      cbn [after MarkdownParser.heap] in Hold, Hnew. unfold nodeOf in Hold, Hnew.
      apply lookup_app_Some in Hb as [Hb|[Hi Hb]].
      * apply lookup_take_Some in Hb as [Hb Hi].
        destruct (Hlev _ _ Hb) as (Hlb&Hlastb&Hb1).
        rewrite Hold, lookup_insert_ne by
          (first [lia | unfold levelAt in Hlb;
                        destruct (MarkdownParser.heap stS !! b) eqn:E; [|done];
                        by eapply lookup_lt_Some]).
        done.
      * rewrite length_take in Hi.
        destruct (i - _) as [|?] eqn:Hdiff; [|done]. injection Hb as <-.
        rewrite length_take in Hdiff.
        assert (i = L - 1) as -> by lia.
        replace (S (L - 1)) with L by lia.
        rewrite Hnew. rewrite lookup_insert_eq, Hlen.
        split_and!; [by rewrite HlL|done|lia].
  - exists (graft a (Rose (length (MarkdownParser.heap stS), nodeOf line) []) T1),
           (graft (pred a) (Rose (length (App.heap stA), e) []) TA).
    rewrite !length_push, !length_alloc. split_and!.
    + by apply reify_attach.
    + by apply reify_attach.
    + rewrite (graft_bare id), (graft_bare S), Hbare, Hlen. cbn [id].
      by replace (S (pred a)) with a by lia.
Qed.

Lemma run_twin counts ls : ∀ m stS stA,
  twin m stS stA → nestedFrom m (JS.headingLevel <$> ls) = true →
  ∃ m' stS' stA',
    forEach MarkdownParser.step stS ls = Ok stS'
    ∧ forEach (App.step counts) stA ls = Ok stA'
    ∧ twin m' stS' stA'.
Proof.
  induction ls as [|l ls IH]; intros m stS stA Htw Hnest;
    [by exists m, stS, stA|].
  rewrite fmap_cons in Hnest. cbn [nestedFrom] in Hnest.
  apply andb_true_iff in Hnest as [[H2%Nat.leb_le Hm%Nat.leb_le]%andb_true_iff Hnest].
  destruct (step_twin counts m stS stA l Htw ltac:(lia)) as (stS1&stA1&HsS&HsA&Htw1).
  destruct (IH _ _ _ Htw1 Hnest) as (m'&stS'&stA'&HrS&HrA&Htw').
  exists m', stS', stA'. by rewrite !forEach_cons, HsS, HsA.
Qed.


Lemma filter_all {X : Type} (P : X → Prop) `{!∀ x, Decision (P x)} (l : list X) :
  Forall P l → filter P l = l.
Proof.
  induction 1 as [|x l Hx _ IH]; [done|].
  by rewrite filter_cons, decide_True, IH.
Qed.

Lemma heading_not_blank (l : str) : JS.headingLevel l ≠ 0 → JS.trim l ≠ [].
Proof.
  unfold JS.headingLevel. destruct l as [|d l]; [done|]. simpl.
  unfold JS.isHash. destruct (bool_decide (d = "#"%char)) eqn:Hd; [|done].
  apply bool_decide_eq_true in Hd as ->. intros _.
  unfold JS.trim, JS.trimStart, JS.trimEnd. cbn [JS.dropWhile].
  change (JS.isWhiteSpace "#"%char) with false. cbn iota.
  rewrite reverse_cons.
  destruct (dropWhile_first (reverse l ++ ["#"%char])) as (d&rest&_&_&Hdrop).
  - by destruct (reverse l).
  - intros d. rewrite last_snoc. intros [= <-]. by vm_compute.
  - specialize (Hdrop []). rewrite !app_nil_r in Hdrop. rewrite Hdrop.
    intros Hnil. apply (f_equal length) in Hnil.
    rewrite length_reverse in Hnil. done.
Qed.

(** On a well-formed outline the two parsers build the same tree. *)
Lemma parsers_agree_lines ls :
  wellFormed (JS.headingLevel <$> ls) = true →
  ∃ tS tA,
    MarkdownParser.parseLines ls = Ok tS
    ∧ App.parseLines ls = Ok tA
    ∧ shape tS = shape tA
    ∧ (λ n, MarkdownParser.label (item n)) <$> nodes tS
      = MarkdownParser.lineContent <$> ls
    ∧ (λ n, App.label (item n)) <$> nodes tA
      = (λ l, (App.parseLine l).1.1) <$> ls.
Proof.
  intros Hwf. destruct ls as [|l0 rest]; [done|].
  rewrite fmap_cons in Hwf. cbn [wellFormed] in Hwf.
  destruct (JS.headingLevel l0) as [|[|?]] eqn:Hl0; [done| |done].
  set (ls := l0 :: rest).
  set (counts := foldl App.countChildren ∅ ls).
  (* all lines are headings, the later ones below the first *)
  pose proof (nestedFrom_deep _ _ Hwf) as Hdeep2.
  rewrite Forall_fmap in Hdeep2.
  assert (Hdeep : Forall (λ l, (MarkdownParser.lineLevel l0
                                < MarkdownParser.lineLevel l)%Z) rest).
  { eapply Forall_impl; [exact Hdeep2|]. intros l Hl. simpl in Hl.
    unfold MarkdownParser.lineLevel. rewrite Hl0. lia. }
  assert (Hall : headings ls = ls).
  { apply filter_all. constructor; [by rewrite Hl0|].
    eapply Forall_impl; [exact Hdeep2|]. intros l Hl. simpl in Hl. lia. }
  (* the two runs, side by side *)
  destruct (twin_first counts l0 Hl0) as (stS0&stA0&HsS0&HsA0&Htw0).
  destruct (run_twin counts rest 1 stS0 stA0 Htw0 Hwf)
    as (m&stS&stA&HrS&HrA&Htw).
  assert (HrunS : forEach MarkdownParser.step MarkdownParser.init ls = Ok stS)
    by by (unfold ls; rewrite forEach_cons, HsS0).
  assert (HrunA : forEach (App.step counts) App.init ls = Ok stA)
    by by (unfold ls; rewrite forEach_cons, HsA0).
  destruct Htw as (_&HainvA&Hlen&Hroot&_&T1&TA&HT1&HTA&Hbare).
  (* the stack-based parser *)
  destruct (run_fold l0 rest Hdeep) as (st&T1'&Hrun'&HT1'&HparseS&HaT1&Hitems&_).
  fold ls in Hrun', HparseS, Hitems. rewrite HrunS in Hrun'. injection Hrun' as <-.
  rewrite HT1 in HT1'. injection HT1' as <-.
  (* the parser of the application *)
  destruct (run_ordered counts ls) as (st&Hrun'&_&HlenA&HcellsA).
  rewrite HrunA in Hrun'. injection Hrun' as <-. rewrite Hall in HlenA, HcellsA.
  assert (HaTA : addrs TA = seq 0 (length ls)).
  { apply (inj (fmap S)). rewrite fmap_S_seq, <- addrs_bare, <- Hbare, addrs_bare.
    rewrite list_fmap_id. exact HaT1. }
  exists (MarkdownParser.convertToMindMap (rose_map snd T1) 0 0), (rose_map snd TA).
  split_and!.
  - exact HparseS.
  - rewrite (parseLines_with counts ls), HrunA. cbn [mbind outcome_bind].
    rewrite Hroot. unfold readBack. by rewrite HTA.
  - rewrite shape_convert, !shape_rose_map.
    rewrite <- (shape_rose_map (λ x, (id x.1, tt)) T1).
    rewrite <- (shape_rose_map (λ x, (S x.1, tt)) TA). f_equal. exact Hbare.
  - rewrite convert_labels, nodes_rose_map, <- list_fmap_compose.
    apply (f_equal (fmap MarkdownParser.content)) in Hitems.
    rewrite <- !list_fmap_compose in Hitems.
    etrans; [|exact Hitems].
    apply list_fmap_ext. intros i n _. simpl. by rewrite rose_map_item.
  - rewrite nodes_rose_map, <- list_fmap_compose.
    pose proof (reify_cells _ _ _ _ HTA) as Hcells.
    apply list_eq. intros i. rewrite !list_lookup_fmap.
    assert ((addrs TA) !! i = (λ n, (item n).1) <$> nodes TA !! i) as Hai
      by (unfold addrs; by rewrite list_lookup_fmap).
    destruct (nodes TA !! i) as [n|] eqn:Hn;
      cbn [fmap option_fmap option_map] in Hai |- *.
    + rewrite Forall_forall in Hcells.
      destruct (Hcells n) as (c&Hc&Hp&_); [by eapply list_elem_of_lookup_2|].
      rewrite HaTA in Hai. apply lookup_seq in Hai as [Hai Hi].
      simpl in Hai. rewrite Hai in Hc.
      destruct (HcellsA i c Hc) as ((l&yPos&Hl&Hpay)&_).
      rewrite Hl. simpl. rewrite rose_map_item, Hp, Hpay. done.
    + apply lookup_ge_None in Hn.
      assert (length (nodes TA) = length ls) as Hsz.
      { change (length (nodes TA)) with (size TA).
        by rewrite size_addrs, HaTA, length_seq. }
      rewrite (proj2 (lookup_ge_None ls i)) by lia. done.
Qed.

End twin_facts.

(** ** A call in a store that is not empty *)

Lemma forEach_commute {S : Type} (f : S → str → outcome S) (R : S → S) :
  (∀ st l, f (R st) l = R <$> f st l) →
  ∀ ls st, forEach f (R st) ls = R <$> forEach f st ls.
Proof.
  intros Hf ls. induction ls as [|l ls IH]; intros st; [done|].
  rewrite !forEach_cons, Hf. destruct (f st l); simpl; [apply IH|done..].
Qed.

Section stack_call_facts.
Import MarkdownParser.

Lemma init_relocatedS h0 : MarkdownParserCall.init h0 = relocatedS h0 init.
Proof.
  unfold MarkdownParserCall.init, relocatedS, init, root. simpl. f_equal.
  by rewrite Nat.add_0_r.
Qed.

Lemma unwind_unfold h lv top r rest :
  unwind h lv (top :: r :: rest)
  = (c ← fetch (h !! top);
     if bool_decide (lv ≤ level (payload c))%Z then unwind h lv (r :: rest)
     else Ok (top :: r :: rest)).
Proof. done. Qed.

Lemma unwind_relocated h0 h lv (s : list nat) :
  unwind (relocated h0 h) lv ((λ a, length h0 + a) <$> s)
  = (λ s' : list nat, (λ a, length h0 + a) <$> s') <$> unwind h lv s.
Proof.
  induction s as [|top rest IH]; [done|].
  destruct rest as [|r rest]; [done|].
  rewrite (fmap_cons _ top), (fmap_cons _ r), !unwind_unfold, lookup_relocated.
  destruct (h !! top) as [c|]; [|done].
  cbn [fmap option_fmap option_map fetch mbind outcome_bind moved payload].
  destruct (bool_decide (lv ≤ level (payload c))%Z); [|done].
  rewrite <- (fmap_cons _ r). exact IH.
Qed.

Lemma step_relocatedS h0 st line :
  step (relocatedS h0 st) line = relocatedS h0 <$> step st line.
Proof.
  unfold step. cbn [relocatedS heap stack level].
  rewrite alloc_relocated, unwind_relocated, length_relocated.
  destruct (unwind _ _ (stack st)) as [s'| |]; [|done..]. simpl.
  destruct s' as [|top s']; [done|]. simpl.
  unfold relocatedS. simpl. by rewrite push_relocated.
Qed.

Lemma call_parseLines h0 ls :
  snd <$> MarkdownParserCall.parseLines h0 ls = parseLines ls
  ∧ ∀ h1 t, MarkdownParserCall.parseLines h0 ls = Ok (h1, t) →
      ∃ new, h1 = h0 ++ new ∧ length new = S (length ls).
Proof.
  unfold MarkdownParserCall.parseLines, parseLines.
  rewrite init_relocatedS, (forEach_commute step (relocatedS h0) (step_relocatedS h0)).
  destruct (run_inv ls) as (st&Hrun&(Hwf&[ks Hc]&_)).
  pose proof (run_length _ _ _ Hrun) as Hlen. rewrite Hrun. simpl.
  rewrite lookup_relocated_0. unfold root in *. rewrite Hc. simpl.
  destruct ks as [|a ks]; [done|]. simpl.
  pose proof (Hwf _ _ Hc) as Hlt. simpl in Hlt.
  apply Forall_cons in Hlt as [Hlt _].
  destruct (reify_total (heap st) a Hwf) as [t Ht]; [lia|].
  unfold readBack. rewrite length_relocated, reify_relocated.
  rewrite (reify_mono _ (length h0 + length (heap st)) _ _ _ Ht) by lia.
  rewrite Ht. simpl. split.
  - by rewrite rose_map_compose.
  - intros h1 t' [= <- _]. eexists. split; [done|].
    rewrite length_fmap, Hlen. simpl. lia.
Qed.

End stack_call_facts.

Section app_call_facts.
Import App.

Lemma init_relocatedA h0 : AppCall.init h0 = relocatedA h0 init.
Proof.
  unfold AppCall.init, relocatedA, init. simpl.
  by rewrite relocated_nil, fmap_empty.
Qed.

Lemma parentAt_relocated h0 st L :
  parentAt (relocatedA h0 st) L
  = (λ o : option (cell NodeDataItem), moved (length h0) <$> o) <$> parentAt st L.
Proof.
  unfold parentAt. cbn [relocatedA lastNodeAtLevel heap]. rewrite lookup_fmap.
  destruct (lastNodeAtLevel st !! L) as [a|]; [|done]. simpl.
  rewrite lookup_relocated. by destruct (heap st !! a).
Qed.

Lemma yPositionOf_relocated counts h0 st L :
  yPositionOf counts (relocatedA h0 st) L = yPositionOf counts st L.
Proof.
  unfold yPositionOf. destruct (decide (L = 1)); [done|]. cbv zeta.
  rewrite parentAt_relocated.
  destruct (parentAt st (L - 1)) as [[c|]| |]; [|done..]. simpl.
  by rewrite length_fmap.
Qed.

Lemma step_relocatedA counts h0 st line :
  step counts (relocatedA h0 st) line = relocatedA h0 <$> step counts st line.
Proof.
  unfold step. cbv zeta.
  destruct (decide (JS.headingLevel line = 0)); [done|].
  destruct (parseLine line) as [[lbl col] el].
  rewrite yPositionOf_relocated.
  destruct (yPositionOf counts st (JS.headingLevel line)) as [yPos| |]; [|done..].
  cbn [mbind outcome_bind relocatedA heap root lastNodeAtLevel].
  rewrite alloc_relocated, length_relocated.
  destruct (decide (JS.headingLevel line = 1)).
  - simpl. unfold relocatedA. simpl. by rewrite fmap_insert.
  - simpl. unfold relocatedA. simpl. rewrite fmap_insert, lookup_fmap.
    destruct (lastNodeAtLevel st !! (JS.headingLevel line - 1)); simpl;
      by rewrite ?push_relocated.
Qed.

Lemma call_parseLinesA h0 ls :
  snd <$> AppCall.parseLines h0 ls = parseLines ls
  ∧ ∀ h1 t, AppCall.parseLines h0 ls = Ok (h1, t) →
      ∃ new, h1 = h0 ++ new ∧ length new = length (headingLevels ls).
Proof.
  unfold AppCall.parseLines, parseLines, rootTree. cbv zeta.
  rewrite init_relocatedA,
    (forEach_commute _ (relocatedA h0) (step_relocatedA _ h0)).
  destruct (run_ainv (foldl countChildren ∅ ls) ls) as (st&Hrun&Hinv).
  pose proof (run_heap_length _ _ _ _ ainv_init Hrun) as Hlen.
  destruct Hinv as (Hwf&_&Hroot). rewrite Hrun.
  simpl. destruct (root st) as [r|] eqn:Hr; simpl.
  - destruct (reify_total (heap st) r Hwf (Hroot r eq_refl)) as [t Ht].
    unfold readBack. rewrite length_relocated, reify_relocated.
    rewrite (reify_mono _ (length h0 + length (heap st)) _ _ _ Ht) by lia.
    rewrite Ht. simpl. split.
    + by rewrite rose_map_compose.
    + intros h1 t' [= <- _]. eexists. split; [done|].
      by rewrite length_fmap, Hlen.
  - split; [done|]. intros h1 t' [= <- _]. eexists. split; [done|].
    by rewrite length_fmap, Hlen.
Qed.

End app_call_facts.

(** ** The component *)

Section map_facts.
Implicit Types (m : JSMap.t) (k : str) (v : nat).

Lemma has_true k m : JSMap.has k m = true ↔ k ∈ m.*1.
Proof. apply bool_decide_eq_true. Qed.

Lemma has_false k m : JSMap.has k m = false ↔ k ∉ m.*1.
Proof. apply bool_decide_eq_false. Qed.

Lemma set_absent k v m : k ∉ m.*1 → JSMap.set k v m = m ++ [(k, v)].
Proof.
  induction m as [|[k' v'] m IH]; [done|]. simpl.
  rewrite not_elem_of_cons. intros [Hne Hk].
  rewrite decide_False by done. by rewrite IH.
Qed.

Lemma set_keys k v m : k ∈ m.*1 → (JSMap.set k v m).*1 = m.*1.
Proof.
  induction m as [|[k' v'] m IH]; simpl; [by intros ?%elem_of_nil|].
  destruct (decide (k' = k)) as [->|Hne]; [done|].
  intros [?|Hk]%elem_of_cons; [done|].
  rewrite !fmap_cons. f_equal. by apply IH.
Qed.

Lemma set_Forall (P : str * nat → Prop) k v m :
  Forall P m → P (k, v) → Forall P (JSMap.set k v m).
Proof.
  intros Hm Hkv. induction Hm as [|[k' v'] m HP Hm IH]; simpl.
  - by repeat constructor.
  - destruct (decide (k' = k)); constructor; done.
Qed.

Lemma delete_sublist k m : JSMap.delete k m `sublist_of` m.
Proof.
  induction m as [|[k' v'] m IH]; simpl; [done|].
  destruct (decide (k' = k)); [by apply sublist_cons|by apply sublist_skip].
Qed.

Lemma get_last k v m : k ∉ m.*1 → JSMap.get k (m ++ [(k, v)]) = Some v.
Proof.
  induction m as [|[k' v'] m IH]; simpl.
  - intros _. by rewrite decide_True.
  - rewrite not_elem_of_cons. intros [Hne Hk]. by rewrite decide_False, IH.
Qed.

Lemma set_last k v v' m :
  k ∉ m.*1 → JSMap.set k v' (m ++ [(k, v)]) = m ++ [(k, v')].
Proof.
  induction m as [|[k' w] m IH]; simpl.
  - intros _. by rewrite decide_True.
  - rewrite not_elem_of_cons. intros [Hne Hk]. by rewrite decide_False, IH.
Qed.

Lemma delete_last k v m : k ∉ m.*1 → JSMap.delete k (m ++ [(k, v)]) = m.
Proof.
  induction m as [|[k' w] m IH]; simpl.
  - intros _. by rewrite decide_True.
  - rewrite not_elem_of_cons. intros [Hne Hk]. by rewrite decide_False, IH.
Qed.




Lemma get_set_ne k k' v m : k' ≠ k → JSMap.get k' (JSMap.set k v m) = JSMap.get k' m.
Proof.
  intros Hne. induction m as [|[k0 v0] m IH]; simpl.
  - by rewrite decide_False.
  - destruct (decide (k0 = k)) as [->|Hk]; simpl.
    + by rewrite !decide_False.
    + by rewrite IH.
Qed.

Lemma get_delete_ne k k' m : k' ≠ k → JSMap.get k' (JSMap.delete k m) = JSMap.get k' m.
Proof.
  intros Hne. induction m as [|[k0 v0] m IH]; simpl; [done|].
  destruct (decide (k0 = k)) as [->|Hk]; simpl.
  - by rewrite decide_False.
  - by rewrite IH.
Qed.

End map_facts.

Section component_facts.
Import Component.
Implicit Types (t n : App.NodeDataType) (m : JSMap.t) (k : str).

(** [findNode] returns the first node, parents before children and
    children in their order, that has the identifier. *)
Lemma findNode_head k t :
  findNode k t = head (filter (λ n, App.id (item n) = k) (nodes t)).
Proof.
  induction t as [it cs IH] using rose_ind'.
  rewrite nodes_unfold, filter_cons. cbn [findNode item].
  destruct (decide (App.id it = k)) as [Hk|Hk]; [done|].
  induction IH as [|c cs' Hc _ IHcs]; [done|].
  rewrite bind_cons, filter_app, Hc.
  destruct (filter _ (nodes c)) as [|n l]; [exact IHcs|done].
Qed.

Lemma findNode_Some k t n :
  findNode k t = Some n → n ∈ nodes t ∧ App.id (item n) = k.
Proof.
  rewrite findNode_head. intros Hh.
  assert (n ∈ filter (λ n, App.id (item n) = k) (nodes t)) as Hin.
  { destruct (filter _ _) as [|n' l]; [done|]. injection Hh as ->. left. }
  by apply list_elem_of_filter in Hin as [? ?].
Qed.

Lemma findNode_None k t :
  findNode k t = None ↔ Forall (λ n, App.id (item n) ≠ k) (nodes t).
Proof.
  rewrite findNode_head. split.
  - intros Hh. apply Forall_forall. intros n Hn Hk.
    assert (n ∈ filter (λ n, App.id (item n) = k) (nodes t)) as Hin
      by by apply list_elem_of_filter.
    destruct (filter _ _); [by apply elem_of_nil in Hin|done].
  - intros Hall. destruct (filter _ _) as [|n l] eqn:Hf; [done|].
    assert (n ∈ filter (λ n, App.id (item n) = k) (nodes t)) as Hin
      by (rewrite Hf; left).
    apply list_elem_of_filter in Hin as [Hk Hn].
    rewrite Forall_forall in Hall. by destruct (Hall n Hn).
Qed.

(** *** Clicks *)

Lemma click_preserves_okMap t k m : okMap t m → okMap t (onNodeClick t k m).
Proof.
  intros [Hnd Hall]. unfold onNodeClick, findNodeData.
  destruct (findNode k t) as [cur|] eqn:Hcur; [|done].
  destruct (decide (length (children cur) = 0)) as [H0|H0]; [done|].
  destruct (JSMap.has k m) eqn:Hhas.
  - apply has_true in Hhas. cbv zeta.
    destruct (_ <? _) eqn:Hlt.
    + apply Nat.ltb_lt in Hlt. split.
      * by rewrite set_keys.
      * apply set_Forall; [done|]. exists cur. split; [done|]. simpl. lia.
    + pose proof (delete_sublist k m) as Hsub. split.
      * eapply sublist_NoDup; [exact Hnd|by apply fmap_sublist].
      * rewrite Forall_forall in Hall |- *. intros e He. apply Hall.
        by eapply elem_of_sublist.
  - apply has_false in Hhas. rewrite set_absent by done. split.
    + rewrite fmap_app. simpl. apply NoDup_app. split_and!; [done| |].
      * intros k' Hk' ->%list_elem_of_singleton. done.
      * apply NoDup_singleton.
    + apply Forall_app. split; [done|]. repeat constructor.
      exists cur. split; [done|]. simpl. lia.
Qed.

Lemma clicks_snoc t ids k :
  clicks t (ids ++ [k]) = onNodeClick t k (clicks t ids).
Proof. unfold clicks. by rewrite foldl_app. Qed.

Lemma clicks_okMap t ids : okMap t (clicks t ids).
Proof.
  induction ids as [|k ids IH] using rev_ind.
  - split; constructor.
  - rewrite clicks_snoc. by apply click_preserves_okMap.
Qed.

(** *** The display *)

Lemma expand_shown t (acc : list Node.t * list Edge.t) (e : str * nat) :
  expand t acc e
  = (acc.1 ++ ((λ p, createNode p.2) <$> shown t [e]),
     acc.2 ++ ((λ p, edgeTo p.1 p.2) <$> shown t [e])).
Proof.
  destruct e as [k lvl]. unfold expand, shown, findNodeData.
  rewrite bind_singleton. simpl.
  destruct (findNode k t) as [cur|]; [|by destruct acc; rewrite !app_nil_r].
  generalize (take (S lvl) (children cur)). intros l. revert acc.
  induction l as [|c l IH]; intros acc; simpl.
  - destruct acc. by rewrite !app_nil_r.
  - rewrite IH. simpl. by rewrite <- !app_assoc.
Qed.

Lemma shown_app t m1 m2 : shown t (m1 ++ m2) = shown t m1 ++ shown t m2.
Proof. unfold shown. apply bind_app. Qed.

(** The effect, as a function of the children on display. *)
Lemma display_shown t m :
  display t m
  = (rootNode t :: ((λ p, createNode p.2) <$> shown t m),
     (λ p, edgeTo p.1 p.2) <$> shown t m).
Proof.
  unfold display.
  change (rootNode t :: ((λ p, createNode p.2) <$> shown t m))
    with ([rootNode t] ++ ((λ p, createNode p.2) <$> shown t m)).
  change ((λ p, edgeTo p.1 p.2) <$> shown t m)
    with (([] : list Edge.t) ++ ((λ p, edgeTo p.1 p.2) <$> shown t m)).
  generalize [rootNode t]. generalize ([] : list Edge.t). intros es ns.
  revert es ns. induction m as [|e m IH]; intros es ns.
  - simpl. by rewrite !app_nil_r.
  - cbn [foldl]. rewrite expand_shown, IH. cbn [fst snd].
    change (e :: m) with ([e] ++ m).
    by rewrite shown_app, !fmap_app, <- !app_assoc.
Qed.

Lemma shown_ok_length t m :
  okMap t m → length (shown t m) = sum_list_with (λ e, S e.2) m.
Proof.
  intros [_ Hall]. induction Hall as [|e m He _ IH]; [done|].
  change (e :: m) with ([e] ++ m).
  rewrite shown_app, length_app, IH, sum_list_with_app.
  f_equal. unfold shown. rewrite bind_singleton.
  destruct He as (n&->&Hlt). rewrite length_fmap, length_take.
  cbn [sum_list_with]. lia.
Qed.


(** *** Lists *)

Lemma head_filter_first {X} (P : X → Prop) `{!∀ x, Decision (P x)} (l : list X) x :
  head (filter P l) = Some x →
  ∃ pre post, l = pre ++ x :: post ∧ P x ∧ Forall (λ y, ¬ P y) pre.
Proof.
  induction l as [|y l IH]; [done|]. rewrite filter_cons.
  destruct (decide (P y)) as [Hy|Hy].
  - intros [= ->]. by exists [], l.
  - intros (pre&post&->&Hx&Hpre)%IH. exists (y :: pre), post.
    split_and!; [done..|by constructor].
Qed.

Lemma NoDup_fmap_eq {X Y} (f : X → Y) (l : list X) x y :
  NoDup (f <$> l) → x ∈ l → y ∈ l → f x = f y → x = y.
Proof.
  induction l as [|z l IH]; [by intros _ ?%elem_of_nil|].
  rewrite fmap_cons, NoDup_cons. intros [Hz Hl].
  intros [->|Hx]%elem_of_cons [->|Hy]%elem_of_cons Hf; [done| | |by apply IH].
  - destruct Hz. rewrite Hf. by apply list_elem_of_fmap_2.
  - destruct Hz. rewrite <- Hf. by apply list_elem_of_fmap_2.
Qed.

Lemma Forall2_fmap_same {X Y Z} (R : Y → Z → Prop) (f : X → Y) (g : X → Z)
    (l : list X) :
  Forall (λ x, R (f x) (g x)) l → Forall2 R (f <$> l) (g <$> l).
Proof. induction 1; by constructor. Qed.

(** Every node but the root is a child of one node. *)
Lemma children_of_nodes {X} (t : rose X) :
  nodes t ≫= children ≡ₚ tail (nodes t).
Proof.
  induction t as [x ts IH] using rose_ind'.
  rewrite nodes_unfold, bind_cons. cbn [children tail].
  induction IH as [|c cs Hc _ IHcs]; [done|].
  rewrite !bind_cons, bind_app.
  destruct c as [y us]. rewrite nodes_unfold in Hc |- *.
  rewrite bind_cons in Hc |- *. cbn [children tail] in Hc |- *.
  rewrite Hc. cbn [app].
  f_equiv. etrans; [apply Permutation_app_swap_app|]. by f_equiv.
Qed.


(** *** What is on display *)

Lemma shown_elem t m k child :
  (k, child) ∈ shown t m →
  ∃ lvl parent i, (k, lvl) ∈ m ∧ findNode k t = Some parent
    ∧ children parent !! i = Some child ∧ i ≤ lvl.
Proof.
  unfold shown. intros ([k' lvl]&Hin&He)%list_elem_of_bind. simpl in Hin.
  destruct (findNode k' t) as [parent|] eqn:Hp; [|by apply elem_of_nil in Hin].
  apply list_elem_of_fmap in Hin as (c&[= -> ->]&Hc).
  apply list_elem_of_lookup_1 in Hc as [i Hi].
  apply lookup_take_Some in Hi as [Hi Hlt].
  exists lvl, parent, i. split_and!; [done..|lia].
Qed.


Lemma parents_ids t m :
  (λ n, App.id (item n)) <$> omap (λ e, findNode e.1 t) m `sublist_of` m.*1.
Proof.
  induction m as [|[k lvl] m IH]; [done|]. simpl.
  destruct (findNode k t) as [p|] eqn:Hp; simpl.
  - apply findNode_Some in Hp as [_ <-]. by apply sublist_skip.
  - by apply sublist_cons.
Qed.

Lemma shown_parents t m :
  (shown t m).*2 `sublist_of` omap (λ e, findNode e.1 t) m ≫= children.
Proof.
  induction m as [|[k lvl] m IH]; [done|].
  change ((k, lvl) :: m) with ([(k, lvl)] ++ m).
  rewrite shown_app, fmap_app. unfold shown at 1. rewrite bind_singleton.
  simpl. destruct (findNode k t) as [p|] eqn:Hp; simpl; [|done].
  apply sublist_app; [|exact IH].
  rewrite <- list_fmap_compose.
  rewrite (list_fmap_ext _ Datatypes.id (take (S lvl) (children p)))
    by done.
  rewrite list_fmap_id. apply sublist_take.
Qed.

(** With distinct identifiers in the tree and distinct keys in the map,
    the children on display are different nodes below the root. *)
Lemma shown_below t m :
  NoDup ((λ n, App.id (item n)) <$> nodes t) → NoDup m.*1 →
  (shown t m).*2 ⊆+ tail (nodes t).
Proof.
  intros Hids Hkeys. rewrite <- children_of_nodes.
  etrans; [apply sublist_submseteq, shown_parents|].
  apply bind_submseteq, NoDup_submseteq.
  - apply (NoDup_fmap_1 (λ n, App.id (item n))).
    eapply sublist_NoDup; [exact Hkeys|apply parents_ids].
  - intros p (e&_&Hp)%list_elem_of_omap. by apply findNode_Some in Hp as [? _].
Qed.

End component_facts.

(** * The examples of the specification *)

(** ["# A\n## B\n## C"]: [A] with the children [B] and [C], in that order,
    [B] and [C] one step to the right and apart. *)
Example outline_with_two_children :
  ∃ a b c,
    MarkdownParser.parseMarkdown (lit "# A" ++ nl ++ lit "## B" ++ nl ++ lit "## C")
    = Ok (Rose a [Rose b []; Rose c []])
    ∧ MarkdownParser.label <$> [a; b; c] = [lit "A"; lit "B"; lit "C"]
    ∧ (λ n, MarkdownParser.x (MarkdownParser.position n)) <$> [a; b; c]
      = [0; 200; 200]%Z
    ∧ (λ n, MarkdownParser.y (MarkdownParser.position n)) <$> [b; c]
      = [0; 100]%Z.
Proof. eexists _, _, _. split_and!; by vm_compute. Qed.

(** ["# A\n## B [#FF0000] (edge1)\n### C"]: the colour and the edge label of
    [B], and [C] below [B] without an edge label. *)
Example annotated_outline :
  ∃ a b c,
    App.parseMarkdown
      (lit "# A" ++ nl ++ lit "## B [#FF0000] (edge1)" ++ nl ++ lit "### C")
    = Ok (Rose a [Rose b [Rose c []]])
    ∧ App.label <$> [a; b; c] = [lit "A"; lit "B"; lit "C"]
    ∧ App.color b = lit "#FF0000"
    ∧ App.edgeLabel b = Some (lit "edge1")
    ∧ App.edgeLabel c = None
    ∧ App.position <$> [a; b; c]
      = [ {| App.x := 250; App.y := Fin 160 |};
          {| App.x := 500; App.y := Fin 80 |};
          {| App.x := 750; App.y := Fin 0 |} ].
Proof. eexists _, _, _. split_and!; by vm_compute. Qed.

(** ["## X\n## Y"] under a common open ancestor: siblings. *)
Example same_level_lines_are_siblings :
  ∃ a x y,
    MarkdownParser.parseMarkdown (lit "# A" ++ nl ++ lit "## X" ++ nl ++ lit "## Y")
    = Ok (Rose a [Rose x []; Rose y []])
    ∧ MarkdownParser.label <$> [x; y] = [lit "X"; lit "Y"].
Proof. eexists _, _, _. split_and!; by vm_compute. Qed.

(** The outline built into the component: nine nodes, in the order of
    their lines. *)
Example the_built_in_outline :
  ∃ t, Component.mindMapData = Ok t
    ∧ (λ n, App.label (item n)) <$> nodes t
      = [ lit "nyc"; lit "traditional compute"; lit "data & ai";
          lit "GenAI - MyCity"; lit "Microsoft"; lit "CE Engagement";
          lit "Showcasing Platform"; lit "Vision AI"; lit "New Node" ]
    ∧ (λ n, App.id (item n)) <$> children t
      = [ lit "traditional-compute"; lit "data-&-ai" ].
Proof. eexists. split_and!; by vm_compute. Qed.

(** * The claims of the specification *)

(** ** C1: every input yields a tree; the fallback root *)

(** C1, as stated, fails for the stack-based parser: addressed to inputs
    without any heading line, it returns the first line as the root, so two
    such inputs get different roots and none is the fallback root of the
    application. *)
Lemma no_fallback_in_stack_parser :
  JS.headingLevel (lit "hello") = 0 ∧ JS.headingLevel (lit "world") = 0
  ∧ ∃ t1 t2,
      MarkdownParser.parseMarkdown (lit "hello") = Ok t1
      ∧ MarkdownParser.parseMarkdown (lit "world") = Ok t2
      ∧ MarkdownParser.label (item t1) = lit "hello"
      ∧ MarkdownParser.label (item t2) = lit "world"
      ∧ MarkdownParser.label (item t1) ≠ App.label (item App.fallback).
Proof.
  split_and!; [done..|]. eexists _, _. split_and!; [by vm_compute..|done].
Qed.

(** C1 (amended): the parser of the application returns a tree for every
    input, and the fallback root whenever no line has heading level 1 (so
    for an input without heading lines, and for the empty string); the
    stack-based parser returns a tree for every input with a non-blank
    line, its root being the node of the first such line. *)
Theorem parse_returns_tree (markdown : str) :
  (∃ t, App.parseMarkdown markdown = Ok t)
  ∧ (Forall (λ line, JS.headingLevel line ≠ 1) (App.lines markdown) →
     App.parseMarkdown markdown = Ok App.fallback)
  ∧ (∀ line rest, MarkdownParser.lines markdown = line :: rest →
     ∃ t, MarkdownParser.parseMarkdown markdown = Ok t
          ∧ MarkdownParser.label (item t) = MarkdownParser.lineContent line).
Proof.
  split_and!.
  - destruct (parseLines_laidOut (App.lines markdown)) as (t&Ht&_). by exists t.
  - apply parseLines_fallback.
  - intros line rest Hlines. unfold MarkdownParser.parseMarkdown.
    rewrite Hlines. apply parseLines_first.
Qed.

Lemma parse_returns_tree_witness :
  (∃ t, App.parseMarkdown (lit "## B") = Ok t)
  ∧ App.parseMarkdown (lit "## B") = Ok App.fallback
  ∧ ∃ t, MarkdownParser.parseMarkdown (lit "## B") = Ok t
         ∧ MarkdownParser.label (item t) = MarkdownParser.lineContent (lit "## B").
Proof.
  destruct (parse_returns_tree (lit "## B")) as (H1&H2&H3).
  split_and!; [exact H1| |].
  - apply H2. vm_compute. repeat constructor; lia.
  - apply (H3 (lit "## B") []). reflexivity.
Defined.

(** ** C2: the horizontal position *)

(** C2, as stated, fails for the parser of the application: the root, at
    depth 0, is at [x = 250]. *)
Lemma app_root_not_at_zero :
  ∃ t, App.parseMarkdown (lit "# A") = Ok t
       ∧ (0, t) ∈ walk 0 t
       ∧ App.x (App.position (item t)) ≠ (Z.of_nat 0 * App.xSpacing)%Z.
Proof.
  eexists. split_and!; [by vm_compute| |done]. apply list_elem_of_here.
Qed.

(** C2 (amended): at depth [d] of the returned tree (0 for the root, one
    more per edge), [x] is [d * 200] in the result of the stack-based
    parser and [(d + 1) * 250] in the result of the application's parser,
    whatever the numbers of leading [#]. *)
Theorem x_by_depth (markdown : str) :
  (∀ t d n, MarkdownParser.parseMarkdown markdown = Ok t →
     (d, n) ∈ walk 0 t →
     MarkdownParser.x (MarkdownParser.position (item n))
     = (Z.of_nat d * MarkdownParser.xSpacing)%Z)
  ∧ (∀ t d n, App.parseMarkdown markdown = Ok t →
     (d, n) ∈ walk 0 t →
     App.x (App.position (item n)) = ((Z.of_nat d + 1) * App.xSpacing)%Z).
Proof.
  split.
  - intros t d n [T ->]%parseLines_convert. apply convert_depth.
  - intros t d n Ht Hn. unfold App.parseMarkdown in Ht.
    destruct (parseLines_laidOut (App.lines markdown)) as (t'&Ht'&Hcase).
    rewrite Ht in Ht'. injection Ht' as <-.
    destruct Hcase as [->|(Hev&Hx&_)]; [|by eapply laidOut_depth].
    apply list_elem_of_singleton in Hn as [= -> ->]. done.
Qed.

Lemma x_by_depth_witness :
  ∃ t1 n1 t2 n2,
    MarkdownParser.parseMarkdown (lit "# A" ++ nl ++ lit "### D") = Ok t1
    ∧ (1, n1) ∈ walk 0 t1
    ∧ MarkdownParser.x (MarkdownParser.position (item n1)) = 200%Z
    ∧ App.parseMarkdown (lit "# A" ++ nl ++ lit "## B") = Ok t2
    ∧ (1, n2) ∈ walk 0 t2
    ∧ App.x (App.position (item n2)) = 500%Z.
Proof.
  destruct (x_by_depth (lit "# A" ++ nl ++ lit "### D")) as [H1 _].
  destruct (x_by_depth (lit "# A" ++ nl ++ lit "## B")) as [_ H2].
  eexists _, _, _, _.
  split_and!.
  - vm_compute. reflexivity.
  - vm_compute. apply list_elem_of_further, list_elem_of_here.
  - eapply (H1 _ 1); [vm_compute; reflexivity|].
    vm_compute. apply list_elem_of_further, list_elem_of_here.
  - vm_compute. reflexivity.
  - vm_compute. apply list_elem_of_further, list_elem_of_here.
  - eapply (H2 _ 1); [vm_compute; reflexivity|].
    vm_compute. apply list_elem_of_further, list_elem_of_here.
Defined.

(** ** C3: a heading whose level skips *)

(** C3, as stated, fails for the parser of the application: [D] is attached
    to nothing and [A] is returned without children. *)
Lemma app_level_skip_not_attached :
  ∃ a, App.parseMarkdown (lit "# A" ++ nl ++ lit "### D") = Ok (Rose a [])
       ∧ App.label a = lit "A".
Proof. eexists. split; by vm_compute. Qed.

(** C3 (amended): the stack-based parser appends the node of a line to the
    children of the nearest open ancestor that is at a strictly smaller
    level (the entries popped before it are at least as deep as the line),
    so that ["# A\n### D"] yields [A] with the child [D]; the parser of the
    application appends the node of a heading of level [L > 1] to the
    children of the last node recorded at level [L - 1] exactly, and to no
    node when none is recorded. *)
Theorem heading_attachment :
  (∀ pre line, ∃ st popped parent rest c st',
     forEach MarkdownParser.step MarkdownParser.init pre = Ok st
     ∧ MarkdownParser.stack st = popped ++ parent :: rest
     ∧ Forall (λ q, ∃ cq, MarkdownParser.heap st !! q = Some cq
                          ∧ (MarkdownParser.lineLevel line
                             ≤ MarkdownParser.level (payload cq))%Z) popped
     ∧ MarkdownParser.heap st !! parent = Some c
     ∧ (MarkdownParser.level (payload c) < MarkdownParser.lineLevel line)%Z
     ∧ MarkdownParser.step st line = Ok st'
     ∧ MarkdownParser.stack st'
       = length (MarkdownParser.heap st) :: parent :: rest
     ∧ MarkdownParser.heap st' !! parent
       = Some (Cell (payload c) (kids c ++ [length (MarkdownParser.heap st)])))
  ∧ (∃ a d, MarkdownParser.parseMarkdown (lit "# A" ++ nl ++ lit "### D")
            = Ok (Rose a [Rose d []])
            ∧ MarkdownParser.label a = lit "A" ∧ MarkdownParser.label d = lit "D")
  ∧ (∀ counts pre line, 2 ≤ JS.headingLevel line →
     ∃ st st',
       forEach (App.step counts) App.init pre = Ok st
       ∧ App.step counts st line = Ok st'
       ∧ match App.lastNodeAtLevel st !! (JS.headingLevel line - 1) with
         | Some p =>
             ∃ c it, App.heap st !! p = Some c
               ∧ App.heap st' = push p (length (App.heap st)) (alloc it (App.heap st))
               ∧ App.heap st' !! p
                 = Some (Cell (payload c) (kids c ++ [length (App.heap st)]))
         | None => ∃ it, App.heap st' = alloc it (App.heap st)
         end).
Proof.
  split_and!.
  - intros pre line. destruct (run_inv pre) as (st&Hrun&Hinv).
    destruct (step_spec st line Hinv) as (popped&p&rest&c&Heq&Hpop&Hc&Hlv&Hstep).
    eexists st, popped, p, rest, c, _.
    split_and!; [done..|exact Hstep|done|].
    cbn [MarkdownParser.heap]. unfold push.
    rewrite list_lookup_alter_eq, lookup_alloc_lt, Hc; [done|].
    by eapply lookup_lt_Some.
  - eexists _, _. split_and!; by vm_compute.
  - intros counts pre line HL. destruct (run_ainv counts pre) as (st&Hrun&Hinv).
    destruct (step_attach counts st line Hinv HL) as (st'&Hst&Hcase).
    by exists st, st'.
Qed.

Lemma heading_attachment_witness :
  ∃ st st',
    forEach (App.step ∅) App.init [lit "# A"] = Ok st
    ∧ App.step ∅ st (lit "### D") = Ok st'
    ∧ ∃ it, App.heap st' = alloc it (App.heap st).
Proof.
  destruct heading_attachment as (_&_&H).
  destruct (H ∅ [lit "# A"] (lit "### D")) as (st&st'&Hrun&Hst&Hcase).
  { vm_compute. lia. }
  exists st, st'. split_and!; [done..|].
  vm_compute in Hrun. injection Hrun as <-. exact Hcase.
Defined.

(** ** C4: one node for every heading line *)

(** C4, as stated, fails: the root is the node of a heading line, so the
    nodes that are not the root are one fewer than the heading lines. *)
Lemma root_is_a_heading_line :
  let markdown := lit "# A" ++ nl ++ lit "## B" ++ nl ++ lit "## C" in
  wellFormed (JS.headingLevel <$> MarkdownParser.lines markdown) = true
  ∧ wellFormed (headingLevels (App.lines markdown)) = true
  ∧ ∃ t1 t2,
      MarkdownParser.parseMarkdown markdown = Ok t1
      ∧ App.parseMarkdown markdown = Ok t2
      ∧ size t1 - 1 ≠ length (headingLevels (MarkdownParser.lines markdown))
      ∧ size t2 - 1 ≠ length (headingLevels (App.lines markdown)).
Proof.
  split_and!; [done..|]. eexists _, _. split_and!; [by vm_compute..| |];
    vm_compute; lia.
Qed.

(** C4 (amended): for a well-formed input (a first heading of level 1 and
    no other, every later heading at most one level below the heading
    before it; for the stack-based parser, no other non-blank line) the
    number of nodes of the returned tree, its root included, is the number
    of heading lines. *)
Theorem nodes_are_heading_lines (markdown : str) :
  (wellFormed (JS.headingLevel <$> MarkdownParser.lines markdown) = true →
   ∃ t, MarkdownParser.parseMarkdown markdown = Ok t
        ∧ size t = length (headingLevels (MarkdownParser.lines markdown)))
  ∧ (wellFormed (headingLevels (App.lines markdown)) = true →
     ∃ t, App.parseMarkdown markdown = Ok t
          ∧ size t = length (headingLevels (App.lines markdown))).
Proof.
  split.
  - apply parseLines_wellFormed.
  - apply app_parseLines_wellFormed.
Qed.

Lemma nodes_are_heading_lines_witness :
  let markdown := lit "# A" ++ nl ++ lit "## B" ++ nl ++ lit "### C" in
  (∃ t, MarkdownParser.parseMarkdown markdown = Ok t ∧ size t = 3)
  ∧ (∃ t, App.parseMarkdown markdown = Ok t ∧ size t = 3).
Proof.
  intros markdown. destruct (nodes_are_heading_lines markdown) as [H1 H2].
  split; [apply H1|apply H2]; reflexivity.
Defined.

(** ** C5: the identifiers of one result *)

(** C5, as stated, fails under both schemes: the two nodes [C] get the
    same identifier. *)
Lemma identifiers_repeat :
  let markdown :=
    lit "# A" ++ nl ++ lit "## B" ++ nl ++ lit "### C" ++ nl
    ++ lit "## B" ++ nl ++ lit "### C" in
  ∃ t1 t2,
    MarkdownParser.parseMarkdown markdown = Ok t1
    ∧ App.parseMarkdown markdown = Ok t2
    ∧ ¬ NoDup ((λ n, MarkdownParser.id (item n)) <$> nodes t1)
    ∧ ¬ NoDup ((λ n, App.id (item n)) <$> nodes t2).
Proof.
  eexists _, _. split_and!; [by vm_compute..| |].
  - vm_compute. intros H. apply NoDup_cons in H as [_ H].
    apply NoDup_cons in H as [_ H]. apply NoDup_cons in H as [H _].
    apply H. apply list_elem_of_further, list_elem_of_here.
  - vm_compute. intros H. apply NoDup_cons in H as [_ H].
    apply NoDup_cons in H as [H _].
    apply H. apply list_elem_of_further, list_elem_of_here.
Qed.

(** C5 (amended): in the result of the stack-based parser the identifier
    of the root is [node-0-0] and the identifier of the child number [j]
    (from 0) of a node at depth [d] is [node-<d+1>-<j>], depth and sibling
    index, so that the identifiers of the children of one node are pairwise
    distinct; in the result of the application's parser the identifier of
    every node is the slug of its label, so two nodes with labels of the
    same slug share it. *)
Theorem identifiers (markdown : str) :
  (∀ t, MarkdownParser.parseMarkdown markdown = Ok t →
     MarkdownParser.id (item t) = lit "node-0-0"
     ∧ (∀ d n j k, (d, n) ∈ walk 0 t → children n !! j = Some k →
          MarkdownParser.id (item k)
          = lit "node-" ++ JS.ofNat (S d) ++ lit "-" ++ JS.ofNat j)
     ∧ everywhere (λ _ ks, NoDup (MarkdownParser.id <$> ks)) t
     ∧ ∀ d n, (d, n) ∈ walk 0 t →
         ∃ i, MarkdownParser.id (item n)
              = lit "node-" ++ JS.ofNat d ++ lit "-" ++ JS.ofNat i)
  ∧ (∀ t, App.parseMarkdown markdown = Ok t →
     everywhere (λ it _, App.id it = slug (App.label it)) t
     ∧ (∀ n1 n2, n1 ∈ nodes t → n2 ∈ nodes t →
          slug (App.label (item n1)) = slug (App.label (item n2)) →
          App.id (item n1) = App.id (item n2))
     ∧ (NoDup ((λ n, App.id (item n)) <$> nodes t)
        ↔ NoDup ((λ n, slug (App.label (item n))) <$> nodes t))).
Proof.
  split.
  - intros t [T ->]%parseLines_convert. split_and!.
    + by rewrite convert_item.
    + intros d n j k Hn Hk. apply walk_convert in Hn as (T'&i&->).
      apply convert_child in Hk. by rewrite Hk.
    + apply convert_apart_id.
    + intros d n. apply convert_depth_id.
  - intros t Ht. unfold App.parseMarkdown in Ht.
    destruct (parseLines_laidOut (App.lines markdown)) as (t'&Ht'&Hcase).
    rewrite Ht in Ht'. injection Ht' as <-.
    assert (everywhere (λ it _, App.id it = slug (App.label it)) t) as Hev.
    { destruct Hcase as [->|(Hev&_)]; [by repeat constructor|].
      eapply everywhere_impl; [|exact Hev]. intros it ks (Hl&_). by eapply lined_id. }
    split; [done|].
    unfold everywhere in Hev. rewrite Forall_forall in Hev. split.
    + intros n1 n2 H1 H2 Heq. by rewrite (Hev n1 H1), (Hev n2 H2).
    + assert ((λ n, App.id (item n)) <$> nodes t
              = (λ n, slug (App.label (item n))) <$> nodes t) as ->; [|done].
      apply list_fmap_ext. intros i n Hn. apply Hev.
      by eapply list_elem_of_lookup_2.
Qed.

Lemma identifiers_witness :
  ∃ t1 k t2,
    MarkdownParser.parseMarkdown (lit "# A" ++ nl ++ lit "## B" ++ nl ++ lit "## C")
    = Ok t1
    ∧ children t1 !! 1 = Some k
    ∧ MarkdownParser.id (item k) = lit "node-1-1"
    ∧ everywhere (λ _ ks, NoDup (MarkdownParser.id <$> ks)) t1
    ∧ App.parseMarkdown (lit "# A" ++ nl ++ lit "## B" ++ nl ++ lit "## C") = Ok t2
    ∧ everywhere (λ it _, App.id it = slug (App.label it)) t2.
Proof.
  destruct (identifiers (lit "# A" ++ nl ++ lit "## B" ++ nl ++ lit "## C"))
    as [H1 H2].
  destruct (MarkdownParser.parseMarkdown
              (lit "# A" ++ nl ++ lit "## B" ++ nl ++ lit "## C"))
    as [t1| |] eqn:Ht1; [|by vm_compute in Ht1..].
  destruct (children t1 !! 1) as [k|] eqn:Hk;
    [|by vm_compute in Ht1; injection Ht1 as <-].
  destruct (H1 t1 eq_refl) as (_&Hid&Hnd&_).
  eexists t1, k, _. split_and!; [done..| | | |].
  - refine (Hid 0 t1 1 k _ Hk). destruct t1. rewrite walk_unfold. left.
  - exact Hnd.
  - vm_compute. reflexivity.
  - apply (H2 _ eq_refl).
Defined.

(** ** C6: colour and edge label *)




(** ** C7: siblings never share their [y] *)

(** C7: in the tree either parser returns, the children of one node have
    pairwise distinct [y] coordinates, and the tree, coordinates included,
    is a function of the input. *)
Theorem siblings_apart (markdown : str) :
  (∀ t, MarkdownParser.parseMarkdown markdown = Ok t →
     everywhere (λ _ ks, NoDup ((λ k, MarkdownParser.y (MarkdownParser.position k))
                                <$> ks)) t)
  ∧ (∀ t, App.parseMarkdown markdown = Ok t →
     everywhere (λ _ ks, NoDup ((λ k, App.y (App.position k)) <$> ks)) t)
  ∧ (∀ t t', MarkdownParser.parseMarkdown markdown = Ok t →
     MarkdownParser.parseMarkdown markdown = Ok t' → t = t')
  ∧ (∀ t t', App.parseMarkdown markdown = Ok t →
     App.parseMarkdown markdown = Ok t' → t = t').
Proof.
  split_and!.
  - intros t [T ->]%parseLines_convert. apply convert_apart_y.
  - intros t Ht. unfold App.parseMarkdown in Ht.
    destruct (parseLines_laidOut (App.lines markdown)) as (t'&Ht'&Hcase).
    rewrite Ht in Ht'. injection Ht' as <-.
    destruct Hcase as [->|(Hev&_&Hy)]; [by repeat constructor|].
    eapply spread_apart; [|exact Hy].
    eapply everywhere_impl; [|exact Hev]. by intros it ks (_&_&Hs).
  - congruence.
  - congruence.
Qed.

Lemma siblings_apart_witness :
  ∃ t1 t2,
    MarkdownParser.parseMarkdown (lit "# A" ++ nl ++ lit "## B" ++ nl ++ lit "## C") = Ok t1
    ∧ everywhere (λ _ ks, NoDup ((λ k, MarkdownParser.y (MarkdownParser.position k))
                                 <$> ks)) t1
    ∧ App.parseMarkdown (lit "# A" ++ nl ++ lit "## B" ++ nl ++ lit "## C") = Ok t2
    ∧ everywhere (λ _ ks, NoDup ((λ k, App.y (App.position k)) <$> ks)) t2.
Proof.
  destruct (siblings_apart (lit "# A" ++ nl ++ lit "## B" ++ nl ++ lit "## C"))
    as (H1&H2&_).
  eexists _, _. split_and!.
  - vm_compute. reflexivity.
  - apply H1. vm_compute. reflexivity.
  - vm_compute. reflexivity.
  - apply H2. vm_compute. reflexivity.
Defined.

(** ** C8: the same input, the same tree *)

(** C8: whatever objects earlier calls have left in the store, a call of
    either parser on a string has the outcome of a call on that string in
    the empty store: the same tree, with the same identifiers, labels,
    colours, edge labels, positions and order of children, or the same
    exception.  A call leaves the objects it found as they were and adds
    its own after them, [root] and one object for each line in the
    stack-based parser, one object for each heading line in the parser of
    the application; so a second call on the same string, in the store
    the first one left, returns a tree structurally identical to the
    first. *)
Theorem parse_twice (markdown : str) :
  (∀ h0, snd <$> MarkdownParserCall.parseMarkdown h0 markdown
         = MarkdownParser.parseMarkdown markdown)
  ∧ (∀ h0, snd <$> AppCall.parseMarkdown h0 markdown = App.parseMarkdown markdown)
  ∧ (∀ h0 h1 t, MarkdownParserCall.parseMarkdown h0 markdown = Ok (h1, t) →
       (∃ new, h1 = h0 ++ new
               ∧ length new = S (length (MarkdownParser.lines markdown)))
       ∧ ∃ h2, MarkdownParserCall.parseMarkdown h1 markdown = Ok (h2, t))
  ∧ (∀ h0 h1 t, AppCall.parseMarkdown h0 markdown = Ok (h1, t) →
       (∃ new, h1 = h0 ++ new
               ∧ length new = length (headingLevels (App.lines markdown)))
       ∧ ∃ h2, AppCall.parseMarkdown h1 markdown = Ok (h2, t)).
Proof.
  split_and!.
  - intros h0. apply call_parseLines.
  - intros h0. apply call_parseLinesA.
  - intros h0 h1 t Hcall. unfold MarkdownParserCall.parseMarkdown in *.
    destruct (call_parseLines h0 (MarkdownParser.lines markdown)) as [H0 Hnew].
    destruct (call_parseLines h1 (MarkdownParser.lines markdown)) as [H1 _].
    split; [by eapply Hnew|].
    rewrite <- H0, Hcall in H1.
    destruct (MarkdownParserCall.parseLines h1 _) as [[h2 t2]| |]; [|done..].
    injection H1 as ->. by exists h2.
  - intros h0 h1 t Hcall. unfold AppCall.parseMarkdown in *.
    destruct (call_parseLinesA h0 (App.lines markdown)) as [H0 Hnew].
    destruct (call_parseLinesA h1 (App.lines markdown)) as [H1 _].
    split; [by eapply Hnew|].
    rewrite <- H0, Hcall in H1.
    destruct (AppCall.parseLines h1 _) as [[h2 t2]| |]; [|done..].
    injection H1 as ->. by exists h2.
Qed.

Lemma parse_twice_witness :
  (∃ h1 t h2,
     MarkdownParserCall.parseMarkdown [] (lit "# A" ++ nl ++ lit "## B") = Ok (h1, t)
     ∧ length h1 = 3
     ∧ MarkdownParserCall.parseMarkdown h1 (lit "# A" ++ nl ++ lit "## B")
       = Ok (h2, t))
  ∧ ∃ h1 t h2,
      AppCall.parseMarkdown [] (lit "# A" ++ nl ++ lit "## B") = Ok (h1, t)
      ∧ length h1 = 2
      ∧ AppCall.parseMarkdown h1 (lit "# A" ++ nl ++ lit "## B") = Ok (h2, t).
Proof.
  destruct (parse_twice (lit "# A" ++ nl ++ lit "## B")) as (_&_&HS&HA).
  split.
  - destruct (MarkdownParserCall.parseMarkdown [] (lit "# A" ++ nl ++ lit "## B"))
      as [[h1 t]| |] eqn:E; [|by vm_compute in E..].
    destruct (HS [] h1 t E) as (_&h2&H2).
    exists h1, t, h2. split_and!; [done| |done].
    vm_compute in E. by injection E as <- _.
  - destruct (AppCall.parseMarkdown [] (lit "# A" ++ nl ++ lit "## B"))
      as [[h1 t]| |] eqn:E; [|by vm_compute in E..].
    destruct (HA [] h1 t E) as (_&h2&H2).
    exists h1, t, h2. split_and!; [done| |done].
    vm_compute in E. by injection E as <- _.
Defined.

(** ** C9: later children of the virtual root *)

(** C9: when, after the first line and lines deeper than it, a line [e] at
    most as deep as the first comes, [e] is attached to the virtual root as
    its second child; the result is what the lines before [e] alone give,
    the tree of the first line with one node for each of them: [e] and all
    that follows are absent. *)
Theorem later_root_children_absent (markdown : str) (line e : str)
    (pre post : list str) :
  MarkdownParser.lines markdown = line :: pre ++ e :: post →
  Forall (λ l, (MarkdownParser.lineLevel line < MarkdownParser.lineLevel l)%Z) pre →
  (MarkdownParser.lineLevel e ≤ MarkdownParser.lineLevel line)%Z →
  (∃ st, forEach MarkdownParser.step MarkdownParser.init (line :: pre ++ [e]) = Ok st
         ∧ MarkdownParser.heap st !! MarkdownParser.root
           = Some (Cell rootItem [1; S (S (length pre))]))
  ∧ MarkdownParser.parseMarkdown markdown = MarkdownParser.parseLines (line :: pre)
  ∧ ∃ t, MarkdownParser.parseMarkdown markdown = Ok t
         ∧ MarkdownParser.label (item t) = MarkdownParser.lineContent line
         ∧ size t = S (length pre).
Proof.
  intros Hlines Hpre He. unfold MarkdownParser.parseMarkdown. rewrite Hlines.
  rewrite (parseLines_second_child line pre e post Hpre He).
  split_and!; [by apply run_second_child|done|].
  destruct (parseLines_deep line pre Hpre) as (t&Ht&Hsize).
  destruct (parseLines_first line pre) as (t'&Ht'&Hlabel).
  rewrite Ht in Ht'. injection Ht' as <-. by exists t.
Qed.

Lemma later_root_children_absent_witness :
  let markdown :=
    lit "# A" ++ nl ++ lit "## B" ++ nl ++ lit "# C" ++ nl ++ lit "## D" in
  MarkdownParser.parseMarkdown markdown = MarkdownParser.parseLines [lit "# A"; lit "## B"]
  ∧ ∃ t, MarkdownParser.parseMarkdown markdown = Ok t
         ∧ MarkdownParser.label (item t) = MarkdownParser.lineContent (lit "# A")
         ∧ size t = 2.
Proof.
  intros markdown.
  destruct (later_root_children_absent markdown (lit "# A") (lit "# C")
              [lit "## B"] [lit "## D"]) as (_&H2&H3).
  - reflexivity.
  - repeat constructor.
  - vm_compute. discriminate.
  - split; [exact H2|exact H3].
Defined.

(** ** C10: orphans of the application's parser *)

(** C10, as stated, fails for a later line of level [L + 1] that comes
    after another line of level [L]: in [# A / ### D / ## B / ### E / #### F]
    the line [### D] is met while nothing is recorded at level 2, and its
    node stays without children and out of the tree; but [#### F] is
    attached to the node of [### E], which by then is the one recorded at
    level 3 and a child of [## B], and so [F] is in the tree that is
    returned. *)
Lemma later_line_under_new_parent :
  let markdown :=
    lit "# A" ++ nl ++ lit "### D" ++ nl ++ lit "## B" ++ nl ++ lit "### E"
    ++ nl ++ lit "#### F" in
  let ls := App.lines markdown in
  let counts := foldl App.countChildren ∅ ls in
  ls = [lit "# A"] ++ lit "### D" :: [lit "## B"; lit "### E"; lit "#### F"]
  ∧ lastRecorded counts [lit "# A"] (JS.headingLevel (lit "### D") - 1) = None
  ∧ JS.headingLevel (lit "#### F") = S (JS.headingLevel (lit "### D"))
  ∧ ∃ st t,
      forEach (App.step counts) App.init ls = Ok st
      ∧ App.heap st !! 1 = Some (Cell (entry (lit "### D") NaN) [])
      ∧ App.heap st !! 3
        = Some (Cell (entry (lit "### E") (Fin 0)) [4])
      ∧ App.rootTree ls = Ok (Some t)
      ∧ (1 ∉ addrs t)
      ∧ 4 ∈ addrs t.
Proof.
  intros markdown ls counts. split_and!; [by vm_compute..|].
  eexists _, _. split_and!; [by vm_compute..| |]; by_computation.
Qed.

(** C10 (amended): when a heading line [l1] of level [L > 1] is met while
    no node is recorded at level [L - 1], its node (the object number [n],
    [n] being the number of heading lines before) enters no [children]
    array, yet it is recorded as the last node at level [L], and it does
    not occur in the tree that is returned, whatever follows, also when
    nothing follows.  The node of every later line of level [L + 1] that
    is met before any other line of level [L], so while this node is still
    the one recorded at level [L], is appended to its children, and does
    not occur in the tree that is returned either, whatever follows. *)
Theorem orphans_absent (markdown : str) (pre post : list str) (l1 : str) :
  let ls := App.lines markdown in
  let counts := foldl App.countChildren ∅ ls in
  let L := JS.headingLevel l1 in
  let n := length (headingLevels pre) in
  ls = pre ++ l1 :: post →
  2 ≤ L →
  lastRecorded counts pre (L - 1) = None →
  (∃ st1,
     forEach (App.step counts) App.init (pre ++ [l1]) = Ok st1
     ∧ App.heap st1 !! n = Some (Cell (entry l1 NaN) [])
     ∧ (∀ a c, App.heap st1 !! a = Some c → n ∉ kids c)
     ∧ App.lastNodeAtLevel st1 !! L = Some n)
  ∧ (∃ o, App.rootTree ls = Ok o ∧ ∀ t, o = Some t → n ∉ addrs t)
  ∧ ∀ mid l2 post',
      post = mid ++ l2 :: post' →
      Forall (λ l, JS.headingLevel l ≠ L) mid →
      JS.headingLevel l2 = S L →
      let n2 := length (headingLevels (pre ++ l1 :: mid)) in
      (∃ st2 c,
         forEach (App.step counts) App.init (pre ++ l1 :: mid ++ [l2]) = Ok st2
         ∧ App.heap st2 !! n = Some c
         ∧ payload c = entry l1 NaN
         ∧ last (kids c) = Some n2)
      ∧ ∃ o, App.rootTree ls = Ok o
             ∧ ∀ t, o = Some t → (n ∉ addrs t) ∧ (n2 ∉ addrs t).
Proof.
  intros ls counts L n Hls HL Hnone.
  destruct (orphan_run counts pre l1 HL Hnone) as (st1&Hrun1&Hcell&Hno&Hlast&Hhid).
  split_and!.
  - by exists st1.
  - destruct (hidden_rootTree (λ a, a = n) ls (pre ++ [l1]) post st1)
      as (o&Ho&Hav); [by rewrite <- app_assoc|exact Hrun1|exact Hhid|].
    exists o. split; [done|]. intros t Ht Hin. specialize (Hav t Ht).
    rewrite Forall_forall in Hav. by apply (Hav _ Hin).
  - intros mid l2 post' Hpost Hmid Hl2 n2.
    destruct (orphan_child_run counts st1 L n (entry l1 NaN) mid l2)
      as (st2&c&Hrun2&Hc&Hpay&Hlastk&Hhid2); [done|lia|done|by eexists|done..|].
    assert (length (App.heap st1) + length (headingLevels mid) = n2) as Hn2.
    { pose proof (run_heap_length counts (pre ++ [l1]) App.init st1
                    ainv_init Hrun1) as Hlen.
      subst n2. rewrite Hlen. simpl.
      change (pre ++ l1 :: mid) with (pre ++ [l1] ++ mid).
      rewrite !headingLevels_app, !length_app. lia. }
    rewrite Hn2 in Hlastk, Hhid2.
    assert (forEach (App.step counts) App.init (pre ++ l1 :: mid ++ [l2]) = Ok st2)
      as Hrun.
    { change (pre ++ l1 :: mid ++ [l2]) with (pre ++ [l1] ++ mid ++ [l2]).
      rewrite (app_assoc pre [l1] (mid ++ [l2])), forEach_app, Hrun1. done. }
    split; [by exists st2, c|].
    destruct (hidden_rootTree (λ a, a = n ∨ a = n2) ls
                (pre ++ l1 :: mid ++ [l2]) post' st2)
      as (o&Ho&Hav); [|exact Hrun|exact Hhid2|].
    { rewrite Hls, Hpost.
      change (pre ++ l1 :: mid ++ [l2]) with (pre ++ [l1] ++ mid ++ [l2]).
      by rewrite <- !app_assoc. }
    exists o. split; [done|]. intros t Ht. specialize (Hav t Ht).
    rewrite Forall_forall in Hav. split; intros Hin; apply (Hav _ Hin); auto.
Qed.

Lemma orphans_absent_witness :
  let markdown :=
    lit "# A" ++ nl ++ lit "### D" ++ nl ++ lit "## B" ++ nl ++ lit "#### E" in
  (∃ o, App.rootTree (App.lines (lit "# A" ++ nl ++ lit "### D")) = Ok o
        ∧ ∀ t, o = Some t → 1 ∉ addrs t)
  ∧ ∃ o, App.rootTree (App.lines markdown) = Ok o
         ∧ ∀ t, o = Some t → (1 ∉ addrs t) ∧ (3 ∉ addrs t).
Proof.
  intros markdown. split.
  - destruct (orphans_absent (lit "# A" ++ nl ++ lit "### D") [lit "# A"] []
                (lit "### D")) as (_&H&_).
    + reflexivity.
    + vm_compute. lia.
    + vm_compute. reflexivity.
    + exact H.
  - destruct (orphans_absent markdown [lit "# A"] [lit "## B"; lit "#### E"]
                (lit "### D")) as (_&_&H).
    + reflexivity.
    + vm_compute. lia.
    + vm_compute. reflexivity.
    + destruct (H [lit "## B"] (lit "#### E") []) as (_&H').
      * reflexivity.
      * repeat constructor. vm_compute. lia.
      * vm_compute. reflexivity.
      * exact H'.
Defined.

(** * Further properties of the code *)

(** ** The component: finding a node *)

(** X1: [findNodeData] returns the first node that has the identifier,
    in the order parents before children and children from first to last:
    no node before it has the identifier; it returns [null] exactly when no
    node has it. *)
Theorem find_first_match (mindMapData : App.NodeDataType) (nodeId : str) :
  match Component.findNodeData mindMapData nodeId with
  | Some n =>
      ∃ pre post, nodes mindMapData = pre ++ n :: post
        ∧ App.id (item n) = nodeId
        ∧ Forall (λ n', App.id (item n') ≠ nodeId) pre
  | None => Forall (λ n', App.id (item n') ≠ nodeId) (nodes mindMapData)
  end.
Proof.
  unfold Component.findNodeData.
  destruct (Component.findNode nodeId mindMapData) as [n|] eqn:Hf.
  - rewrite findNode_head in Hf. by apply head_filter_first in Hf.
  - by apply findNode_None.
Qed.

(** X2: When the identifiers of the tree are pairwise distinct, looking
    up the identifier of a node of the tree returns that node. *)
Theorem find_own_node (mindMapData n : App.NodeDataType) :
  NoDup ((λ n, App.id (item n)) <$> nodes mindMapData) →
  n ∈ nodes mindMapData →
  Component.findNodeData mindMapData (App.id (item n)) = Some n.
Proof.
  intros Hnd Hn. unfold Component.findNodeData.
  destruct (Component.findNode _ mindMapData) as [n'|] eqn:Hf.
  - apply findNode_Some in Hf as [Hn' Hid]. f_equal.
    by eapply (NoDup_fmap_eq (λ n, App.id (item n))).
  - rewrite findNode_None, Forall_forall in Hf. by destruct (Hf n Hn).
Qed.

Lemma find_own_node_witness :
  ∃ t n, Component.mindMapData = Ok t
    ∧ App.label (item n) = lit "Vision AI"
    ∧ Component.findNodeData t (lit "vision-ai") = Some n.
Proof.
  destruct Component.mindMapData as [t| |] eqn:Ht; try (by vm_compute in Ht).
  exists t. destruct (nodes t !! 7) as [n|] eqn:Hn;
    [|by vm_compute in Ht; injection Ht as <-].
  exists n. split; [done|].
  assert (App.id (item n) = lit "vision-ai") as Hid
    by (by vm_compute in Ht; injection Ht as <-; injection Hn as <-).
  split; [by vm_compute in Ht; injection Ht as <-; injection Hn as <-|].
  rewrite <- Hid. apply (find_own_node t n).
  - vm_compute in Ht. injection Ht as <-.
    apply (bool_decide_unpack _). by vm_compute.
  - by eapply list_elem_of_lookup_2.
Defined.

(** ** The component: clicks *)

(** X3: A click on a node changes at most the entry of that node in
    [expandedNodes]: the level of every other key is what it was. *)
Theorem click_keeps_other_keys (mindMapData : App.NodeDataType)
    (nodeId other : str) (prev : JSMap.t) :
  other ≠ nodeId →
  JSMap.get other (Component.onNodeClick mindMapData nodeId prev)
  = JSMap.get other prev.
Proof.
  intros Hne. unfold Component.onNodeClick.
  destruct (Component.findNodeData _ _) as [cur|]; [|done].
  destruct (decide _); [done|].
  destruct (JSMap.has _ _); cbv zeta; [destruct (_ <? _)|].
  - by apply get_set_ne.
  - by apply get_delete_ne.
  - by apply get_set_ne.
Qed.

Lemma click_keeps_other_keys_witness :
  JSMap.get (lit "b") (Component.onNodeClick App.fallback (lit "nyc") [(lit "b", 2)])
  = JSMap.get (lit "b") [(lit "b", 2)].
Proof. by apply click_keeps_other_keys. Defined.

(** X4: Whatever nodes are clicked, from the initial empty map on: the
    keys of [expandedNodes] are pairwise distinct, every key is the
    identifier of a node that [findNodeData] finds, and its level is the
    index of one of the children of that node (so the node has
    children). *)
Theorem expanded_nodes_after_clicks (mindMapData : App.NodeDataType)
    (ids : list str) :
  NoDup (clicks mindMapData ids).*1
  ∧ ∀ nodeId level, (nodeId, level) ∈ clicks mindMapData ids →
      ∃ n, Component.findNodeData mindMapData nodeId = Some n
           ∧ level < length (children n).
Proof.
  destruct (clicks_okMap mindMapData ids) as [Hnd Hall]. split; [done|].
  intros k lvl Hin. rewrite Forall_forall in Hall. exact (Hall _ Hin).
Qed.

(** X5: Clicks on a node that has [c] children, [c] at least 1, and
    is not expanded: the first click enters it at the end of
    [expandedNodes] with level 0, each of the next [c - 1] clicks raises
    its level by one, and one more click removes it, which leaves
    [expandedNodes] as it was before the first click. *)
Theorem click_cycle (mindMapData n : App.NodeDataType) (nodeId : str)
    (prev : JSMap.t) :
  Component.findNodeData mindMapData nodeId = Some n →
  children n ≠ [] →
  nodeId ∉ prev.*1 →
  (∀ j, j < length (children n) →
     Nat.iter (S j) (Component.onNodeClick mindMapData nodeId) prev
     = prev ++ [(nodeId, j)])
  ∧ Nat.iter (S (length (children n)))
      (Component.onNodeClick mindMapData nodeId) prev = prev.
Proof.
  intros Hn Hc Hk.
  assert (length (children n) ≠ 0) as Hlen by by destruct (children n).
  assert (∀ j, j < length (children n) →
            Nat.iter (S j) (Component.onNodeClick mindMapData nodeId) prev
            = prev ++ [(nodeId, j)]) as Hup.
  { induction j as [|j IH]; intros Hj.
    - cbn [Nat.iter nat_rect]. unfold Component.onNodeClick. rewrite Hn.
      rewrite decide_False by done.
      rewrite (proj2 (has_false _ _)) by done. by apply set_absent.
    - change (Nat.iter (S (S j)) ?f ?x) with (f (Nat.iter (S j) f x)).
      rewrite IH by lia. unfold Component.onNodeClick. rewrite Hn.
      rewrite decide_False by done.
      rewrite (proj2 (has_true _ _))
        by (rewrite fmap_app, elem_of_app; right; left).
      cbv zeta. rewrite get_last by done. cbn [default].
      change (Datatypes.id j) with j.
      rewrite (proj2 (Nat.ltb_lt _ _)) by lia.
      rewrite set_last by done. by rewrite Nat.add_1_r. }
  split; [exact Hup|].
  change (Nat.iter (S ?k) ?f ?x) with (f (Nat.iter k f x)).
  destruct (length (children n)) as [|c] eqn:Hc'; [done|].
  rewrite Hup by lia. unfold Component.onNodeClick. rewrite Hn, Hc'.
  rewrite decide_False by done.
  rewrite (proj2 (has_true _ _))
    by (rewrite fmap_app, elem_of_app; right; left).
  cbv zeta. rewrite get_last by done. cbn [default].
  change (Datatypes.id c) with c.
  rewrite (proj2 (Nat.ltb_ge _ _)) by lia.
  by apply delete_last.
Qed.

Lemma click_cycle_witness :
  let t := Rose (item App.fallback) [Rose (item App.fallback) []; App.fallback] in
  (∀ j, j < 2 →
     Nat.iter (S j) (Component.onNodeClick t (lit "nyc")) [] = [(lit "nyc", j)])
  ∧ Nat.iter 3 (Component.onNodeClick t (lit "nyc")) [] = [].
Proof.
  apply (click_cycle
           (Rose (item App.fallback) [Rose (item App.fallback) []; App.fallback])
           (Rose (item App.fallback) [Rose (item App.fallback) []; App.fallback])
           (lit "nyc") []).
  - reflexivity.
  - discriminate.
  - apply not_elem_of_nil.
Defined.

(** ** The component: what is on display *)

(** X6: The effect puts the node of the root first and then, for every
    entry [(nodeId, level)] of [expandedNodes] in its order, a node and an
    edge for each of the first [level + 1] children, in their order, of the
    node that [findNodeData] finds for [nodeId], and nothing for an entry
    whose node is not found; these are all the nodes and all the edges.
    So after the root, nodes and edges correspond one to one, the node
    being [createNode(child)] and the edge leading from [nodeId] to the
    identifier of that node, with the [edgeLabel] of the child as its
    label. *)
Theorem display_pairs (mindMapData : App.NodeDataType) (expandedNodes : JSMap.t) :
  (Component.display mindMapData expandedNodes).1
  = Component.rootNode mindMapData
    :: (expandedNodes ≫= λ e,
          match Component.findNodeData mindMapData e.1 with
          | Some currentNode =>
              Component.createNode <$> take (S e.2) (children currentNode)
          | None => []
          end)
  ∧ (Component.display mindMapData expandedNodes).2
    = (expandedNodes ≫= λ e,
         match Component.findNodeData mindMapData e.1 with
         | Some currentNode =>
             Component.edgeTo e.1 <$> take (S e.2) (children currentNode)
         | None => []
         end)
  ∧ ∃ ns, (Component.display mindMapData expandedNodes).1
          = Component.rootNode mindMapData :: ns
      ∧ Forall2 (λ nd e,
          ∃ level parent i child,
            (Edge.source e, level) ∈ expandedNodes
            ∧ Component.findNodeData mindMapData (Edge.source e) = Some parent
            ∧ children parent !! i = Some child ∧ i ≤ level
            ∧ nd = Component.createNode child
            ∧ e = Component.edgeTo (Edge.source e) child
            ∧ Edge.target e = Node.id nd
            ∧ Edge.label e = App.edgeLabel (item child))
          ns (Component.display mindMapData expandedNodes).2.
Proof.
  rewrite display_shown. cbn [fst snd]. split_and!.
  - f_equal. unfold shown, Component.findNodeData.
    induction expandedNodes as [|e m IH]; [done|].
    cbn [mbind list_bind]. rewrite fmap_app, IH. f_equal.
    destruct (Component.findNode e.1 mindMapData); [|done].
    rewrite <- list_fmap_compose. done.
  - unfold shown, Component.findNodeData.
    induction expandedNodes as [|e m IH]; [done|].
    cbn [mbind list_bind]. rewrite fmap_app, IH. f_equal.
    destruct (Component.findNode e.1 mindMapData); [|done].
    rewrite <- list_fmap_compose. done.
  - eexists. split; [done|].
    apply Forall2_fmap_same, Forall_forall. intros [k child] Hin.
    apply shown_elem in Hin as (lvl&parent&i&Hk&Hp&Hi&Hle).
    exists lvl, parent, i, child. by split_and!.
Qed.

(** X7: Whatever nodes are clicked, the effect shows the root and, for
    every expanded node, exactly [level + 1] children: one node more than
    edges, and as many edges as the levels of [expandedNodes], each
    counted one up, add up to. *)
Theorem display_size (mindMapData : App.NodeDataType) (ids : list str) :
  let expandedNodes := clicks mindMapData ids in
  length (Component.display mindMapData expandedNodes).2
  = sum_list_with (λ e, S e.2) expandedNodes
  ∧ length (Component.display mindMapData expandedNodes).1
    = S (length (Component.display mindMapData expandedNodes).2).
Proof.
  intros m. rewrite display_shown. cbn [fst snd length].
  rewrite !length_fmap. split; [|done].
  apply shown_ok_length, clicks_okMap.
Qed.

(** X8: When the identifiers of the tree are pairwise distinct,
    then whatever nodes are clicked, the nodes on display have pairwise
    distinct identifiers, and so have the targets of the edges. *)
Theorem display_ids_distinct (mindMapData : App.NodeDataType) (ids : list str) :
  NoDup ((λ n, App.id (item n)) <$> nodes mindMapData) →
  let expandedNodes := clicks mindMapData ids in
  NoDup (Node.id <$> (Component.display mindMapData expandedNodes).1)
  ∧ NoDup (Edge.target <$> (Component.display mindMapData expandedNodes).2).
Proof.
  intros Hids m. rewrite display_shown. cbn [fst snd].
  pose proof (shown_below mindMapData m Hids
                (proj1 (clicks_okMap mindMapData ids))) as Hsub.
  apply (fmap_submseteq (λ n, App.id (item n))) in Hsub.
  apply submseteq_Permutation in Hsub as [rest Hrest].
  destruct mindMapData as [it cs]. rewrite nodes_unfold in Hids, Hrest.
  cbn [tail] in Hrest. rewrite fmap_cons in Hids.
  apply NoDup_cons in Hids as [Hroot Htail].
  rewrite Hrest in Hroot, Htail.
  apply NoDup_app in Htail as (Hshown&_&_).
  rewrite <- list_fmap_compose in Hshown.
  split.
  - rewrite fmap_cons, <- list_fmap_compose. apply NoDup_cons. split; [|done].
    intros Hin. apply Hroot, elem_of_app. left.
    by rewrite <- list_fmap_compose.
  - by rewrite <- list_fmap_compose.
Qed.

Lemma display_ids_distinct_witness :
  ∃ t, Component.mindMapData = Ok t
    ∧ Node.id <$> (Component.display t (clicks t [lit "nyc"; lit "nyc"])).1
      = [lit "nyc"; lit "traditional-compute"; lit "data-&-ai"]
    ∧ NoDup (Node.id <$> (Component.display t (clicks t [lit "nyc"; lit "nyc"])).1)
    ∧ NoDup (Edge.target
             <$> (Component.display t (clicks t [lit "nyc"; lit "nyc"])).2).
Proof.
  destruct Component.mindMapData as [t| |] eqn:Ht; try (by vm_compute in Ht).
  exists t. split; [done|].
  split; [by vm_compute in Ht; injection Ht as <-|].
  apply (display_ids_distinct t [lit "nyc"; lit "nyc"]).
  vm_compute in Ht. injection Ht as <-. by_computation.
Defined.

(** ** The parser of the application *)

(** X9: The parser of the application returns, for every input, a tree
    in which [y] is a number at every node: [NaN], the [y] of an object
    whose parent is missing, does not reach the output. *)
Theorem y_is_a_number (markdown : str) :
  ∃ t, App.parseMarkdown markdown = Ok t
       ∧ Forall (λ n, ∃ w : Z, App.y (App.position (item n)) = Fin w) (nodes t).
Proof.
  unfold App.parseMarkdown.
  destruct (parseLines_laidOut (App.lines markdown))
    as (t&Ht&[Hfb|(Hev&_&Hy)]); exists t; (split; [done|]).
  - subst t. repeat constructor. by exists 250%Z.
  - eapply spread_Fin; [|exact Hy].
    eapply everywhere_impl; [|exact Hev]. by intros it ks (_&_&?).
Qed.

(** X10: In the tree the parser of the application returns, the
    fallback root apart, a node at depth [d] (0 for the root) is the object
    of a heading line of level [d + 1] exactly: headings that skip a level
    are not in the tree. *)
Theorem depth_is_heading_level (markdown : str) :
  ∃ t, App.parseMarkdown markdown = Ok t
       ∧ (t = App.fallback
          ∨ ∀ d n, (d, n) ∈ walk 0 t →
              ∃ line, line ∈ App.lines markdown
                ∧ JS.headingLevel line = S d
                ∧ item n = entry line (App.y (App.position (item n)))).
Proof.
  unfold App.parseMarkdown.
  destruct (parseLines_laidOut (App.lines markdown))
    as (t&Ht&[Hfb|(Hev&Hx&_)]); exists t; (split; [done|]); [by left|right].
  intros d n Hn. by eapply laidOut_level.
Qed.

(** X11: The root the parser of the application returns is the object of
    the last line of heading level 1, at [(250, 160)]; it is the fallback
    root when there is no such line. *)
Theorem root_is_last_top_heading (markdown : str) :
  ∃ t, App.parseMarkdown markdown = Ok t
       ∧ match lastTop (App.lines markdown) with
         | Some line => item t = entry line (Fin (App.ySpacing * 2))
         | None => t = App.fallback
         end.
Proof.
  unfold App.parseMarkdown, App.parseLines, App.rootTree.
  set (ls := App.lines markdown).
  destruct (run_rootIs (foldl App.countChildren ∅ ls) ls)
    as (st&Hrun&(Hwf&_&Hr)&Hroot).
  rewrite Hrun. cbn [mbind outcome_bind].
  destruct (lastTop ls) as [line|].
  - destruct Hroot as (a&Ha&Hit). rewrite Ha.
    destruct (reify_total (App.heap st) a Hwf (Hr a Ha)) as [t Ht].
    unfold readBack. rewrite Ht. cbn [fetch mbind outcome_bind].
    eexists. split; [done|]. rewrite rose_map_item.
    apply reify_root in Ht as (c&Hc&->). unfold itemAt in Hit.
    rewrite Hc in Hit. by injection Hit as <-.
  - rewrite Hroot. by eexists.
Qed.

(** X12: The table [childCountByParent] of the first pass has no effect
    on the result: the second pass run with any other table in its place
    gives the same outcome ([totalChildren] and [totalHeight] are computed
    and not used). *)
Theorem first_pass_is_unused (counts : gmap str nat) (ls : list str) :
  App.parseLines ls
  = (st ← forEach (App.step counts) App.init ls;
     match App.root st with
     | Some a => t ← readBack (App.heap st) a; Ok (rose_map snd t)
     | None => Ok App.fallback
     end).
Proof. apply parseLines_with. Qed.

(** X13: The [color] of every node the parser of the application
    returns is a colour value [#RRGGBB], six hexadecimal digits after the
    [#], whatever the input. *)
Theorem colours_are_valid (markdown : str) :
  ∃ t, App.parseMarkdown markdown = Ok t
       ∧ Forall (λ n, colorValue (App.color (item n))) (nodes t).
Proof.
  unfold App.parseMarkdown.
  destruct (parseLines_laidOut (App.lines markdown))
    as (t&Ht&[Hfb|(Hev&_)]); exists t; (split; [done|]).
  - subst t. repeat constructor. exists (lit "4169e1"). split_and!; [done..|].
    repeat constructor; unfold hexDigit; set_solver.
  - unfold everywhere in Hev. eapply Forall_impl; [exact Hev|].
    intros n (Hl&_). by eapply lined_color.
Qed.

(** X14: In the tree below [root], with every node the address of its
    object: the object at address [a] is the one of the heading line
    number [a] (from 0), and the addresses of the children of every node
    increase, so the children of a node are in the order of their lines in
    the source. *)
Theorem children_in_source_order (markdown : str) :
  ∃ o, App.rootTree (App.lines markdown) = Ok o
       ∧ App.parseMarkdown markdown
         = Ok (from_option (rose_map snd) App.fallback o)
       ∧ ∀ t, o = Some t →
           Forall (λ n,
             (∃ line yPos, headings (App.lines markdown) !! (item n).1 = Some line
                           ∧ (item n).2 = entry line yPos)
             ∧ StronglySorted lt ((λ k, (item k).1) <$> children n)) (nodes t).
Proof.
  unfold App.parseMarkdown, App.parseLines, App.rootTree.
  set (ls := App.lines markdown).
  destruct (run_ordered (foldl App.countChildren ∅ ls) ls)
    as (st&Hrun&(Hwf&_&Hr)&_&Hcells).
  rewrite Hrun. cbn [mbind outcome_bind].
  destruct (App.root st) as [a|] eqn:Ha.
  - destruct (reify_total (App.heap st) a Hwf (Hr a eq_refl)) as [t Ht].
    unfold readBack. rewrite Ht. cbn [fetch mbind outcome_bind].
    eexists. split_and!; [done..|]. intros ? [= <-].
    eapply Forall_impl; [by eapply reify_cells|].
    intros n (c&Hc&Hpay&Hkids). rewrite Hpay, Hkids. by apply Hcells.
  - eexists. by split_and!.
Qed.

(** ** The stack-based parser *)

(** X15: The stack-based parser raises a [TypeError] exactly on the
    inputs without a non-blank line (it reads [content] of
    [root.children[0]], which is [undefined]); on every other input it
    returns a tree. *)
Theorem stack_parser_raises_without_lines (markdown : str) :
  (MarkdownParser.parseMarkdown markdown = TypeError
   ↔ MarkdownParser.lines markdown = [])
  ∧ (MarkdownParser.lines markdown ≠ []
     ↔ ∃ t, MarkdownParser.parseMarkdown markdown = Ok t).
Proof.
  unfold MarkdownParser.parseMarkdown.
  destruct (MarkdownParser.lines markdown) as [|l0 rest].
  - rewrite parseLines_nil. split; [done|]. split; [done|]. by intros [t ?].
  - destruct (parseLines_first l0 rest) as (t&Ht&_). rewrite Ht.
    split; split; try done. by exists t.
Qed.

(** X16: The nodes of the tree the stack-based parser returns,
    parents before children and children from first to last, are the first
    non-blank line and the lines after it up to the first one that is at
    most as deep, in the order of the source: the labels are the contents
    of these lines, one node per line. *)
Theorem labels_in_line_order (markdown : str) (line : str) (rest : list str) :
  MarkdownParser.lines markdown = line :: rest →
  ∃ t, MarkdownParser.parseMarkdown markdown = Ok t
       ∧ (λ n, MarkdownParser.label (item n)) <$> nodes t
         = MarkdownParser.lineContent
           <$> line :: below (MarkdownParser.lineLevel line) rest.
Proof.
  intros Hls. unfold MarkdownParser.parseMarkdown. rewrite Hls.
  rewrite parseLines_below.
  destruct (parseLines_fold line (below (MarkdownParser.lineLevel line) rest))
    as (T1&Hparse&_&Hitems&_); [apply below_deeper|].
  eexists. split; [exact Hparse|].
  rewrite convert_labels, nodes_rose_map, <- list_fmap_compose.
  apply (f_equal (fmap MarkdownParser.content)) in Hitems.
  rewrite <- !list_fmap_compose in Hitems.
  etrans; [|exact Hitems].
  apply list_fmap_ext. intros i n _. simpl. by rewrite rose_map_item.
Qed.

Lemma labels_in_line_order_witness :
  let markdown := lit "# A" ++ nl ++ lit "## B" ++ nl ++ lit "# C" ++ nl ++ lit "## D" in
  ∃ t, MarkdownParser.parseMarkdown markdown = Ok t
       ∧ (λ n, MarkdownParser.label (item n)) <$> nodes t = [lit "A"; lit "B"].
Proof.
  apply (labels_in_line_order
           (lit "# A" ++ nl ++ lit "## B" ++ nl ++ lit "# C" ++ nl ++ lit "## D")
           (lit "# A") [lit "## B"; lit "# C"; lit "## D"]).
  reflexivity.
Defined.

(** X17: The tree the stack-based parser returns is the fold of the
    first non-blank line and the lines below it (those after it up to the
    first one that is at most as deep): the line number [i] of them is the
    node with address [i + 1], the nodes come in the order of their lines,
    and the parent of every node but the first is the nearest line before
    it that has fewer [#]: the parent is less deep than the child, and no
    line between them is less deep than the child. *)
Theorem parent_is_nearest_shallower_line (markdown : str) (line : str)
    (rest : list str) :
  MarkdownParser.lines markdown = line :: rest →
  let block := line :: below (MarkdownParser.lineLevel line) rest in
  ∃ T, MarkdownParser.parseMarkdown markdown
       = Ok (MarkdownParser.convertToMindMap (rose_map snd T) 0 0)
    ∧ addrs T = seq 1 (length block)
    ∧ (λ n, (item n).2) <$> nodes T = nodeOf <$> block
    ∧ Forall (λ n, Forall (λ k, nearestBelow block (item n).1 (item k).1)
                      (children n)) (nodes T).
Proof.
  intros Hls block. unfold MarkdownParser.parseMarkdown. rewrite Hls.
  rewrite parseLines_below.
  apply parseLines_fold, below_deeper.
Qed.

Lemma parent_is_nearest_shallower_line_witness :
  let markdown := lit "# A" ++ nl ++ lit "### D" ++ nl ++ lit "## B" in
  let block := [lit "# A"; lit "### D"; lit "## B"] in
  ∃ T, MarkdownParser.parseMarkdown markdown
       = Ok (MarkdownParser.convertToMindMap (rose_map snd T) 0 0)
    ∧ addrs T = [1; 2; 3]
    ∧ (λ n, (item n).2) <$> nodes T = nodeOf <$> block
    ∧ Forall (λ n, Forall (λ k, nearestBelow block (item n).1 (item k).1)
                      (children n)) (nodes T).
Proof.
  apply (parent_is_nearest_shallower_line
           (lit "# A" ++ nl ++ lit "### D" ++ nl ++ lit "## B")
           (lit "# A") [lit "### D"; lit "## B"]).
  reflexivity.
Defined.

(** ** The parser and the component together *)

(** X18: Whatever the outline and whatever is expanded: every node on
    display after the root is [createNode] of the child number [i], for
    some [i], of the node its edge comes from, its edge leads from that
    node to it, and it is placed one [xSpacing] to the right of that node,
    at the [y] the layout gives to the child number [i]: [ySpacing] above
    its parent for the first child, [i * ySpacing] below it for the
    others. *)
Theorem displayed_children_are_placed (markdown : str) (expandedNodes : JSMap.t) :
  ∃ t ns, App.parseMarkdown markdown = Ok t
    ∧ (Component.display t expandedNodes).1 = Component.rootNode t :: ns
    ∧ Forall2 (λ nd e,
        ∃ parent i child,
          Component.findNodeData t (Edge.source e) = Some parent
          ∧ children parent !! i = Some child
          ∧ nd = Component.createNode child
          ∧ e = Component.edgeTo (Edge.source e) child
          ∧ Node.position nd
            = {| App.x := (App.x (App.position (item parent)) + App.xSpacing)%Z;
                 App.y := yrel (App.y (App.position (item parent))) i |})
        ns (Component.display t expandedNodes).2.
Proof.
  unfold App.parseMarkdown.
  destruct (parseLines_laidOut (App.lines markdown)) as (t&Ht&Hlaid).
  exists t. rewrite display_shown. eexists. split_and!; [done..|]. cbn [snd].
  apply Forall2_fmap_same, Forall_forall. intros [k child] Hin.
  apply shown_elem in Hin as (lvl&parent&i&Hk&Hp&Hi&Hle).
  exists parent, i, child. split_and!; [done..|].
  destruct Hlaid as [->|(Hev&_)].
  - apply findNode_Some in Hp as [Hp _]. vm_compute in Hp.
    apply list_elem_of_singleton in Hp as ->. done.
  - apply findNode_Some in Hp as [Hp _].
    unfold everywhere in Hev. rewrite Forall_forall in Hev.
    destruct (Hev parent Hp) as (_&Hright&Hspread).
    assert ((item <$> children parent) !! i = Some (item child)) as Hic
      by by rewrite list_lookup_fmap, Hi.
    unfold childrenRight in Hright. rewrite Forall_forall in Hright.
    specialize (Hright (item child) (list_elem_of_lookup_2 _ _ _ Hic)).
    specialize (Hspread i (item child) Hic).
    cbn [Component.createNode Node.position Edge.source Component.edgeTo snd].
    rewrite <- Hright, <- Hspread. by destruct (App.position (item child)).
Qed.

(** ** Labels and identifiers *)

(** X19: The identifier of every node the parser of the application
    returns has no white space and no capital letter A to Z in it. *)
Theorem ids_are_clean (markdown : str) :
  ∃ t, App.parseMarkdown markdown = Ok t
       ∧ Forall (λ n, Forall (λ c, ¬ whiteSpace c ∧ ¬ capital c) (App.id (item n)))
           (nodes t).
Proof.
  unfold App.parseMarkdown.
  destruct (parseLines_laidOut (App.lines markdown))
    as (t&Ht&[Hfb|(Hev&_)]); exists t; (split; [done|]).
  - subst t. repeat constructor; try (by vm_compute);
      unfold capital; apply (bool_decide_unpack _); by vm_compute.
  - unfold everywhere in Hev. eapply Forall_impl; [exact Hev|].
    intros n (Hl&_). rewrite (lined_id _ _ Hl). apply slug_clean.
Qed.

(** X20: The label of every node has no white space at either end, in
    the trees of both parsers. *)
Theorem labels_are_trimmed (markdown : str) :
  (∀ t, MarkdownParser.parseMarkdown markdown = Ok t →
     Forall (λ n, trimmed (MarkdownParser.label (item n))) (nodes t))
  ∧ (∃ t, App.parseMarkdown markdown = Ok t
          ∧ Forall (λ n, trimmed (App.label (item n))) (nodes t)).
Proof.
  split.
  - intros t Ht. unfold MarkdownParser.parseMarkdown in Ht.
    destruct (MarkdownParser.lines markdown) as [|l0 rest];
      [by rewrite parseLines_nil in Ht|].
    rewrite parseLines_below in Ht.
    destruct (parseLines_fold l0 (below (MarkdownParser.lineLevel l0) rest))
      as (T1&Hparse&_&Hitems&_); [apply below_deeper|].
    rewrite Hparse in Ht. injection Ht as <-.
    apply (Forall_fmap (λ n, MarkdownParser.label (item n)) trimmed).
    rewrite convert_labels, nodes_rose_map, <- list_fmap_compose.
    apply Forall_fmap, Forall_forall. intros n Hn. simpl.
    rewrite rose_map_item.
    assert ((item n).2 ∈ nodeOf <$> l0 :: below (MarkdownParser.lineLevel l0) rest)
      as Hin.
    { rewrite <- Hitems. by apply (list_elem_of_fmap_2 (λ n, (item n).2)). }
    apply list_elem_of_fmap in Hin as (l&->&_). apply trim_trimmed.
  - unfold App.parseMarkdown.
    destruct (parseLines_laidOut (App.lines markdown))
      as (t&Ht&[Hfb|(Hev&_)]); exists t; (split; [done|]).
    + subst t. repeat constructor; intros c [= <-]; by vm_compute.
    + unfold everywhere in Hev. eapply Forall_impl; [exact Hev|].
      intros n (Hl&_). by eapply lined_label.
Qed.

Lemma labels_are_trimmed_witness :
  ∃ t, MarkdownParser.parseMarkdown (lit "#   A  " ++ nl ++ lit "## B ") = Ok t
       ∧ Forall (λ n, trimmed (MarkdownParser.label (item n))) (nodes t).
Proof.
  destruct (MarkdownParser.parseMarkdown (lit "#   A  " ++ nl ++ lit "## B "))
    as [t| |] eqn:Ht; [|by vm_compute in Ht..].
  exists t. split; [done|].
  exact (proj1 (labels_are_trimmed (lit "#   A  " ++ nl ++ lit "## B ")) t Ht).
Defined.

(** ** The layout *)

(** X21: In the tree the stack-based parser returns, the root is
    [node-0-0] at [(0, 0)], and the child number [j] (from 0) of a node at
    depth [d] is [node-(d+1)-j] at [((d + 1) * 200, j * 100)]. *)
Theorem place_by_depth_and_index (markdown : str) (t : MarkdownParser.MindMapNode) :
  MarkdownParser.parseMarkdown markdown = Ok t →
  MarkdownParser.id (item t) = lit "node-0-0"
  ∧ MarkdownParser.position (item t) = {| MarkdownParser.x := 0; MarkdownParser.y := 0 |}
  ∧ ∀ d n j k, (d, n) ∈ walk 0 t → children n !! j = Some k →
      MarkdownParser.id (item k)
      = lit "node-" ++ JS.ofNat (S d) ++ lit "-" ++ JS.ofNat j
      ∧ MarkdownParser.position (item k)
        = {| MarkdownParser.x := (Z.of_nat (S d) * 200)%Z;
             MarkdownParser.y := (Z.of_nat j * 100)%Z |}.
Proof.
  intros Ht. apply parseLines_convert in Ht as [T ->]. split_and!.
  - by rewrite convert_item.
  - by rewrite convert_item.
  - intros d n j k Hn Hk. apply walk_convert in Hn as (T'&i&->).
    apply convert_child in Hk. by rewrite Hk.
Qed.

Lemma place_by_depth_and_index_witness :
  ∃ t k, MarkdownParser.parseMarkdown (lit "# A" ++ nl ++ lit "## B" ++ nl ++ lit "## C")
         = Ok t
    ∧ children t !! 1 = Some k
    ∧ MarkdownParser.id (item k) = lit "node-1-1"
    ∧ MarkdownParser.position (item k)
      = {| MarkdownParser.x := 200; MarkdownParser.y := 100 |}.
Proof.
  destruct (MarkdownParser.parseMarkdown
              (lit "# A" ++ nl ++ lit "## B" ++ nl ++ lit "## C"))
    as [t| |] eqn:Ht; [|by vm_compute in Ht..].
  destruct (children t !! 1) as [k|] eqn:Hk;
    [|by vm_compute in Ht; injection Ht as <-].
  exists t, k. split_and!; [done..| |].
  - refine (proj1 (proj2 (proj2 (place_by_depth_and_index _ t Ht)) 0 t 1 k _ Hk)).
    destruct t. rewrite walk_unfold. left.
  - refine (proj2 (proj2 (proj2 (place_by_depth_and_index _ t Ht)) 0 t 1 k _ Hk)).
    destruct t. rewrite walk_unfold. left.
Defined.

(** X22: In the tree the parser of the application returns, the
    fallback root apart, the root is at [(250, 160)] and the child number
    [i] (from 0) of a node at [(x, y)] is at [x + 250], and at [y - 80] if
    it is the first child, at [y + i * 80] otherwise. *)
Theorem place_by_parent_and_index (markdown : str) :
  ∃ t, App.parseMarkdown markdown = Ok t
    ∧ (t = App.fallback
       ∨ App.position (item t) = {| App.x := 250; App.y := Fin 160 |}
         ∧ ∀ n i k, n ∈ nodes t → children n !! i = Some k →
             App.position (item k)
             = {| App.x := (App.x (App.position (item n)) + 250)%Z;
                  App.y := if decide (i = 0)
                           then numSub (App.y (App.position (item n))) (Fin 80)
                           else numAdd (App.y (App.position (item n)))
                                  (Fin (Z.of_nat i * 80)) |}).
Proof.
  unfold App.parseMarkdown.
  destruct (parseLines_laidOut (App.lines markdown))
    as (t&Ht&[Hfb|(Hev&Hx&Hy)]); exists t; (split; [done|]); [by left|right].
  split.
  - destruct (App.position (item t)) as [x0 y0]. simpl in *. by subst.
  - intros n i k Hn Hk. unfold everywhere in Hev. rewrite Forall_forall in Hev.
    destruct (Hev n Hn) as (_&Hright&Hspread).
    assert ((item <$> children n) !! i = Some (item k)) as Hik
      by by rewrite list_lookup_fmap, Hk.
    unfold childrenRight in Hright. rewrite Forall_forall in Hright.
    specialize (Hright (item k) (list_elem_of_lookup_2 _ _ _ Hik)).
    specialize (Hspread i (item k) Hik).
    destruct (App.position (item k)) as [kx ky]. simpl in *. by subst.
Qed.

(** ** Sections and lines *)

(** X23: For the parser of the application, what comes before a line
    of heading level 1 does not count: the result is that of the outline
    that starts with this line. *)
Theorem earlier_sections_do_not_count (markdown : str) (pre : list str)
    (line : str) (post : list str) :
  App.lines markdown = pre ++ line :: post →
  JS.headingLevel line = 1 →
  App.parseMarkdown markdown = App.parseLines (line :: post).
Proof.
  intros Hls Hl. unfold App.parseMarkdown. rewrite Hls.
  by apply parseLines_last_section.
Qed.

Lemma earlier_sections_do_not_count_witness :
  App.parseMarkdown
    (lit "# A" ++ nl ++ lit "## B" ++ nl ++ lit "# C" ++ nl ++ lit "### D"
     ++ nl ++ lit "## E")
  = App.parseLines [lit "# C"; lit "### D"; lit "## E"].
Proof.
  apply (earlier_sections_do_not_count _ [lit "# A"; lit "## B"] (lit "# C")
           [lit "### D"; lit "## E"]); reflexivity.
Defined.



(** X25: The stack-based parser reads a line made of [k] times [#],
    a blank and a label without white space at its ends as a node of level
    [k] with that label. *)
Theorem heading_line_is_read (k : nat) (text : str) :
  1 ≤ k → text ≠ [] → trimmed text →
  nodeOf (JS.hashes k ++ lit " " ++ text)
  = {| MarkdownParser.level := Z.of_nat k; MarkdownParser.content := text |}.
Proof.
  intros Hk Htext [Hh Hl]. unfold nodeOf. f_equal.
  - unfold MarkdownParser.lineLevel. by rewrite headingLevel_hashes.
  - unfold MarkdownParser.lineContent.
    rewrite stripHeading_hashes by done.
    cbn [lit list_ascii_of_string app JS.dropWhile].
    change (JS.isWhiteSpace " "%char) with true. cbn iota.
    rewrite (dropWhile_clean text Hh). by apply trim_of_trimmed.
Qed.

Lemma heading_line_is_read_witness :
  nodeOf (lit "### Vision AI")
  = {| MarkdownParser.level := 3; MarkdownParser.content := lit "Vision AI" |}.
Proof.
  apply (heading_line_is_read 3 (lit "Vision AI")).
  - lia.
  - discriminate.
  - split; intros d [= <-]; by vm_compute.
Defined.

(** X26: The tree the parser of the application builds below [root] holds
    no object twice (no node is shared between two parents), so it has at
    most as many nodes as the outline has heading lines. *)
Theorem no_object_twice (markdown : str) :
  ∃ o, App.rootTree (App.lines markdown) = Ok o
    ∧ App.parseMarkdown markdown = Ok (from_option (rose_map snd) App.fallback o)
    ∧ ∀ t, o = Some t →
        NoDup (addrs t)
        ∧ size (rose_map snd t) ≤ length (headingLevels (App.lines markdown)).
Proof.
  unfold App.parseMarkdown, App.parseLines, App.rootTree.
  set (ls := App.lines markdown).
  destruct (run_once (foldl App.countChildren ∅ ls) ls) as (st&Hrun&Hainv&Honce).
  rewrite Hrun. cbn [mbind outcome_bind].
  pose proof (run_heap_length _ _ _ _ ainv_init Hrun) as Hlen.
  destruct (App.root st) as [r|] eqn:Hr; [|eexists; by split_and!].
  destruct (Honce r eq_refl) as (t&Ht&Hc).
  unfold readBack. rewrite Ht. cbn [fetch mbind outcome_bind].
  eexists. split_and!; [done..|]. intros ? [= <-].
  pose proof (count_NoDup t Hc) as Hnd. split; [done|].
  rewrite size_rose_map, size_addrs.
  etrans; [apply (NoDup_bounded _ (length (App.heap st)) Hnd)|].
  - by eapply reify_addrs.
  - rewrite Hlen. simpl. lia.
Qed.

(** ** The two parsers on a well-formed outline *)

(** X27: On an outline without white space around it whose lines are all
    headings, the first the only one of level 1 and every later one at
    most one level below the heading before it, the two parsers read the
    same lines and return trees of the same shape, whose nodes, parents
    before children, are the lines in their order: the labels of the
    stack-based parser are the contents of the lines, those of the
    application what [parseLine] makes of them. *)
Theorem parsers_agree_on_well_formed_outlines (markdown : str) :
  JS.trim markdown = markdown →
  wellFormed (JS.headingLevel <$> JS.split markdown) = true →
  MarkdownParser.lines markdown = JS.split markdown
  ∧ App.lines markdown = JS.split markdown
  ∧ ∃ tS tA,
      MarkdownParser.parseMarkdown markdown = Ok tS
      ∧ App.parseMarkdown markdown = Ok tA
      ∧ shape tS = shape tA
      ∧ (λ n, MarkdownParser.label (item n)) <$> nodes tS
        = MarkdownParser.lineContent <$> JS.split markdown
      ∧ (λ n, App.label (item n)) <$> nodes tA
        = (λ l, (App.parseLine l).1.1) <$> JS.split markdown.
Proof.
  intros Htrim Hwf.
  assert (MarkdownParser.lines markdown = JS.split markdown) as HlS.
  { apply filter_all.
    assert (Forall (λ L, L ≠ 0) (JS.headingLevel <$> JS.split markdown)) as Hlv.
    { destruct (JS.headingLevel <$> JS.split markdown) as [|[|[|?]] levels];
        try done.
      constructor; [done|]. cbn [wellFormed] in Hwf.
      eapply Forall_impl; [exact (nestedFrom_deep _ _ Hwf)|]. simpl. lia. }
    rewrite Forall_fmap in Hlv. eapply Forall_impl; [exact Hlv|].
    intros l. apply heading_not_blank. }
  assert (App.lines markdown = JS.split markdown) as HlA
    by (unfold App.lines; by rewrite Htrim).
  split_and!; [done..|].
  unfold MarkdownParser.parseMarkdown, App.parseMarkdown. rewrite HlS, HlA.
  by apply parsers_agree_lines.
Qed.

Lemma parsers_agree_on_well_formed_outlines_witness :
  let markdown :=
    lit "# A" ++ nl ++ lit "## B" ++ nl ++ lit "### C" ++ nl ++ lit "## D" in
  ∃ tS tA,
    MarkdownParser.parseMarkdown markdown = Ok tS
    ∧ App.parseMarkdown markdown = Ok tA
    ∧ shape tS = shape tA
    ∧ (λ n, MarkdownParser.label (item n)) <$> nodes tS
      = [lit "A"; lit "B"; lit "C"; lit "D"]
    ∧ (λ n, App.label (item n)) <$> nodes tA
      = [lit "A"; lit "B"; lit "C"; lit "D"].
Proof.
  refine (proj2 (proj2 (parsers_agree_on_well_formed_outlines
            (lit "# A" ++ nl ++ lit "## B" ++ nl ++ lit "### C" ++ nl ++ lit "## D")
            _ _))); reflexivity.
Defined.
